(** * discusspedia-be: the post and questionnaire handlers and the post store

    A shallow embedding of [api/post.go], [repository/post.go] and the
    questionnaire handlers.  Go's [int] is modelled by [Z], strings by
    [string], slices by lists (or by [Slice] where a nil slice and an empty
    one must be told apart), maps by [gmap].  The store is a record of
    tables; a repository call runs against the tables and a script of
    injected failures, a handler against the store and the log of the
    responses it writes. *)

From Stdlib Require Import ZArith Ascii String DecimalString Sorted.
From stdpp Require Import base option list gmap strings.

Local Open Scope string_scope.
Local Open Scope list_scope.
Local Open Scope Z_scope.

(** ** Go prelude *)

(** A Go slice value: [Nil] is the zero value (encoded as JSON [null]),
    [Make l] an allocated slice (encoded as a JSON array, [[]] when empty). *)
Inductive Slice (A : Type) : Type :=
| Nil
| Make (elems : list A).
Arguments Nil {A}.
Arguments Make {A} elems.

Definition elems_of {A} (s : Slice A) : list A :=
  match s with Nil => [] | Make l => l end.

(** [append(s, x)]: the result is always allocated. *)
Definition append {A} (s : Slice A) (x : A) : Slice A := Make (elems_of s ++ [x]).

(** Keys in the order of their first appearance. *)
Fixpoint first_seen (ids : list Z) : list Z :=
  match ids with
  | [] => []
  | i :: rest => i :: filter (fun j => j ≠ i) (first_seen rest)
  end.

(** Go [error] values that the handlers tell apart, and any other failure. *)
Inductive error : Type :=
| ErrPostNotFound
| ErrNoRows
| ErrOther (msg : string).

Definition Error (e : error) : string :=
  match e with
  | ErrPostNotFound => "post not found"
  | ErrNoRows => "sql: no rows in result set"
  | ErrOther msg => msg
  end.

Global Instance error_eq_dec : EqDecision error.
Proof. solve_decision. Defined.

Module strconv.

Definition int_min : Z := - 2 ^ 63.
Definition int_max : Z := 2 ^ 63 - 1.

Definition digit_of (c : ascii) : option Z :=
  let n := Z.of_nat (nat_of_ascii c) in
  if (48 <=? n) && (n <=? 57) then Some (n - 48) else None.

Fixpoint parse_digits (acc : Z) (s : string) : option Z :=
  match s with
  | EmptyString => Some acc
  | String c s' =>
      match digit_of c with
      | Some d => parse_digits (10 * acc + d) s'
      | None => None
      end
  end.

(** [strconv.Atoi]: an optional sign, then at least one decimal digit; the
    value must fit Go's 64-bit [int].  [None] is a non-nil error. *)
Definition Atoi (s : string) : option Z :=
  let '(neg, ds) :=
    match s with
    | String "+" r => (false, r)
    | String "-" r => (true, r)
    | _ => (false, s)
    end in
  match ds with
  | EmptyString => None
  | _ =>
      match parse_digits 0 ds with
      | Some n =>
          let v := if neg then - n else n in
          if (int_min <=? v) && (v <=? int_max) then Some v else None
      | None => None
      end
  end.

(** [strconv.ParseBool] accepts exactly these twelve spellings. *)
Definition ParseBool (s : string) : option bool :=
  if bool_decide (s ∈ ["1"; "t"; "T"; "TRUE"; "true"; "True"]) then Some true
  else if bool_decide (s ∈ ["0"; "f"; "F"; "FALSE"; "false"; "False"]) then Some false
  else None.

End strconv.

(** HTTP status codes of [net/http] used by the handlers. *)
Module http.
Definition StatusOK : Z := 200.
Definition StatusBadRequest : Z := 400.
Definition StatusForbidden : Z := 403.
Definition StatusNotFound : Z := 404.
Definition StatusInternalServerError : Z := 500.
End http.

(** [database/sql] nullable columns. *)
Module NullString.
Record t := mk { String : string; Valid : bool }.
Definition null : t := mk "" false.
Definition of_option (o : option string) : t :=
  match o with Some s => mk s true | None => null end.
End NullString.

(** [sql.NullInt32].  A column value is a 64-bit integer or null;
    [of_option] is the value as the driver holds it, and [fits] tells
    whether [rows.Scan] can store it: a non-null value outside int32 makes
    [Scan] fail. *)
Module NullInt32.
Record t := mk { Int32 : Z; Valid : bool }.
Definition null : t := mk 0 false.
Definition of_option (o : option Z) : t :=
  match o with Some n => mk n true | None => null end.
Definition fits (n : t) : bool :=
  negb (Valid n) || ((- 2 ^ 31 <=? Int32 n) && (Int32 n <? 2 ^ 31)).
End NullInt32.

(** ** repository: rows returned by the post queries *)

Module PostDetail.
Record t := mk {
  ID : Z;
  IsLike : bool;
  AuthorID : Z;
  AuthorName : string;
  AuthorRole : string;
  AuthorAvatar : NullString.t;
  AuthorInstitution : NullString.t;
  AuthorMajor : NullString.t;
  AuthorBatch : NullInt32.t;
  CategoryID : Z;
  Title : string;
  Description : string;
  CreatedAt : Z;
  CommentCount : Z;
  LikeCount : Z;
  ImageID : NullInt32.t;
  ImagePath : NullString.t;
}.
End PostDetail.

(** ** The tables *)

Module Post.
Record t := mk {
  id : Z; author_id : Z; category_id : Z;
  title : string; desc : string; created_at : Z;
}.
End Post.

Module User.
Record t := mk { id : Z; name : string; role : string; avatar : option string }.
End User.

Module UserDetail.
Record t := mk {
  user_id : Z; institute : option string; major : option string; batch : option Z;
}.
End UserDetail.

Module Comment.
Record t := mk { id : Z; post_id : Z }.
End Comment.

Module PostLike.
Record t := mk { id : Z; post_id : Z; user_id : Z }.
End PostLike.

Module QuestionnaireRow.
Record t := mk { post_id : Z; link : option string }.
End QuestionnaireRow.

Module PostImage.
Record t := mk { id : Z; post_id : Z; path : string }.
End PostImage.

(** The tables the post repository reads and writes, each in storage order,
    with the columns its statements name. *)
Record Database := mkDatabase {
  posts : list Post.t;
  users : list User.t;
  user_details : list UserDetail.t;
  comments : list Comment.t;
  post_likes : list PostLike.t;
  questionnaires : list QuestionnaireRow.t;
  post_images : list PostImage.t;
}.

Definition set_posts (f : list Post.t → list Post.t) (d : Database) : Database :=
  mkDatabase (f (posts d)) (users d) (user_details d) (comments d) (post_likes d)
             (questionnaires d) (post_images d).

Definition set_post_images (f : list PostImage.t → list PostImage.t) (d : Database)
    : Database :=
  mkDatabase (posts d) (users d) (user_details d) (comments d) (post_likes d)
             (questionnaires d) (f (post_images d)).

(** The text that [readPosts] builds and [FetchAllPost] splices after
    [WHERE q.link IS NULL], kept as the pieces it is built from:
    [AND title LIKE '%s%'] with the search text as the request gives it,
    [AND category_id = %d] and [AND author_id = %d].  What statement the
    text makes once spliced is the matter of [feed_query]. *)
Inductive FilterClause : Type :=
| TitleLike (searchTitle : string)
| CategoryIs (category_id : Z)
| AuthorIs (author_id : Z).

(** Rows of the subquery [up] of [FetchAllPost]. *)
Module UserPost.
Record t := mk {
  id : Z;
  author_id : Z;
  author_name : string;
  author_role : string;
  author_avatar : option string;
  author_institution : option string;
  author_major : option string;
  author_batch : option Z;
  category_id : Z;
  title : string;
  desc : string;
  created_at : Z;
  comment_count : Z;
  like_count : Z;
}.
End UserPost.

(** The rows the [FROM ... JOIN ...] part of the subquery [up] of
    [FetchAllPost] ranges over. *)
Definition JoinedRow : Type :=
  Post.t * Z * User.t * option UserDetail.t * option PostLike.t
  * option QuestionnaireRow.t.

(** What the code takes from its environment.  For the handlers:
    [time.Time.Format] with the layout ["2006-01-02 15:04:05"] and the
    moderation service's [Validate].  For the statements, what SQLite
    decides and the source does not: [LIKE] with the pattern [%s%] built
    around the search text; the row of a [GROUP BY] group from which the
    bare columns are read (its position in the group; SQLite documents the
    row as arbitrary); the order in which [ORDER BY] leaves rows with equal
    keys (a comparison read off the rows to be sorted); and what the
    statement of [FetchAllPost] does when the search text spliced into it
    does not stay a string literal: an error of [tx.Query], or rows, each
    with the outcome of its [rows.Scan], and the tables as the statement
    leaves them in the transaction. *)
Class Environment := {
  Format : Z → string;
  Validate : string → bool;
  title_like : string → string → bool;
  bare_row_of_post : list (Post.t * option Comment.t) → nat;
  bare_row_of_joined : list JoinedRow → nat;
  tie_order : list UserPost.t → UserPost.t → UserPost.t → bool;
  spliced_statement :
    Z → Z → Z → string → list FilterClause → Database →
    error + (list (error + PostDetail.t) * Database);
}.

(** ** api: response types *)

Module AuthorPostResponse.
Record t := mk {
  ID : Z;
  Name : string;
  Role : string;
  Institute : string;
  Major : string;
  Batch : Z;
  ProfileImage : string;
}.
Definition zero : t := mk 0 "" "" "" "" 0 "".
End AuthorPostResponse.

Module PostResponse.
Record t := mk {
  ID : Z;
  IsLike : bool;
  IsAuthor : bool;
  Author : AuthorPostResponse.t;
  CategoryID : Z;
  Title : string;
  Description : string;
  CreatedAt : string;
  CommentCount : Z;
  LikeCount : Z;
}.
(** The zero value, which a Go map lookup yields for a missing key. *)
Definition zero : t := mk 0 false false AuthorPostResponse.zero 0 "" "" "" 0 0.
End PostResponse.

Module PostImageResponse.
Record t := mk { ID : Z; URL : string }.
End PostImageResponse.

Module DetailPostResponse.
Record t := mk {
  Post : PostResponse.t;
  Images : Slice PostImageResponse.t;
}.
End DetailPostResponse.

(** ** api: the feed assembler of [readPosts] (post.go, lines 266-342) *)

Section FeedAssembler.
Context `{Environment}.

(** The nullable author columns default to the zero value. *)
Definition string_or_zero (n : NullString.t) : string :=
  if NullString.Valid n then NullString.String n else "".

Definition int_or_zero (n : NullInt32.t) : Z :=
  if NullInt32.Valid n then NullInt32.Int32 n else 0.

(** The [PostResponse] literal built from one row (lines 297-316). *)
Definition post_response (authorID : Z) (post : PostDetail.t) : PostResponse.t :=
  {| PostResponse.ID := PostDetail.ID post;
     PostResponse.IsLike := PostDetail.IsLike post;
     PostResponse.IsAuthor := bool_decide (authorID = PostDetail.AuthorID post);
     PostResponse.Author :=
       {| AuthorPostResponse.ID := PostDetail.AuthorID post;
          AuthorPostResponse.Name := PostDetail.AuthorName post;
          AuthorPostResponse.Role := PostDetail.AuthorRole post;
          AuthorPostResponse.Major := string_or_zero (PostDetail.AuthorMajor post);
          AuthorPostResponse.Institute := string_or_zero (PostDetail.AuthorInstitution post);
          AuthorPostResponse.Batch := int_or_zero (PostDetail.AuthorBatch post);
          AuthorPostResponse.ProfileImage := string_or_zero (PostDetail.AuthorAvatar post) |};
     PostResponse.CategoryID := PostDetail.CategoryID post;
     PostResponse.Title := PostDetail.Title post;
     PostResponse.Description := PostDetail.Description post;
     PostResponse.CreatedAt := Format (PostDetail.CreatedAt post);
     PostResponse.CommentCount := PostDetail.CommentCount post;
     PostResponse.LikeCount := PostDetail.LikeCount post |}.

Definition image_response (post : PostDetail.t) : PostImageResponse.t :=
  {| PostImageResponse.ID := NullInt32.Int32 (PostDetail.ImageID post);
     PostImageResponse.URL := NullString.String (PostDetail.ImagePath post) |}.

(** First loop (lines 269-318): one step on [(postIDqueue, postsDetail)]. *)
Definition scalars_step (authorID : Z)
    (st : list Z * gmap Z PostResponse.t) (post : PostDetail.t)
    : list Z * gmap Z PostResponse.t :=
  let '(postIDqueue, postsDetail) := st in
  match postsDetail !! PostDetail.ID post with
  | Some _ => (postIDqueue, postsDetail)
  | None =>
      let postIDqueue' :=
        match last postIDqueue with
        | Some q =>
            if bool_decide (q ≠ PostDetail.ID post)
            then postIDqueue ++ [PostDetail.ID post] else postIDqueue
        | None => postIDqueue ++ [PostDetail.ID post]
        end in
      (postIDqueue', <[PostDetail.ID post := post_response authorID post]> postsDetail)
  end.

(** Second loop (lines 322-333): one step on the [images] map. *)
Definition images_step
    (images : gmap Z (Slice PostImageResponse.t)) (post : PostDetail.t)
    : gmap Z (Slice PostImageResponse.t) :=
  let images1 :=
    match images !! PostDetail.ID post with
    | Some _ => images
    | None => <[PostDetail.ID post := Make []]> images
    end in
  if NullInt32.Valid (PostDetail.ImageID post)
  then <[PostDetail.ID post :=
           append (default Nil (images1 !! PostDetail.ID post)) (image_response post)]> images1
  else images1.

(** The three loops together: the value of [postsReponse] at line 344. *)
Definition assemble (authorID : Z) (posts : list PostDetail.t) : list DetailPostResponse.t :=
  let '(postIDqueue, postsDetail) := foldl (scalars_step authorID) ([], ∅) posts in
  let images := foldl images_step ∅ posts in
  foldl (fun postsReponse postID =>
           postsReponse ++
             [ {| DetailPostResponse.Post := default PostResponse.zero (postsDetail !! postID);
                  DetailPostResponse.Images := default Nil (images !! postID) |} ])
        [] postIDqueue.

(** *** The grouping the specification describes, stated on its own *)

Definition rows_of (postID : Z) (posts : list PostDetail.t) : list PostDetail.t :=
  filter (fun p => PostDetail.ID p = postID) posts.

Definition has_image (p : PostDetail.t) : Prop :=
  NullInt32.Valid (PostDetail.ImageID p) = true.

Global Instance has_image_dec p : Decision (has_image p).
Proof. unfold has_image. apply _. Defined.

Definition images_of (postID : Z) (posts : list PostDetail.t) : list PostImageResponse.t :=
  image_response <$> filter has_image (rows_of postID posts).

Definition grouped_entry (authorID : Z) (posts : list PostDetail.t) (postID : Z)
    : DetailPostResponse.t :=
  {| DetailPostResponse.Post :=
       default PostResponse.zero (post_response authorID <$> head (rows_of postID posts));
     DetailPostResponse.Images := Make (images_of postID posts) |}.

Definition grouped (authorID : Z) (posts : list PostDetail.t) : list DetailPostResponse.t :=
  grouped_entry authorID posts <$> first_seen (PostDetail.ID <$> posts).


End FeedAssembler.

(** ** The store: tables, injected failures, transactions *)

(** The committed tables, the outcomes of the coming fallible driver calls
    ([Some e]: the call fails with [e]; an exhausted script: no more
    failures), and the clock that [time.Now] reads. *)
Record Store := mkStore {
  tables : Database;
  failures : list (option error);
  now : Z;
}.

(** A repository call: a state transformer on the store. *)
Definition Repo (A : Type) : Type := Store → A * Store.

Definition repo_ret {A} (a : A) : Repo A := λ s, (a, s).
Definition repo_bind {A B} (c : Repo A) (k : A → Repo B) : Repo B :=
  λ s, let '(a, s') := c s in k a s'.

Declare Scope repo_scope.
Delimit Scope repo_scope with repo.
Notation "x ←ᵣ c ; k" := (repo_bind c (λ x, k))
  (at level 20, c at level 100, k at level 200, only parsing) : repo_scope.

(** The next fallible driver call consumes one entry of the script. *)
Definition attempt : Repo (option error) :=
  λ s, match failures s with
       | [] => (None, s)
       | o :: rest => (o, mkStore (tables s) rest (now s))
       end.

(** [db.Begin]: on success the transaction works on a copy of the tables. *)
Definition Begin : Repo (error + Database) :=
  (e ←ᵣ attempt;
   λ s, (match e with Some e => inl e | None => inr (tables s) end, s))%repo.

(** [tx.Exec]: a statement that changes the transaction's copy. *)
Definition Exec (stmt : Database → Database) (tx : Database) : Repo (error + Database) :=
  (e ←ᵣ attempt;
   repo_ret (match e with Some e => inl e | None => inr (stmt tx) end))%repo.

(** [tx.Query]: a statement that reads the transaction's copy. *)
Definition Query {A} (stmt : Database → error + A) (tx : Database) : Repo (error + A) :=
  (e ←ᵣ attempt;
   repo_ret (match e with Some e => inl e | None => stmt tx end))%repo.

(** [tx.Commit]: on success the copy replaces the tables.  The deferred
    [tx.Rollback] discards the copy otherwise, and does nothing after a
    successful commit. *)
Definition Commit (tx : Database) : Repo (option error) :=
  (e ←ᵣ attempt;
   λ s, match e with
        | Some e => (Some e, s)
        | None => (None, mkStore tx (failures s) (now s))
        end)%repo.

(** [for rows.Next() { ... rows.Scan(...) ... posts = append(posts, post) }]
    over a result set whose rows come with the outcome of their [Scan].
    [rows.Next] is a driver call: it returns false at the end of the rows
    and also when stepping fails, and the loops never ask [rows.Err], so a
    failure ends the loop as the end of the rows does, with the posts
    appended so far.  A [Scan] that fails makes the function return its
    error. *)
Fixpoint scan_rows {A} (rows : list (error + A)) (posts : list A)
    : Repo (error + list A) :=
  match rows with
  | [] => (_ ←ᵣ attempt; repo_ret (inr posts))%repo
  | r :: rows' =>
      (e ←ᵣ attempt;
       match e with
       | Some _ => repo_ret (inr posts)
       | None =>
           match r with
           | inl err => repo_ret (inl err)
           | inr post => scan_rows rows' (posts ++ [post])
           end
       end)%repo
  end.

(** ** SQL operators, as SQLite evaluates them on lists of rows *)

Definition inner_join {A B} (on : A → B → bool) (l : list A) (r : list B) : list (A * B) :=
  a ← l; (λ b, (a, b)) <$> List.filter (on a) r.

Definition left_join {A B} (on : A → B → bool) (l : list A) (r : list B)
    : list (A * option B) :=
  a ← l;
  match List.filter (on a) r with
  | [] => [(a, None)]
  | bs => (λ b, (a, Some b)) <$> bs
  end.

(** [GROUP BY]: the groups, in the order in which their keys first appear;
    every group is non-empty. *)
Definition group_by {A} (key : A → Z) (l : list A) : list (list A) :=
  (λ k, filter (λ a, key a = k) l) <$> first_seen (key <$> l).

(** The row of a [GROUP BY] group that gives the bare columns: the one at
    the position [pick] names, the first for a position outside the group. *)
Definition bare_row {A} (pick : list A → nat) (g : list A) : option A :=
  match g !! pick g with
  | Some r => Some r
  | None => head g
  end.

(** [SELECT ... GROUP BY key]: one row per group, made by [select] from the
    group (for the aggregates) and from the row that gives the bare
    columns. *)
Definition select_group_by {A B} (key : A → Z) (pick : list A → nat)
    (select : list A → A → B) (l : list A) : list B :=
  g ← group_by key l;
  match bare_row pick g with
  | None => []
  | Some r => [select g r]
  end.

(** [COUNT(c)]: the number of rows where column [c] is not null. *)
Definition COUNT {A B} (col : A → option B) (g : list A) : Z :=
  Z.of_nat (length (List.filter (λ a, bool_decide (is_Some (col a))) g)).

(** Insertion sort on [le], stable: rows that [le] ranks equal keep the
    order they had. *)
Fixpoint insert_by {A} (le : A → A → bool) (x : A) (l : list A) : list A :=
  match l with
  | [] => [x]
  | y :: l' => if le x y then x :: l else y :: insert_by le x l'
  end.

Definition sort_by {A} (le : A → A → bool) (l : list A) : list A :=
  foldr (insert_by le) [] l.

(** [ORDER BY]: the rows sorted on [le], those with equal keys in the order
    [tie] gives them. *)
Definition order_by {A} (tie : A → A → bool) (le : A → A → bool) (l : list A) : list A :=
  sort_by le (sort_by tie l).

(** [LIMIT limit OFFSET offset]: a negative offset skips nothing and a
    negative limit puts no bound. *)
Definition limit_offset {A} (limit offset : Z) (l : list A) : list A :=
  let rest := drop (Z.to_nat offset) l in
  if limit <? 0 then rest else take (Z.to_nat limit) rest.

(** ** repository/post.go *)

(** Sequencing of calls that return [(value, error)]: the first error ends
    the function (the [if err != nil { return ..., err }] idiom). *)
Definition repo_try {A B} (c : Repo (error + A)) (k : A → Repo (error + B))
    : Repo (error + B) :=
  (r ←ᵣ c; match r with inl e => repo_ret (inl e) | inr a => k a end)%repo.

Notation "x ←ₑ c ; k" := (repo_try c (λ x, k))
  (at level 20, c at level 100, k at level 200, only parsing) : repo_scope.

(** The rowid SQLite gives to an inserted row: one more than the largest. *)
Definition next_id (ids : list Z) : Z := 1 + foldr Z.max 0 ids.

(** [InsertPost] (lines 574-605). *)
Definition InsertPost (authorID categoryID : Z) (title description : string)
    : Repo (error + Z) :=
  (tx ←ₑ Begin;
   created ←ᵣ (λ s, (now s, s));
   let id := next_id (Post.id <$> posts tx) in
   tx ←ₑ Exec (set_posts
                 (λ ps, ps ++ [Post.mk id authorID categoryID title description created]))
              tx;
   id ←ₑ Query (λ _, inr id) tx;
   e ←ᵣ Commit tx;
   match e with
   | Some e => repo_ret (inl e)
   | None => repo_ret (inr id)
   end)%repo.

(** [InsertPostImage] (lines 607-630).  The two failure branches after
    [Begin] return [err], the (nil) error of [Begin], not the local [error]. *)
Definition InsertPostImage (postID : Z) (path : string) : Repo (option error) :=
  (tx ←ᵣ Begin;
   match tx with
   | inl err => repo_ret (Some err)
   | inr tx =>
       let err : option error := None in
       r ←ᵣ Exec (set_post_images
                    (λ imgs,
                       imgs ++ [PostImage.mk (next_id (PostImage.id <$> imgs)) postID path]))
                 tx;
       match r with
       | inl _ => repo_ret err
       | inr tx =>
           e ←ᵣ Commit tx;
           match e with
           | Some _ => repo_ret err
           | None => repo_ret None
           end
       end
   end)%repo.

Section PostQueries.
Context `{Environment}.

(** The innermost subquery [p]: posts with their comment counts.  The bare
    columns [p.*] of a group are read from the row [bare_row_of_post]
    names. *)
Definition posts_with_comment_count (d : Database) : list (Post.t * Z) :=
  select_group_by (λ r, Post.id r.1) bare_row_of_post
    (λ g r, (r.1, COUNT (λ r, Comment.id <$> r.2) g))
    (left_join (λ p c, bool_decide (Comment.post_id c = Post.id p))
               (posts d) (comments d)).

(** The [FROM ... JOIN ...] part of the subquery [up]. *)
Definition joined (d : Database) : list JoinedRow :=
  left_join (λ r q, bool_decide (QuestionnaireRow.post_id q = Post.id r.1.1.1.1))
    (left_join (λ r pl, bool_decide (PostLike.post_id pl = Post.id r.1.1.1))
       (left_join (λ r ud, bool_decide (User.id r.2 = UserDetail.user_id ud))
          (inner_join (λ r u, bool_decide (Post.author_id r.1 = User.id u))
             (posts_with_comment_count d) (users d))
          (user_details d))
       (post_likes d))
    (questionnaires d).

Definition clause_holds (c : FilterClause) (p : Post.t) : bool :=
  match c with
  | TitleLike searchTitle => title_like searchTitle (Post.title p)
  | CategoryIs category_id => bool_decide (Post.category_id p = category_id)
  | AuthorIs author_id => bool_decide (Post.author_id p = author_id)
  end.

(** [WHERE q.link IS NULL] followed by the spliced conjuncts. *)
Definition where_feed (filter : list FilterClause) (r : JoinedRow) : bool :=
  bool_decide ((r.2 ≫= QuestionnaireRow.link) = None)
  && forallb (λ c, clause_holds c r.1.1.1.1.1) filter.

(** [SELECT ... GROUP BY p.id] of the subquery [up]: every column but the
    like count is a bare column, read from the row [bare_row_of_joined]
    names. *)
Definition user_posts (filter : list FilterClause) (d : Database) : list UserPost.t :=
  select_group_by (λ r : JoinedRow, Post.id r.1.1.1.1.1) bare_row_of_joined
    (λ g r,
       let '(p, comment_count, u, ud, _, _) := r in
       {| UserPost.id := Post.id p;
          UserPost.author_id := User.id u;
          UserPost.author_name := User.name u;
          UserPost.author_role := User.role u;
          UserPost.author_avatar := User.avatar u;
          UserPost.author_institution := ud ≫= UserDetail.institute;
          UserPost.author_major := ud ≫= UserDetail.major;
          UserPost.author_batch := ud ≫= UserDetail.batch;
          UserPost.category_id := Post.category_id p;
          UserPost.title := Post.title p;
          UserPost.desc := Post.desc p;
          UserPost.created_at := Post.created_at p;
          UserPost.comment_count := comment_count;
          UserPost.like_count := COUNT (λ r : JoinedRow, PostLike.id <$> r.1.2) g |})
    (List.filter (where_feed filter) (joined d)).

(** The four ordering terms [readPosts] can splice after [ORDER BY]; any
    other text is taken to be a statement the driver rejects. *)
Definition order_term (orderBy : string) : option (UserPost.t → UserPost.t → bool) :=
  if decide (orderBy = "created_at DESC")
  then Some (λ a b, UserPost.created_at b <=? UserPost.created_at a)
  else if decide (orderBy = "created_at")
  then Some (λ a b, UserPost.created_at a <=? UserPost.created_at b)
  else if decide (orderBy = "like_count DESC")
  then Some (λ a b, UserPost.like_count b <=? UserPost.like_count a)
  else if decide (orderBy = "comment_count DESC")
  then Some (λ a b, UserPost.comment_count b <=? UserPost.comment_count a)
  else None.

(** The filtered, sorted post set: the subquery [up] before [LIMIT]. *)
Definition sorted_posts (le : UserPost.t → UserPost.t → bool)
    (filter : list FilterClause) (d : Database) : list UserPost.t :=
  order_by (tie_order (user_posts filter d)) le (user_posts filter d).

(** The page: the subquery [up]. *)
Definition page (limit offset : Z) (le : UserPost.t → UserPost.t → bool)
    (filter : list FilterClause) (d : Database) : list UserPost.t :=
  limit_offset limit offset (sorted_posts le filter d).

Definition is_like (d : Database) (postID userID : Z) : bool :=
  existsb (λ l, bool_decide (PostLike.post_id l = postID)
                && bool_decide (PostLike.user_id l = userID)) (post_likes d).

(** The outer [SELECT ... FROM up LEFT JOIN post_images pi]. *)
Definition feed_rows (authorID : Z) (d : Database) (ups : list UserPost.t)
    : list PostDetail.t :=
  (λ r : UserPost.t * option PostImage.t,
     let (up, pi) := r in
     {| PostDetail.ID := UserPost.id up;
        PostDetail.IsLike := is_like d (UserPost.id up) authorID;
        PostDetail.AuthorID := UserPost.author_id up;
        PostDetail.AuthorName := UserPost.author_name up;
        PostDetail.AuthorRole := UserPost.author_role up;
        PostDetail.AuthorAvatar := NullString.of_option (UserPost.author_avatar up);
        PostDetail.AuthorInstitution := NullString.of_option (UserPost.author_institution up);
        PostDetail.AuthorMajor := NullString.of_option (UserPost.author_major up);
        PostDetail.AuthorBatch := NullInt32.of_option (UserPost.author_batch up);
        PostDetail.CategoryID := UserPost.category_id up;
        PostDetail.Title := UserPost.title up;
        PostDetail.Description := UserPost.desc up;
        PostDetail.CreatedAt := UserPost.created_at up;
        PostDetail.CommentCount := UserPost.comment_count up;
        PostDetail.LikeCount := UserPost.like_count up;
        PostDetail.ImageID := NullInt32.of_option (PostImage.id <$> pi);
        PostDetail.ImagePath := NullString.of_option (PostImage.path <$> pi) |})
  <$> left_join (λ up pi, bool_decide (UserPost.id up = PostImage.post_id pi))
                ups (post_images d).

(** [rows.Scan] into a [PostDetail]: it fails on a batch or an image id
    that [sql.NullInt32] cannot hold. *)
Definition scan_detail (r : PostDetail.t) : error + PostDetail.t :=
  if NullInt32.fits (PostDetail.AuthorBatch r) && NullInt32.fits (PostDetail.ImageID r)
  then inr r
  else inl (ErrOther "sql: Scan error: converting driver.Value type int64 to a int32").

(** Search text that, spliced between [LIKE '%] and [%'], stays the body
    of that string literal and gives a pattern [LIKE] accepts: it holds no
    quote and no NUL byte (where the driver ends the statement text), and
    has at most 49998 bytes (SQLite refuses a pattern of more than
    50000). *)
Definition literal_text (searchTitle : string) : bool :=
  forallb (λ c, negb (Ascii.eqb c "'") && negb (Ascii.eqb c "000"))
          (list_ascii_of_string searchTitle)
  && (Z.of_nat (String.length searchTitle) <=? 49998).

Definition literal_clause (c : FilterClause) : bool :=
  match c with
  | TitleLike searchTitle => literal_text searchTitle
  | CategoryIs _ | AuthorIs _ => true
  end.

(** The statement of [FetchAllPost] (lines 633-686), as [tx.Query] and the
    stepping of its rows evaluate it on the tables of the transaction: the
    rows, each with the outcome of its [Scan], and the tables after it.
    With search text that stays a literal the statement is the one the
    source shows, and it reads only.  With any other search text the
    spliced text makes another statement, of which the source says
    nothing: [spliced_statement]. *)
Definition feed_query (limit offset authorID : Z) (orderBy : string)
    (filter : list FilterClause) (d : Database)
    : error + (list (error + PostDetail.t) * Database) :=
  if forallb literal_clause filter
  then match order_term orderBy with
       | None => inl (ErrOther "no such column")
       | Some le =>
           inr (scan_detail <$> feed_rows authorID d (page limit offset le filter d), d)
       end
  else spliced_statement limit offset authorID orderBy filter d.

(** [FetchAllPost] (lines 632-726). *)
Definition FetchAllPost (limit offset authorID : Z) (orderBy : string)
    (filter : list FilterClause) : Repo (error + list PostDetail.t) :=
  (tx ←ₑ Begin;
   found ←ₑ Query (feed_query limit offset authorID orderBy filter) tx;
   posts ←ₑ scan_rows found.1 [];
   e ←ᵣ Commit found.2;
   match e with
   | Some e => repo_ret (inl e)
   | None => repo_ret (inr posts)
   end)%repo.

(** The statement of [FetchPostByID] (lines 734-756), which takes the two
    ids as parameters; the two counts are not selected and keep their zero
    value. *)
Definition detail_query (postID authorID : Z) (d : Database) : list PostDetail.t :=
  (λ r : Post.t * User.t * option UserDetail.t * option PostImage.t,
     let '(p, u, ud, pi) := r in
     {| PostDetail.ID := Post.id p;
        PostDetail.IsLike := is_like d (Post.id p) authorID;
        PostDetail.AuthorID := User.id u;
        PostDetail.AuthorName := User.name u;
        PostDetail.AuthorRole := User.role u;
        PostDetail.AuthorAvatar := NullString.of_option (User.avatar u);
        PostDetail.AuthorInstitution := NullString.of_option (ud ≫= UserDetail.institute);
        PostDetail.AuthorMajor := NullString.of_option (ud ≫= UserDetail.major);
        PostDetail.AuthorBatch := NullInt32.of_option (ud ≫= UserDetail.batch);
        PostDetail.CategoryID := Post.category_id p;
        PostDetail.Title := Post.title p;
        PostDetail.Description := Post.desc p;
        PostDetail.CreatedAt := Post.created_at p;
        PostDetail.CommentCount := 0;
        PostDetail.LikeCount := 0;
        PostDetail.ImageID := NullInt32.of_option (PostImage.id <$> pi);
        PostDetail.ImagePath := NullString.of_option (PostImage.path <$> pi) |})
  <$> List.filter (λ r, bool_decide (Post.id r.1.1.1 = postID))
        (left_join (λ r pi, bool_decide (Post.id r.1.1 = PostImage.post_id pi))
           (left_join (λ r ud, bool_decide (User.id r.2 = UserDetail.user_id ud))
              (inner_join (λ p u, bool_decide (Post.author_id p = User.id u))
                 (posts d) (users d))
              (user_details d))
           (post_images d)).

(** [FetchPostByID] (lines 728-795). *)
Definition FetchPostByID (postID authorID : Z) : Repo (error + list PostDetail.t) :=
  (tx ←ₑ Begin;
   rows ←ₑ Query (λ d, inr (scan_detail <$> detail_query postID authorID d)) tx;
   posts ←ₑ scan_rows rows [];
   e ←ᵣ Commit tx;
   match e with
   | Some e => repo_ret (inl e)
   | None => repo_ret (inr posts)
   end)%repo.

End PostQueries.

(** [FetchAuthorIDByPostID] (lines 797-826): [QueryRow(...).Scan] yields
    [sql.ErrNoRows] when no post has the id. *)
Definition FetchAuthorIDByPostID (postID : Z) : Repo (error + Z) :=
  (tx ←ₑ Begin;
   r ←ᵣ Query (λ d, match List.filter (λ p, bool_decide (Post.id p = postID)) (posts d) with
                    | [] => inl ErrNoRows
                    | p :: _ => inr (Post.author_id p)
                    end) tx;
   match r with
   | inl err =>
       if decide (err = ErrNoRows) then repo_ret (inl ErrPostNotFound)
       else repo_ret (inl err)
   | inr authorID =>
       e ←ᵣ Commit tx;
       match e with
       | Some e => repo_ret (inl e)
       | None => repo_ret (inr authorID)
       end
   end)%repo.

(** [UpdatePost] (lines 828-852). *)
Definition UpdatePost (postID categoryID : Z) (title description : string)
    : Repo (option error) :=
  (tx ←ᵣ Begin;
   match tx with
   | inl err => repo_ret (Some err)
   | inr tx =>
       r ←ᵣ Exec (set_posts
                    (fmap (λ p, if bool_decide (Post.id p = postID)
                                then Post.mk (Post.id p) (Post.author_id p) categoryID
                                             title description (Post.created_at p)
                                else p)))
                 tx;
       match r with
       | inl err => repo_ret (Some err)
       | inr tx => Commit tx
       end
   end)%repo.

(** [DeletePostByID] (lines 854-882): both statements run in one
    transaction. *)
Definition DeletePostByID (postID : Z) : Repo (option error) :=
  (tx ←ᵣ Begin;
   match tx with
   | inl err => repo_ret (Some err)
   | inr tx =>
       r ←ᵣ Exec (set_posts (List.filter (λ p, negb (bool_decide (Post.id p = postID))))) tx;
       match r with
       | inl err => repo_ret (Some err)
       | inr tx =>
           r ←ᵣ Exec (set_post_images
                        (List.filter (λ i, negb (bool_decide (PostImage.post_id i = postID)))))
                     tx;
           match r with
           | inl err => repo_ret (Some err)
           | inr tx => Commit tx
           end
       end
   end)%repo.

(** ** api: requests, responses and the handler monad *)

Module Questionnaire.
(** [repository.Questionnaire], with the fields the handlers name. *)
Record t := mk {
  ID : Z;
  AuthorId : Z;
  CategoryID : Z;
  Title : string;
  Description : string;
  Link : string;
  Reward : string;
}.
(** [repository.Questionnaire{}]. *)
Definition zero : t := mk 0 0 0 "" "" "" "".
Global Instance eq_dec : EqDecision t.
Proof. solve_decision. Defined.
End Questionnaire.

(** JSON bodies.  [ErrorPostResponse m] is the object with the one key
    [error], which is also what [gin.H{"error": m}] encodes to;
    [SuccessPostResponse m] likewise for the key [message]. *)
Inductive Body : Type :=
| ErrorPostResponse (Message : string)
| ErrorsResponse (Messages : list string)
| SuccessPostResponse (Message : string)
| CreatePostResponse (ID : Z) (Message : string)
| EmptyStrings
| PostsResponse (l : list DetailPostResponse.t)
| PostDetailResponse (d : DetailPostResponse.t)
| QuestionnairesResponse (l : list Questionnaire.t)
| QuestionnaireResponse (q : Questionnaire.t).

Record Response := mkResponse { Status : Z; Payload : Body }.

(** What [getUserIdFromToken] does on a request: it returns an id, or an id
    together with an error, or it panics. *)
Inductive TokenOutcome : Type :=
| Resolved (id : Z)
| Rejected (id : Z) (err : error)
| Panics.

(** Why binding a body failed, as the questionnaire handlers tell apart. *)
Inductive BindError : Type :=
| ValidationErrors (Messages : list string)
| UnmarshalTypeError (Field Type_ : string)
| OtherBindError (Message : string).

(** A request as the handlers see it: path parameters, query parameters,
    the [Authorization] header, the outcome of binding the body, and the
    outcome of the token lookup. *)
Record Request (B : Type) := mkRequest {
  Params : gmap string string;
  QueryParams : gmap string string;
  Authorization : string;
  Bound : BindError + B;
  Token : TokenOutcome;
}.
Arguments mkRequest {B}.
Arguments Params {B}.
Arguments QueryParams {B}.
Arguments Authorization {B}.
Arguments Bound {B}.
Arguments Token {B}.

(** The same request with another outcome of the token lookup. *)
Definition with_token {B} (req : Request B) (token : TokenOutcome) : Request B :=
  mkRequest (Params req) (QueryParams req) (Authorization req) (Bound req) token.

(** [ctx.Param]: the empty string when the parameter is missing. *)
Definition Param {B} (req : Request B) (key : string) : string :=
  default "" (Params req !! key).

(** [ctx.DefaultQuery]. *)
Definition DefaultQuery {B} (req : Request B) (key defaultValue : string) : string :=
  default defaultValue (QueryParams req !! key).

(** The state a handler runs on: the store and the responses written so far
    (oldest first). *)
Record Ctx (S : Type) := mkCtx { store : S; written : list Response }.
Arguments mkCtx {S}.
Arguments store {S}.
Arguments written {S}.

(** How a step of a handler ends: it goes on with a value, it executes
    [return], or it panics. *)
Inductive Flow (A : Type) : Type :=
| Next (a : A)
| Returned
| Panicked.
Arguments Next {A}.
Arguments Returned {A}.
Arguments Panicked {A}.

Definition Handler (S A : Type) : Type := Ctx S → Flow A * Ctx S.

Definition handler_ret {S A} (a : A) : Handler S A := λ c, (Next a, c).

Definition handler_bind {S A B} (h : Handler S A) (k : A → Handler S B) : Handler S B :=
  λ c, match h c with
       | (Next a, c') => k a c'
       | (Returned, c') => (Returned, c')
       | (Panicked, c') => (Panicked, c')
       end.

Declare Scope handler_scope.
Delimit Scope handler_scope with handler.
Notation "x ←ₕ h ; k" := (handler_bind h (λ x, k))
  (at level 20, h at level 100, k at level 200, only parsing) : handler_scope.
Notation "h ;ₕ k" := (handler_bind h (λ _, k))
  (at level 100, k at level 200, right associativity, only parsing) : handler_scope.

(** [return]. *)
Definition Return {S A} : Handler S A := λ c, (Returned, c).

(** [ctx.JSON(code, body)]; [AbortWithStatusJSON] writes the same response
    (it also stops later handlers of the chain, of which there are none). *)
Definition JSON {S} (code : Z) (body : Body) : Handler S unit :=
  λ c, (Next tt, mkCtx (store c) (written c ++ [mkResponse code body])).

Definition AbortWithStatusJSON {S} (code : Z) (body : Body) : Handler S unit :=
  JSON code body.

(** A call into a repository. *)
Definition call {S A} (f : S → A * S) : Handler S A :=
  λ c, let '(a, s) := f (store c) in (Next a, mkCtx s (written c)).

Definition skip {S} : Handler S unit := handler_ret tt.

Definition getUserIdFromToken {S B} (req : Request B) : Handler S (Z * option error) :=
  λ c, match Token req with
       | Resolved id => (Next (id, None), c)
       | Rejected id err => (Next (id, Some err), c)
       | Panics => (Panicked, c)
       end.

(** [getUserIDAvoidPanic] (lines 519-528): the error is dropped, and after a
    recovered panic the named result still holds its zero value. *)
Definition getUserIDAvoidPanic {S B} (req : Request B) : Handler S Z :=
  λ c, match getUserIdFromToken req c with
       | (Next (authorID, _), c') => (Next authorID, c')
       | (_, c') => (Next 0, c')
       end.

(** ** api/post.go: the handlers *)

Module CreatePostRequest.
Record t := mk { CategoryID : Z; Title : string; Description : string }.
End CreatePostRequest.

Module UpdatePostRequest.
Record t := mk { ID : Z; CategoryID : Z; Title : string; Description : string }.
End UpdatePostRequest.

(** Modelled from the spec: [commentRepo.CountComment] is not among the
    source files; the specification describes the comment count as the
    count of comments whose post id matches. *)
Definition CountComment (postID : Z) : Repo (error + Z) :=
  λ s, Query (λ d, inr (Z.of_nat (length (List.filter
                  (λ c, bool_decide (Comment.post_id c = postID)) (comments d)))))
             (tables s) s.

(** Modelled from the spec: [likeRepo.CountPostLike] is not among the source
    files; the specification describes the like count as the count of
    distinct likers. *)
Definition CountPostLike (postID : Z) : Repo (error + Z) :=
  λ s, Query (λ d, inr (Z.of_nat (length (remove_dups (PostLike.user_id <$> List.filter
                  (λ l, bool_decide (PostLike.post_id l = postID)) (post_likes d))))))
             (tables s) s.

Section PostHandlers.
Context `{Environment}.

(** [createPost] (lines 81-116). *)
Definition createPost (ctx : Request CreatePostRequest.t) : Handler Store unit :=
  match Bound ctx with
  | inl _ =>
      (JSON http.StatusBadRequest (ErrorPostResponse "Invalid Request Body") ;ₕ Return)%handler
  | inr req =>
      let isTitleOK := Validate (CreatePostRequest.Title req) in
      let isDescriptionOK := Validate (CreatePostRequest.Description req) in
      if negb isTitleOK || negb isDescriptionOK
      then (JSON http.StatusBadRequest (ErrorPostResponse "Your post contains bad words") ;ₕ
            Return)%handler
      else
        (r ←ₕ getUserIdFromToken ctx;
         let authorID := r.1 in
         match r.2 with
         | Some _ => JSON http.StatusBadRequest (ErrorPostResponse "Your ID cann't read")
         | None => skip
         end ;ₕ
         r ←ₕ call (InsertPost authorID (CreatePostRequest.CategoryID req)
                      (CreatePostRequest.Title req) (CreatePostRequest.Description req));
         match r with
         | inl _ =>
             JSON http.StatusInternalServerError (ErrorPostResponse "Internal Server Error") ;ₕ
             Return
         | inr postID =>
             JSON http.StatusOK (CreatePostResponse postID "Post Created")
         end)%handler
  end.

(** The [switch sortBy] of [readPosts] (lines 214-226); [None] is the
    [default] branch. *)
Definition post_sort_by (sortBy : string) : option string :=
  if decide (sortBy = "newest") then Some "created_at DESC"
  else if decide (sortBy = "oldest") then Some "created_at"
  else if decide (sortBy = "most_liked") then Some "like_count DESC"
  else if decide (sortBy = "most_commented") then Some "comment_count DESC"
  else None.

(** The filter text of [readPosts] (lines 228-252). *)
Definition post_filter (searchTitle : string) (category_id : Z) (me : bool)
    (authorID : Z) : list FilterClause :=
  let filterQuery := if decide (searchTitle ≠ "") then [TitleLike searchTitle] else [] in
  let filterQuery :=
    if decide (category_id ≠ 0) then filterQuery ++ [CategoryIs category_id]
    else filterQuery in
  if me then filterQuery ++ [AuthorIs authorID] else filterQuery.

(** [readPosts] from the call of [FetchAllPost] on (lines 254-344). *)
Definition list_posts (limit offset authorID : Z) (sortBy : string)
    (filterQuery : list FilterClause) : Handler Store unit :=
  (r ←ₕ call (FetchAllPost limit offset authorID sortBy filterQuery);
   match r with
   | inl _ =>
       JSON http.StatusInternalServerError (ErrorPostResponse "Internal Server Error") ;ₕ
       Return
   | inr posts =>
       if decide (length posts = 0%nat)
       then JSON http.StatusOK EmptyStrings ;ₕ Return
       else JSON http.StatusOK (PostsResponse (assemble authorID posts))
   end)%handler.

(** [readPosts] (lines 198-345). *)
Definition readPosts (ctx : Request unit) : Handler Store unit :=
  (authorID ←ₕ getUserIDAvoidPanic ctx;
   match strconv.Atoi (DefaultQuery ctx "offset" "0") with
   | None => JSON http.StatusBadRequest (ErrorPostResponse "Invalid Offset") ;ₕ Return
   | Some offset =>
   match strconv.Atoi (DefaultQuery ctx "limit" "20") with
   | None => JSON http.StatusBadRequest (ErrorPostResponse "Invalid Limit") ;ₕ Return
   | Some limit =>
   match post_sort_by (DefaultQuery ctx "sort_by" "newest") with
   | None => JSON http.StatusBadRequest (ErrorPostResponse "Invalid Sort By") ;ₕ Return
   | Some sortBy =>
   let searchTitle := DefaultQuery ctx "search_title" "" in
   match strconv.Atoi (DefaultQuery ctx "category_id" "0") with
   | None =>
       JSON http.StatusBadRequest (ErrorPostResponse "Invalid Filter By Category ID") ;ₕ
       Return
   | Some category_id =>
   match strconv.ParseBool (DefaultQuery ctx "me" "false") with
   | None => JSON http.StatusBadRequest (ErrorPostResponse "Invalid Filter By Me") ;ₕ Return
   | Some me =>
       list_posts limit offset authorID sortBy
                  (post_filter searchTitle category_id me authorID)
   end end end end end)%handler.

(** [readPost] (lines 347-442). *)
Definition readPost (ctx : Request unit) : Handler Store unit :=
  (authorID ←ₕ getUserIDAvoidPanic ctx;
   match strconv.Atoi (Param ctx "id") with
   | None => JSON http.StatusBadRequest (ErrorPostResponse "Invalid Post ID") ;ₕ Return
   | Some postID =>
   r ←ₕ call (FetchPostByID postID authorID);
   match r with
   | inl _ =>
       JSON http.StatusInternalServerError (ErrorPostResponse "Internal Server Error") ;ₕ
       Return
   | inr [] =>
       JSON http.StatusNotFound (ErrorPostResponse "Post Not Found") ;ₕ Return
   | inr ((post0 :: _) as posts) =>
   r ←ₕ call (CountComment postID);
   match r with
   | inl _ =>
       JSON http.StatusInternalServerError (ErrorPostResponse "Internal Server Error") ;ₕ
       Return
   | inr commentCount =>
   r ←ₕ call (CountPostLike postID);
   match r with
   | inl _ =>
       JSON http.StatusInternalServerError (ErrorPostResponse "Internal Server Error") ;ₕ
       Return
   | inr likeCount =>
       let images :=
         if NullInt32.Valid (PostDetail.ImageID post0)
         then foldl (λ images post, append images (image_response post)) (Make []) posts
         else Make [] in
       JSON http.StatusOK (PostDetailResponse
         {| DetailPostResponse.Post :=
              {| PostResponse.ID := PostDetail.ID post0;
                 PostResponse.IsLike := PostDetail.IsLike post0;
                 PostResponse.IsAuthor := bool_decide (PostDetail.AuthorID post0 = authorID);
                 PostResponse.Author :=
                   {| AuthorPostResponse.ID := PostDetail.AuthorID post0;
                      AuthorPostResponse.Name := PostDetail.AuthorName post0;
                      AuthorPostResponse.Role := PostDetail.AuthorRole post0;
                      AuthorPostResponse.Major := string_or_zero (PostDetail.AuthorMajor post0);
                      AuthorPostResponse.Institute :=
                        string_or_zero (PostDetail.AuthorInstitution post0);
                      AuthorPostResponse.Batch := int_or_zero (PostDetail.AuthorBatch post0);
                      AuthorPostResponse.ProfileImage :=
                        string_or_zero (PostDetail.AuthorAvatar post0) |};
                 PostResponse.CategoryID := PostDetail.CategoryID post0;
                 PostResponse.Title := PostDetail.Title post0;
                 PostResponse.Description := PostDetail.Description post0;
                 PostResponse.CreatedAt := Format (PostDetail.CreatedAt post0);
                 PostResponse.CommentCount := commentCount;
                 PostResponse.LikeCount := likeCount |};
            DetailPostResponse.Images := images |})
   end end end end)%handler.

(** The ownership check that [updatePost] and [deletePost] both spell out
    (lines 459-469 and 499-509). *)
Definition check_post_owner (postID reqAuthorID : Z) : Handler Store unit :=
  (r ←ₕ call (FetchAuthorIDByPostID postID);
   match r with
   | inl err =>
       if decide (err = ErrPostNotFound)
       then JSON http.StatusNotFound (ErrorPostResponse "Post Not Found") ;ₕ Return
       else JSON http.StatusInternalServerError (ErrorPostResponse "Internal Server Error") ;ₕ
            Return
   | inr authorID =>
       if decide (authorID ≠ reqAuthorID)
       then JSON http.StatusForbidden (ErrorPostResponse "Forbidden") ;ₕ Return
       else skip
   end)%handler.

(** [updatePost] (lines 444-485). *)
Definition updatePost (ctx : Request UpdatePostRequest.t) : Handler Store unit :=
  match Bound ctx with
  | inl _ =>
      (JSON http.StatusBadRequest (ErrorPostResponse "Invalid Request Body") ;ₕ Return)%handler
  | inr req =>
      (r ←ₕ getUserIdFromToken ctx;
       let reqAuthorID := r.1 in
       match r.2 with
       | Some _ => JSON http.StatusBadRequest (ErrorPostResponse "Your ID cann't read")
       | None => skip
       end ;ₕ
       check_post_owner (UpdatePostRequest.ID req) reqAuthorID ;ₕ
       let isTitleOK := Validate (UpdatePostRequest.Title req) in
       let isDescriptionOK := Validate (UpdatePostRequest.Description req) in
       if negb isTitleOK || negb isDescriptionOK
       then JSON http.StatusBadRequest (ErrorPostResponse "Your post contains bad words") ;ₕ
            Return
       else
         e ←ₕ call (UpdatePost (UpdatePostRequest.ID req) (UpdatePostRequest.CategoryID req)
                      (UpdatePostRequest.Title req) (UpdatePostRequest.Description req));
         match e with
         | Some _ =>
             JSON http.StatusInternalServerError (ErrorPostResponse "Internal Server Error") ;ₕ
             Return
         | None => JSON http.StatusOK (SuccessPostResponse "Post Updated")
         end)%handler
  end.

(** [deletePost] (lines 487-517). *)
Definition deletePost (ctx : Request unit) : Handler Store unit :=
  match strconv.Atoi (Param ctx "id") with
  | None =>
      (JSON http.StatusBadRequest (ErrorPostResponse "Invalid Post ID") ;ₕ Return)%handler
  | Some postID =>
      (r ←ₕ getUserIdFromToken ctx;
       let reqAuthorID := r.1 in
       match r.2 with
       | Some _ => JSON http.StatusBadRequest (ErrorPostResponse "Your ID cann't read")
       | None => skip
       end ;ₕ
       check_post_owner postID reqAuthorID ;ₕ
       e ←ₕ call (DeletePostByID postID);
       match e with
       | Some _ =>
           JSON http.StatusInternalServerError (ErrorPostResponse "Internal Server Error") ;ₕ
           Return
       | None => JSON http.StatusOK (SuccessPostResponse "Post Deleted")
       end)%handler
  end.

End PostHandlers.

(** ** The questionnaire handlers *)

(** The methods of [api.questionnaireRepo] that the handlers call, over a
    store [S] of its own. *)
Module questionnaireRepo.
Class t (S : Type) := {
  ReadAllQuestionnaires :
    Z → list FilterClause → string → S → (list Questionnaire.t * option error) * S;
  ReadAllQuestionnaireByID : Z → Z → S → (Questionnaire.t * option error) * S;
  InsertQuestionnaire : Questionnaire.t → S → option error * S;
  UpdateQuestionnaire : Questionnaire.t → S → option error * S;
  DeleteQuestionnaire : Z → S → option error * S;
}.
End questionnaireRepo.

Module CreateQuestionnaireRequest.
Record t := mk {
  CategoryID : Z; Title : string; Description : string; Link : string; Reward : string;
}.
End CreateQuestionnaireRequest.

Module UpdateQuestionnaireRequest.
Record t := mk {
  ID : Z; CategoryID : Z; Title : string; Description : string;
  Link : string; Reward : string;
}.
End UpdateQuestionnaireRequest.

Section QuestionnaireHandlers.
Context `{Environment} {S : Type} {repo : questionnaireRepo.t S}.

(** The [switch sortBy] of [ReadAllQuestionnaires] (lines 36-48). *)
Definition questionnaire_sort_by (sortBy : string) : option string :=
  if decide (sortBy = "newest") then Some "created_at DESC"
  else if decide (sortBy = "oldest") then Some "created_at"
  else if decide (sortBy = "most_liked") then Some "total_like DESC"
  else if decide (sortBy = "most_commented") then Some "total_comment DESC"
  else None.

(** The optional identity of the two read handlers (lines 70-77 and
    113-120): [-1] unless the [Authorization] header is set. *)
Definition optional_user {B} (c : Request B) : Handler S Z :=
  let userID := -1 in
  if decide (Authorization c ≠ "")
  then (r ←ₕ getUserIdFromToken c;
        match r.2 with
        | Some err =>
            AbortWithStatusJSON http.StatusBadRequest (ErrorPostResponse (Error err)) ;ₕ
            Return
        | None => handler_ret r.1
        end)%handler
  else handler_ret userID.

(** [ReadAllQuestionnaires] (lines 34-101). *)
Definition ReadAllQuestionnaires (c : Request unit) : Handler S unit :=
  match questionnaire_sort_by (DefaultQuery c "sort_by" "newest") with
  | None =>
      (AbortWithStatusJSON http.StatusBadRequest (ErrorPostResponse "Invalid Sort By") ;ₕ
       Return)%handler
  | Some sortBy =>
  let searchTitle := DefaultQuery c "search_title" "" in
  let filterQuery := [TitleLike searchTitle] in
  match strconv.Atoi (DefaultQuery c "category_id" "0") with
  | None =>
      (AbortWithStatusJSON http.StatusBadRequest
         (ErrorPostResponse "Invalid Filter By Category ID") ;ₕ Return)%handler
  | Some categoryId =>
  let filterQuery :=
    if decide (categoryId ≠ 0) then filterQuery ++ [CategoryIs categoryId]
    else filterQuery in
  match strconv.ParseBool (DefaultQuery c "me" "false") with
  | None =>
      (AbortWithStatusJSON http.StatusBadRequest
         (ErrorPostResponse "Invalid Filter By Me") ;ₕ Return)%handler
  | Some me =>
      (userID ←ₕ optional_user c;
       filterQuery ←ₕ
         (if me
          then if decide (userID ≠ -1)
               then handler_ret (filterQuery ++ [AuthorIs userID])
               else AbortWithStatusJSON http.StatusBadRequest
                      (ErrorPostResponse "invalid token") ;ₕ Return
          else handler_ret filterQuery);
       r ←ₕ call (questionnaireRepo.ReadAllQuestionnaires userID filterQuery sortBy);
       match r.2 with
       | Some err =>
           AbortWithStatusJSON http.StatusInternalServerError
             (ErrorPostResponse (Error err)) ;ₕ Return
       | None => JSON http.StatusOK (QuestionnairesResponse r.1)
       end)%handler
  end end end.

(** [ReadAllQuestionnaireByID] (lines 103-142). *)
Definition ReadAllQuestionnaireByID (c : Request unit) : Handler S unit :=
  match strconv.Atoi (Param c "id") with
  | None =>
      (AbortWithStatusJSON http.StatusBadRequest (ErrorPostResponse "id should be a int") ;ₕ
       Return)%handler
  | Some postID =>
      (userID ←ₕ optional_user c;
       r ←ₕ call (questionnaireRepo.ReadAllQuestionnaireByID userID postID);
       match r.2 with
       | Some err =>
           AbortWithStatusJSON http.StatusInternalServerError
             (ErrorPostResponse (Error err)) ;ₕ Return
       | None =>
           if decide (r.1 = Questionnaire.zero)
           then AbortWithStatusJSON http.StatusBadRequest
                  (ErrorPostResponse "No data with given id") ;ₕ Return
           else JSON http.StatusOK (QuestionnaireResponse r.1)
       end)%handler
  end.

(** The answer to a body that does not bind (lines 147-166 and 211-230). *)
Definition bind_failure (err : BindError) : Handler S unit :=
  match err with
  | ValidationErrors messages =>
      AbortWithStatusJSON http.StatusBadRequest (ErrorsResponse messages)
  | UnmarshalTypeError field type =>
      AbortWithStatusJSON http.StatusBadRequest
        (ErrorPostResponse (field +:+ " should be a " +:+ type))
  | OtherBindError message =>
      AbortWithStatusJSON http.StatusBadRequest (ErrorPostResponse message)
  end.

(** The required identity of the three writing handlers (lines 176-180,
    240-244 and 302-306). *)
Definition required_user {B} (c : Request B) : Handler S Z :=
  (r ←ₕ getUserIdFromToken c;
   match r.2 with
   | Some err => JSON http.StatusBadRequest (ErrorPostResponse (Error err)) ;ₕ Return
   | None => handler_ret r.1
   end)%handler.

(** The ownership check of [UpdateQuestionnaire] and [DeleteQuestionnaire]
    (lines 246-266 and 308-328). *)
Definition check_questionnaire_owner (userID postID : Z) : Handler S unit :=
  (r ←ₕ call (questionnaireRepo.ReadAllQuestionnaireByID userID postID);
   match r.2 with
   | Some err =>
       AbortWithStatusJSON http.StatusInternalServerError
         (ErrorPostResponse (Error err)) ;ₕ Return
   | None =>
       if decide (r.1 = Questionnaire.zero)
       then AbortWithStatusJSON http.StatusBadRequest
              (ErrorPostResponse "No data with given id") ;ₕ Return
       else if decide (Questionnaire.AuthorId r.1 ≠ userID)
       then AbortWithStatusJSON http.StatusForbidden
              (ErrorPostResponse "You are not the owner") ;ₕ Return
       else skip
   end)%handler.

(** [CreateQuestionnaire] (lines 144-206). *)
Definition CreateQuestionnaire (c : Request CreateQuestionnaireRequest.t)
    : Handler S unit :=
  match Bound c with
  | inl err => (bind_failure err ;ₕ Return)%handler
  | inr req =>
      let isTitleOK := Validate (CreateQuestionnaireRequest.Title req) in
      let isDescriptionOK := Validate (CreateQuestionnaireRequest.Description req) in
      if negb isTitleOK || negb isDescriptionOK
      then (AbortWithStatusJSON http.StatusBadRequest
              (ErrorPostResponse "Your post contains bad words") ;ₕ Return)%handler
      else
        (userID ←ₕ required_user c;
         e ←ₕ call (questionnaireRepo.InsertQuestionnaire
                      {| Questionnaire.ID := 0;
                         Questionnaire.AuthorId := userID;
                         Questionnaire.CategoryID := CreateQuestionnaireRequest.CategoryID req;
                         Questionnaire.Title := CreateQuestionnaireRequest.Title req;
                         Questionnaire.Description := CreateQuestionnaireRequest.Description req;
                         Questionnaire.Link := CreateQuestionnaireRequest.Link req;
                         Questionnaire.Reward := CreateQuestionnaireRequest.Reward req |});
         match e with
         | Some err =>
             AbortWithStatusJSON http.StatusInternalServerError
               (ErrorPostResponse (Error err)) ;ₕ Return
         | None => JSON http.StatusOK (SuccessPostResponse "Add Questionnaire Successful")
         end)%handler
  end.

(** [UpdateQuestionnaire] (lines 208-290). *)
Definition UpdateQuestionnaire (c : Request UpdateQuestionnaireRequest.t)
    : Handler S unit :=
  match Bound c with
  | inl err => (bind_failure err ;ₕ Return)%handler
  | inr req =>
      let isTitleOK := Validate (UpdateQuestionnaireRequest.Title req) in
      let isDescriptionOK := Validate (UpdateQuestionnaireRequest.Description req) in
      if negb isTitleOK || negb isDescriptionOK
      then (AbortWithStatusJSON http.StatusBadRequest
              (ErrorPostResponse "Your post contains bad words") ;ₕ Return)%handler
      else
        (userID ←ₕ required_user c;
         check_questionnaire_owner userID (UpdateQuestionnaireRequest.ID req) ;ₕ
         e ←ₕ call (questionnaireRepo.UpdateQuestionnaire
                      {| Questionnaire.ID := UpdateQuestionnaireRequest.ID req;
                         Questionnaire.AuthorId := 0;
                         Questionnaire.CategoryID := UpdateQuestionnaireRequest.CategoryID req;
                         Questionnaire.Title := UpdateQuestionnaireRequest.Title req;
                         Questionnaire.Description := UpdateQuestionnaireRequest.Description req;
                         Questionnaire.Link := UpdateQuestionnaireRequest.Link req;
                         Questionnaire.Reward := UpdateQuestionnaireRequest.Reward req |});
         match e with
         | Some err =>
             AbortWithStatusJSON http.StatusInternalServerError
               (ErrorPostResponse (Error err)) ;ₕ Return
         | None => JSON http.StatusOK (SuccessPostResponse "Update Questionnaire Successful")
         end)%handler
  end.

(** [DeleteQuestionnaire] (lines 292-343). *)
Definition DeleteQuestionnaire (c : Request unit) : Handler S unit :=
  match strconv.Atoi (Param c "id") with
  | None =>
      (AbortWithStatusJSON http.StatusBadRequest (ErrorPostResponse "id should be a int") ;ₕ
       Return)%handler
  | Some postID =>
      (userID ←ₕ required_user c;
       check_questionnaire_owner userID postID ;ₕ
       e ←ₕ call (questionnaireRepo.DeleteQuestionnaire postID);
       match e with
       | Some err =>
           AbortWithStatusJSON http.StatusInternalServerError
             (ErrorPostResponse (Error err)) ;ₕ Return
       | None => JSON http.StatusOK (SuccessPostResponse "Delete Questionnaire Successful")
       end)%handler
  end.

End QuestionnaireHandlers.

(** ** api/post.go: [uploadPostImages], one goroutine per file *)

Module Upload.
(** A file of the form and what the file system does with it: the clock
    reading of line 167 and the outcomes of [file.Open], [os.OpenFile] and
    [io.Copy]. *)
Record t := mk {
  Filename : string;
  unixTime : Z;
  open_err : option error;
  create_err : option error;
  copy_err : option error;
}.
End Upload.

(** [%d] of [fmt.Sprintf]. *)
Definition decimal (n : Z) : string := NilZero.string_of_int (Z.to_int n).

(** [strings.ReplaceAll(s, " ", "")]. *)
Fixpoint remove_spaces (s : string) : string :=
  match s with
  | EmptyString => EmptyString
  | String c s' => if Ascii.eqb c " " then remove_spaces s' else String c (remove_spaces s')
  end.

(** Lines 168-169; [filepath.Join] is taken on names it leaves as they are
    (no separators or dot segments in the file name). *)
Definition fileLocation (postID : Z) (file : Upload.t) : string :=
  let fileName :=
    decimal postID +:+ "-" +:+ decimal (Upload.unixTime file) +:+ "-"
    +:+ remove_spaces (Upload.Filename file) in
  "media/post" +:+ "/" +:+ fileName.

(** Where a goroutine stands: before each of its calls, or finished. *)
Inductive Pc : Type :=
| AtOpen
| AtCreate
| AtCopy
| AtLock
| AtInsert
| AtUnlock
| Finished.

Global Instance Pc_eq_dec : EqDecision Pc.
Proof. solve_decision. Defined.

(** The state shared by the goroutines of one request: the context, the
    mutex [mu] ([true]: locked), and the goroutines with their files. *)
Record Uploading := mkUploading {
  shared : Ctx Store;
  mu : bool;
  goroutines : list (Upload.t * Pc);
}.

Definition respond (c : Ctx Store) (code : Z) (body : Body) : Ctx Store :=
  (JSON code body c).2.

(** One step of the goroutine body (lines 148-190) for [file] at [pc];
    [None] when it cannot move: it waits for the mutex, or it has finished.
    The branch after a failed [InsertPostImage] returns with [mu] held. *)
Definition goroutine_step (postID : Z) (file : Upload.t) (pc : Pc)
    (c : Ctx Store) (mu : bool) : option (Pc * Ctx Store * bool) :=
  match pc with
  | AtOpen =>
      match Upload.open_err file with
      | Some err =>
          Some (Finished,
                respond c http.StatusInternalServerError (ErrorPostResponse (Error err)), mu)
      | None => Some (AtCreate, c, mu)
      end
  | AtCreate =>
      match Upload.create_err file with
      | Some err =>
          Some (Finished,
                respond c http.StatusInternalServerError (ErrorPostResponse (Error err)), mu)
      | None => Some (AtCopy, c, mu)
      end
  | AtCopy =>
      match Upload.copy_err file with
      | Some err =>
          Some (Finished,
                respond c http.StatusInternalServerError (ErrorPostResponse (Error err)), mu)
      | None => Some (AtLock, c, mu)
      end
  | AtLock => if mu then None else Some (AtInsert, c, true)
  | AtInsert =>
      let '(e, s) := InsertPostImage postID (fileLocation postID file) (store c) in
      let c := mkCtx s (written c) in
      match e with
      | Some err =>
          Some (Finished,
                respond c http.StatusInternalServerError (ErrorPostResponse (Error err)), mu)
      | None => Some (AtUnlock, c, mu)
      end
  | AtUnlock => Some (Finished, c, false)
  | Finished => None
  end.

(** The scheduler lets goroutine [i] take a step. *)
Definition step_at (postID : Z) (i : nat) (st : Uploading) : option Uploading :=
  match goroutines st !! i with
  | Some (file, pc) =>
      match goroutine_step postID file pc (shared st) (mu st) with
      | Some (pc', c, m) => Some (mkUploading c m (<[i := (file, pc')]> (goroutines st)))
      | None => None
      end
  | None => None
  end.

Inductive step (postID : Z) (st st' : Uploading) : Prop :=
| step_goroutine (i : nat) : step_at postID i st = Some st' → step postID st st'.

(** A run under a schedule; a goroutine that cannot move when chosen is
    passed over. *)
Definition run (postID : Z) (schedule : list nat) (st : Uploading) : Uploading :=
  foldl (λ st i, default st (step_at postID i st)) st schedule.

(** [uploadPostImages] up to the loop (lines 118-142): the post id, the
    form and the folder.  [form] is the outcome of [ctx.MultipartForm] with
    the files under the key [images], [mkdir_err] that of [os.MkdirAll]. *)
Definition uploadPostImages_begin (ctx : Request unit) (form : error + list Upload.t)
    (mkdir_err : option error) : Handler Store (Z * list Upload.t) :=
  match strconv.Atoi (Param ctx "id") with
  | None =>
      (JSON http.StatusBadRequest (ErrorPostResponse "Invalid Post ID") ;ₕ Return)%handler
  | Some postID =>
      match form with
      | inl err =>
          (JSON http.StatusBadRequest (ErrorPostResponse (Error err)) ;ₕ Return)%handler
      | inr files =>
          match mkdir_err with
          | Some err =>
              (JSON http.StatusInternalServerError (ErrorPostResponse (Error err)) ;ₕ
               Return)%handler
          | None => handler_ret (postID, files)
          end
      end
  end.

(** The state after the loop has started every goroutine (lines 145-191). *)
Definition spawned (files : list Upload.t) (c : Ctx Store) : Uploading :=
  mkUploading c false ((λ file, (file, AtOpen)) <$> files).

(** [wg.Wait] returns once every goroutine has finished (line 193). *)
Definition all_finished (st : Uploading) : Prop :=
  Forall (λ g, g.2 = Finished) (goroutines st).

Global Instance all_finished_dec st : Decision (all_finished st).
Proof. unfold all_finished. apply _. Defined.

(** [uploadPostImages] after the loop (lines 193-195): once [wg.Wait]
    returns the handler writes its response; [None] while it waits. *)
Definition uploadPostImages_end (st : Uploading) : option (Ctx Store) :=
  if decide (all_finished st)
  then Some (respond (shared st) http.StatusOK (SuccessPostResponse "Post Images Uploaded"))
  else None.

(** A state in which no goroutine can move. *)
Definition stuck (postID : Z) (st : Uploading) : Prop :=
  ∀ i, step_at postID i st = None.

(** The image records of a post. *)
Definition images_of_post (postID : Z) (d : Database) : list PostImage.t :=
  filter (λ i, PostImage.post_id i = postID) (post_images d).

(** A goroutine that is not between [mu.Lock] and [mu.Unlock]. *)
Definition outside_lock (pc : Pc) : Prop := pc ≠ AtInsert ∧ pc ≠ AtUnlock.

(** What holds of every state of an upload whose first [InsertPostImage]
    fails at [Begin] with [e]: the tables are still [d], and either nobody
    holds the mutex and the failure is still to come, or one goroutine is
    about to insert, or the failure has happened and the mutex stays
    locked with nobody left to unlock it. *)
Definition lock_leak_inv (d : Database) (e : error) (st : Uploading) : Prop :=
  tables (store (shared st)) = d
  ∧ ((mu st = false ∧ failures (store (shared st)) = [Some e]
      ∧ Forall (λ g, outside_lock g.2) (goroutines st))
     ∨ (mu st = true ∧ failures (store (shared st)) = [Some e]
        ∧ ∃ i file, goroutines st !! i = Some (file, AtInsert)
                    ∧ ∀ j g, j ≠ i → goroutines st !! j = Some g → outside_lock g.2)
     ∨ (mu st = true ∧ failures (store (shared st)) = []
        ∧ Forall (λ g, outside_lock g.2) (goroutines st))).

(** Two files that the file system accepts. *)
Definition two_files : list Upload.t :=
  [Upload.mk "a.png" 1 None None None; Upload.mk "b.png" 2 None None None].

(** The invariant of the schema: an image references an existing post. *)
Definition images_reference_posts (d : Database) : Prop :=
  ∀ i, i ∈ post_images d → ∃ p, p ∈ posts d ∧ Post.id p = PostImage.post_id i.

(** ** What a list response holds, read off the tables *)

Section ListResponse.
Context `{Environment}.

(** A filter conjunct, read on a returned row. *)
Definition clause_holds_row (c : FilterClause) (r : PostDetail.t) : bool :=
  match c with
  | TitleLike searchTitle => title_like searchTitle (PostDetail.Title r)
  | CategoryIs category_id => bool_decide (PostDetail.CategoryID r = category_id)
  | AuthorIs author_id => bool_decide (PostDetail.AuthorID r = author_id)
  end.

Definition image_record_response (i : PostImage.t) : PostImageResponse.t :=
  {| PostImageResponse.ID := PostImage.id i; PostImageResponse.URL := PostImage.path i |}.

(** The entry of the list response for a row of the page, as seen by
    [authorID]: the columns of the row and the image records of its post. *)
Definition page_entry (authorID : Z) (d : Database) (up : UserPost.t)
    : DetailPostResponse.t :=
  {| DetailPostResponse.Post :=
       {| PostResponse.ID := UserPost.id up;
          PostResponse.IsLike := is_like d (UserPost.id up) authorID;
          PostResponse.IsAuthor := bool_decide (authorID = UserPost.author_id up);
          PostResponse.Author :=
            {| AuthorPostResponse.ID := UserPost.author_id up;
               AuthorPostResponse.Name := UserPost.author_name up;
               AuthorPostResponse.Role := UserPost.author_role up;
               AuthorPostResponse.Institute := default "" (UserPost.author_institution up);
               AuthorPostResponse.Major := default "" (UserPost.author_major up);
               AuthorPostResponse.Batch := default 0 (UserPost.author_batch up);
               AuthorPostResponse.ProfileImage := default "" (UserPost.author_avatar up) |};
          PostResponse.CategoryID := UserPost.category_id up;
          PostResponse.Title := UserPost.title up;
          PostResponse.Description := UserPost.desc up;
          PostResponse.CreatedAt := Format (UserPost.created_at up);
          PostResponse.CommentCount := UserPost.comment_count up;
          PostResponse.LikeCount := UserPost.like_count up |};
     DetailPostResponse.Images :=
       Make (image_record_response <$> images_of_post (UserPost.id up) d) |}.

(** The identity [readPosts] works with. *)
Definition viewer_of (token : TokenOutcome) : Z :=
  match token with Resolved id | Rejected id _ => id | Panics => 0 end.

End ListResponse.

(** The detail response for post [p] by user [u] with profile [ud], as seen
    by [authorID]: the columns of the three rows, the two counts, and the
    image records of the post. *)
Definition detail_entry `{Environment} (authorID : Z) (d : Database)
    (p : Post.t) (u : User.t) (ud : option UserDetail.t) : DetailPostResponse.t :=
  {| DetailPostResponse.Post :=
       {| PostResponse.ID := Post.id p;
          PostResponse.IsLike := is_like d (Post.id p) authorID;
          PostResponse.IsAuthor := bool_decide (User.id u = authorID);
          PostResponse.Author :=
            {| AuthorPostResponse.ID := User.id u;
               AuthorPostResponse.Name := User.name u;
               AuthorPostResponse.Role := User.role u;
               AuthorPostResponse.Institute := default "" (ud ≫= UserDetail.institute);
               AuthorPostResponse.Major := default "" (ud ≫= UserDetail.major);
               AuthorPostResponse.Batch := default 0 (ud ≫= UserDetail.batch);
               AuthorPostResponse.ProfileImage := default "" (User.avatar u) |};
          PostResponse.CategoryID := Post.category_id p;
          PostResponse.Title := Post.title p;
          PostResponse.Description := Post.desc p;
          PostResponse.CreatedAt := Format (Post.created_at p);
          PostResponse.CommentCount :=
            Z.of_nat (length (filter (λ c, Comment.post_id c = Post.id p) (comments d)));
          PostResponse.LikeCount :=
            Z.of_nat (length (remove_dups
              (PostLike.user_id <$> filter (λ l, PostLike.post_id l = Post.id p)
                                           (post_likes d)))) |};
     DetailPostResponse.Images :=
       Make (image_record_response <$> images_of_post (Post.id p) d) |}.

(** Every stored post has a title and a description that the word filter
    accepts. *)
Definition moderated `{Environment} (d : Database) : Prop :=
  Forall (λ p, Validate (Post.title p) = true ∧ Validate (Post.desc p) = true) (posts d).

(** The outcome of a handler that did not panic and wrote exactly one
    response on top of those of [x]. *)
Definition one_answer {S} (x : Ctx S) (res : Flow unit * Ctx S) : Prop :=
  res.1 ≠ Panicked ∧ ∃ r, written res.2 = written x ++ [r].

(** ** An upload on a store that works *)

(** The first of the three file-system calls of a goroutine that fails. *)
Definition file_error (file : Upload.t) : option error :=
  match Upload.open_err file with
  | Some err => Some err
  | None =>
      match Upload.create_err file with
      | Some err => Some err
      | None => Upload.copy_err file
      end
  end.

(** A goroutine stands where the outcomes of its file-system calls allow. *)
Definition on_track (g : Upload.t * Pc) : Prop :=
  match g.2 with
  | AtOpen | Finished => True
  | AtCreate => Upload.open_err g.1 = None
  | AtCopy => Upload.open_err g.1 = None ∧ Upload.create_err g.1 = None
  | AtLock | AtInsert | AtUnlock => file_error g.1 = None
  end.

(** The path a goroutine has had recorded. *)
Definition recorded (postID : Z) (g : Upload.t * Pc) : option string :=
  match g.2, file_error g.1 with
  | AtUnlock, _ | Finished, None => Some (fileLocation postID g.1)
  | _, _ => None
  end.

Definition internal_error (err : error) : Response :=
  mkResponse http.StatusInternalServerError (ErrorPostResponse (Error err)).

(** The response a goroutine has written. *)
Definition reported (g : Upload.t * Pc) : option Response :=
  match g.2 with
  | Finished => internal_error <$> file_error g.1
  | _ => None
  end.

(** The calls a goroutine has still to make, at most. *)
Definition remaining (pc : Pc) : nat :=
  match pc with
  | AtOpen => 6 | AtCreate => 5 | AtCopy => 4 | AtLock => 3
  | AtInsert => 2 | AtUnlock => 1 | Finished => 0
  end.

Definition work_left (st : Uploading) : nat :=
  sum_list_with (λ g, remaining g.2) (goroutines st).

(** What holds of every state of an upload of [files] started on [c] when
    no driver call fails: the goroutines stand where their files allow; the
    mutex is locked exactly while one goroutine, and only one, is between
    [mu.Lock] and [mu.Unlock]; the tables are those of [c] with one image
    record of the post appended per recorded path; and the responses
    written are those of [c] and one per goroutine stopped by its file. *)
Definition upload_inv (postID : Z) (files : list Upload.t) (c : Ctx Store)
    (st : Uploading) : Prop :=
  fst <$> goroutines st = files
  ∧ failures (store (shared st)) = []
  ∧ Forall on_track (goroutines st)
  ∧ ((mu st = false ∧ Forall (λ g, outside_lock g.2) (goroutines st))
     ∨ (mu st = true
        ∧ ∃ i g, goroutines st !! i = Some g ∧ (g.2 = AtInsert ∨ g.2 = AtUnlock)
                 ∧ ∀ j g', j ≠ i → goroutines st !! j = Some g' → outside_lock g'.2))
  ∧ ∃ new more,
      tables (store (shared st))
      = set_post_images (λ imgs, imgs ++ new) (tables (store c))
      ∧ Forall (λ i, PostImage.post_id i = postID) new
      ∧ PostImage.path <$> new ≡ₚ omap (recorded postID) (goroutines st)
      ∧ written (shared st) = written c ++ more
      ∧ more ≡ₚ omap reported (goroutines st).

(** Every stored batch and image id fits int32, which the destinations of
    [rows.Scan] take for granted. *)
Definition int32_columns (d : Database) : Prop :=
  Forall (λ ud, NullInt32.fits (NullInt32.of_option (UserDetail.batch ud)) = true)
         (user_details d)
  ∧ Forall (λ i, NullInt32.fits (NullInt32.of_option (Some (PostImage.id i))) = true)
           (post_images d).

(** ** Sample data *)

Definition contains (needle : string) (s : string) : bool :=
  existsb (λ n, String.prefix needle (String.substring n (String.length s - n) s))
          (seq 0 (S (String.length s))).

(** An environment for the examples: a fixed time stamp, a word list of one
    word, a case-sensitive substring test, bare columns from the first row
    of a group, equal keys in the order the rows had, and a syntax error
    for a statement whose search text does not stay a literal. *)
Definition sample_env : Environment :=
  {| Format := λ _, "2006-01-02 15:04:05";
     Validate := λ text, negb (contains "darn" text);
     title_like := contains;
     bare_row_of_post := λ _, 0%nat;
     bare_row_of_joined := λ _, 0%nat;
     tie_order := λ _ _ _, true;
     spliced_statement := λ _ _ _ _ _ _, inl (ErrOther "unrecognized token") |}.

(** Two users, three posts (the third is a questionnaire), two images on
    post 1. *)
Definition sample_db : Database :=
  {| posts := [Post.mk 1 7 1 "hello" "first" 100;
               Post.mk 2 8 2 "world" "second" 200;
               Post.mk 3 7 1 "survey" "third" 300];
     users := [User.mk 7 "ann" "student" None; User.mk 8 "bob" "student" (Some "bob.png")];
     user_details := [UserDetail.mk 8 (Some "MIT") None (Some 2020)];
     comments := [Comment.mk 1 1; Comment.mk 2 1; Comment.mk 3 2];
     post_likes := [PostLike.mk 1 2 7];
     questionnaires := [QuestionnaireRow.mk 3 (Some "http://example.org/q")];
     post_images := [PostImage.mk 10 1 "A"; PostImage.mk 11 1 "B"] |}.

Definition sample_store (failures : list (option error)) : Store :=
  mkStore sample_db failures 1000.

Definition sample_ctx (failures : list (option error)) : Ctx Store :=
  mkCtx (sample_store failures) [].

(** An in-memory questionnaire store for the examples. *)
Definition sample_questionnaireRepo : questionnaireRepo.t (list Questionnaire.t) :=
  {| questionnaireRepo.ReadAllQuestionnaires := λ _ _ _ qs, ((qs, None), qs);
     questionnaireRepo.ReadAllQuestionnaireByID := λ _ postID qs,
       ((default Questionnaire.zero
           (head (filter (λ q, Questionnaire.ID q = postID) qs)), None), qs);
     questionnaireRepo.InsertQuestionnaire := λ q qs, (None, qs ++ [q]);
     questionnaireRepo.UpdateQuestionnaire := λ q qs,
       (None, (λ q', if decide (Questionnaire.ID q' = Questionnaire.ID q)
                     then Questionnaire.mk (Questionnaire.ID q) (Questionnaire.AuthorId q')
                            (Questionnaire.CategoryID q) (Questionnaire.Title q)
                            (Questionnaire.Description q) (Questionnaire.Link q)
                            (Questionnaire.Reward q)
                     else q') <$> qs);
     questionnaireRepo.DeleteQuestionnaire := λ postID qs,
       (None, filter (λ q, Questionnaire.ID q ≠ postID) qs) |}.

Definition sample_questionnaires : list Questionnaire.t :=
  [Questionnaire.mk 3 7 1 "survey" "third" "http://example.org/q" "coffee"].

Definition get_request (params query : list (string * string)) (token : TokenOutcome)
    : Request unit :=
  mkRequest (list_to_map params) (list_to_map query) "" (inr tt) token.

(** * Theorems *)

(** ** The model on small inputs *)

Lemma sample_db_int32 : int32_columns sample_db.
Proof. split; by apply (bool_decide_unpack _). Qed.

Example Atoi_examples :
  strconv.Atoi "20" = Some 20 ∧ strconv.Atoi "-3" = Some (-3) ∧ strconv.Atoi "+7" = Some 7
  ∧ strconv.Atoi "" = None ∧ strconv.Atoi "-" = None ∧ strconv.Atoi "1x" = None
  ∧ strconv.Atoi "9223372036854775807" = Some (2 ^ 63 - 1)
  ∧ strconv.Atoi "9223372036854775808" = None.
Proof. vm_compute. done. Qed.

Example ParseBool_examples :
  strconv.ParseBool "true" = Some true ∧ strconv.ParseBool "T" = Some true
  ∧ strconv.ParseBool "0" = Some false ∧ strconv.ParseBool "yes" = None
  ∧ strconv.ParseBool "" = None.
Proof. vm_compute. done. Qed.

Example limit_offset_examples :
  limit_offset 2 1 [10; 20; 30; 40] = [20; 30]
  ∧ limit_offset (-1) 1 [10; 20; 30; 40] = [20; 30; 40]
  ∧ limit_offset 2 (-5) [10; 20; 30; 40] = [10; 20]
  ∧ limit_offset 0 0 [10; 20; 30; 40] = [].
Proof. vm_compute. done. Qed.

(** The sample store, newest first: post 2, then post 1 with its two image
    rows; post 3 is a questionnaire and is left out. *)
Example FetchAllPost_sample :
  (λ r, (PostDetail.ID r, NullInt32.Int32 (PostDetail.ImageID r), PostDetail.CommentCount r,
         PostDetail.LikeCount r, PostDetail.IsLike r))
    <$> match (FetchAllPost (H := sample_env) 20 0 7 "created_at DESC" []
                 (sample_store [])).1 with
        | inl _ => []
        | inr rows => rows
        end
  = [(2, 0, 1, 1, true); (1, 10, 2, 0, false); (1, 11, 2, 0, false)].
Proof. vm_compute. done. Qed.

Example readPosts_sample :
  let r := readPosts (H := sample_env)
             (get_request [] [("sort_by", "oldest"); ("search_title", "o")] (Resolved 8))
             (sample_ctx []) in
  match written r.2 with
  | [ {| Status := 200; Payload := PostsResponse l |} ] =>
      (λ e, (PostResponse.ID (DetailPostResponse.Post e),
             PostResponse.IsAuthor (DetailPostResponse.Post e),
             PostImageResponse.URL <$> elems_of (DetailPostResponse.Images e))) <$> l
      = [(1, false, ["A"; "B"]); (2, true, [])]
  | _ => False
  end.
Proof. vm_compute. done. Qed.

Example updatePost_sample :
  let r := updatePost (H := sample_env)
             (mkRequest ∅ ∅ "" (inr (UpdatePostRequest.mk 2 1 "world!" "edited")) (Resolved 8))
             (sample_ctx []) in
  written r.2 = [mkResponse 200 (SuccessPostResponse "Post Updated")]
  ∧ Post.title <$> posts (tables (store r.2)) = ["hello"; "world!"; "survey"].
Proof. vm_compute. done. Qed.

Example UpdateQuestionnaire_sample :
  let r := UpdateQuestionnaire (H := sample_env) (repo := sample_questionnaireRepo)
             (mkRequest ∅ ∅ "" (inr (UpdateQuestionnaireRequest.mk 3 1 "survey" "edited"
                                       "http://example.org/q2" "tea")) (Resolved 7))
             (mkCtx sample_questionnaires []) in
  written r.2 = [mkResponse 200 (SuccessPostResponse "Update Questionnaire Successful")]
  ∧ store r.2 = [Questionnaire.mk 3 7 1 "survey" "edited" "http://example.org/q2" "tea"].
Proof. vm_compute. done. Qed.

(** ** The feed assembler *)

Section FeedAssemblerFacts.
Context `{Environment}.

Lemma filter_all {A} (P : A → Prop) `{!∀ x, Decision (P x)} (l : list A) :
  (∀ x, P x) → filter P l = l.
Proof.
  intros HP. induction l as [|x l IH]; [done|].
  by rewrite filter_cons_True, IH.
Qed.

Lemma first_seen_filter (P : Z → Prop) `{!∀ i, Decision (P i)} ids :
  first_seen (filter P ids) = filter P (first_seen ids).
Proof.
  induction ids as [|i ids IH]; [done|].
  rewrite filter_cons. destruct (decide (P i)) as [Hi|Hi]; simpl.
  - rewrite filter_cons_True by done. f_equal.
    rewrite IH, !list_filter_filter. apply list_filter_iff. intros j. tauto.
  - rewrite IH, filter_cons_False by done.
    rewrite list_filter_filter. apply list_filter_iff.
    intros j. split; [|tauto]. intros Hj. split; [done|]. by intros ->.
Qed.

Lemma first_seen_elem_of ids i : i ∈ first_seen ids ↔ i ∈ ids.
Proof.
  induction ids as [|j ids IH]; [done|]. simpl.
  rewrite !elem_of_cons, list_elem_of_filter, IH.
  destruct (decide (i = j)); tauto.
Qed.

Lemma first_seen_NoDup ids : NoDup (first_seen ids).
Proof.
  induction ids as [|j ids IH]; simpl; [constructor|].
  constructor; [|by apply NoDup_filter].
  rewrite list_elem_of_filter. tauto.
Qed.

(** The queue built by the first loop, from any state whose queue lists
    exactly the keys of its map. *)
Lemma scalars_loop_queue authorID posts : ∀ q (d : gmap Z PostResponse.t),
  (∀ i, i ∈ q ↔ is_Some (d !! i)) →
  (foldl (scalars_step authorID) (q, d) posts).1
  = q ++ first_seen (filter (λ i, i ∉ q) (PostDetail.ID <$> posts)).
Proof.
  induction posts as [|p posts IH]; intros q d Hinv; simpl.
  { by rewrite app_nil_r. }
  destruct (d !! PostDetail.ID p) as [r|] eqn:Hd.
  - rewrite IH by done. rewrite filter_cons_False; [done|].
    intros Hn. apply Hn, Hinv. by rewrite Hd.
  - assert (PostDetail.ID p ∉ q) as Hq.
    { intros Hin. apply Hinv in Hin. rewrite Hd in Hin. by destruct Hin. }
    assert (match last q with
            | Some q0 => if bool_decide (q0 ≠ PostDetail.ID p)
                         then q ++ [PostDetail.ID p] else q
            | None => q ++ [PostDetail.ID p]
            end = q ++ [PostDetail.ID p]) as ->.
    { destruct (last q) as [q0|] eqn:Hl; [|done].
      rewrite bool_decide_eq_true_2; [done|].
      intros ->. apply Hq. by eapply last_Some_elem_of. }
    rewrite IH.
    + rewrite filter_cons_True by done. simpl. rewrite <- app_assoc. simpl.
      do 2 f_equal. rewrite !first_seen_filter, list_filter_filter.
      apply list_filter_iff. intros j. rewrite elem_of_app, list_elem_of_singleton.
      tauto.
    + intros i. rewrite elem_of_app, list_elem_of_singleton, Hinv.
      destruct (decide (i = PostDetail.ID p)) as [->|Hne].
      * rewrite lookup_insert_eq. split; [eauto|tauto].
      * rewrite lookup_insert_ne by done. split; [|tauto]. by intros [?|?].
Qed.

(** The map built by the first loop: the first row of a post wins. *)
Lemma scalars_loop_detail authorID posts : ∀ q (d : gmap Z PostResponse.t) i,
  (foldl (scalars_step authorID) (q, d) posts).2 !! i
  = match d !! i with
    | Some r => Some r
    | None => post_response authorID <$> head (rows_of i posts)
    end.
Proof.
  induction posts as [|p posts IH]; intros q d i; simpl.
  { by destruct (d !! i). }
  unfold rows_of. rewrite filter_cons.
  destruct (d !! PostDetail.ID p) as [r|] eqn:Hd.
  - rewrite IH. destruct (d !! i) as [r'|] eqn:Hi; [done|].
    destruct (decide (PostDetail.ID p = i)) as [<-|]; [congruence|done].
  - rewrite IH. destruct (decide (PostDetail.ID p = i)) as [<-|Hne].
    + by rewrite lookup_insert_eq, Hd.
    + by rewrite lookup_insert_ne.
Qed.

(** One step of the second loop never stores a nil slice, and touches only
    the key of its row. *)
Lemma images_step_lookup (m : gmap Z (Slice PostImageResponse.t)) p i :
  images_step m p !! i
  = if decide (PostDetail.ID p = i)
    then Some (if NullInt32.Valid (PostDetail.ImageID p)
               then Make (elems_of (default Nil (m !! i)) ++ [image_response p])
               else default (Make []) (m !! i))
    else m !! i.
Proof.
  unfold images_step.
  destruct (decide (PostDetail.ID p = i)) as [<-|Hne].
  - destruct (m !! PostDetail.ID p) as [s|] eqn:Hm;
      destruct (NullInt32.Valid (PostDetail.ImageID p));
      rewrite ?lookup_insert_eq, ?Hm; simpl; by rewrite ?Hm.
  - destruct (NullInt32.Valid (PostDetail.ImageID p)), (m !! PostDetail.ID p);
      by rewrite ?lookup_insert_ne.
Qed.

(** The map built by the second loop: a post with at least one row has an
    allocated slice holding the images of its rows, in row order. *)
Lemma images_loop posts : ∀ (m : gmap Z (Slice PostImageResponse.t)) i,
  (∀ j, m !! j ≠ Some Nil) →
  foldl images_step m posts !! i
  = match rows_of i posts with
    | [] => m !! i
    | _ => Some (Make (elems_of (default Nil (m !! i)) ++ images_of i posts))
    end.
Proof.
  induction posts as [|p posts IH]; intros m i Hm; [done|].
  simpl. rewrite IH; clear IH.
  2:{ intros j. rewrite images_step_lookup.
      destruct (decide _); [|done].
      destruct (NullInt32.Valid (PostDetail.ImageID p)); [done|].
      destruct (m !! j) as [[|l]|] eqn:Hj; simpl; try done. by destruct (Hm j). }
  rewrite images_step_lookup.
  unfold images_of, rows_of. rewrite filter_cons.
  destruct (decide (PostDetail.ID p = i)) as [<-|Hne]; [|done].
  rewrite filter_cons. specialize (Hm (PostDetail.ID p)).
  destruct (decide (has_image p)) as [Hv|Hv]; unfold has_image in Hv;
    destruct (NullInt32.Valid (PostDetail.ImageID p)); try done; simpl;
    destruct (m !! PostDetail.ID p) as [[|l0]|]; try done; simpl;
    destruct (filter _ posts) as [|p' l]; simpl;
    by rewrite ?app_nil_r, <- ?app_assoc.
Qed.

Lemma snoc_loop {A B} (f : A → B) (l : list A) : ∀ acc,
  foldl (λ out x, out ++ [f x]) acc l = acc ++ (f <$> l).
Proof.
  induction l as [|x l IH]; intros acc; simpl; [by rewrite app_nil_r|].
  by rewrite IH, <- app_assoc.
Qed.

Lemma rows_of_nonempty i posts :
  i ∈ PostDetail.ID <$> posts → rows_of i posts ≠ [].
Proof.
  intros (p & -> & Hp)%list_elem_of_fmap Hnil.
  assert (p ∈ rows_of (PostDetail.ID p) posts) as Hin
    by (by apply list_elem_of_filter).
  rewrite Hnil in Hin. by apply not_elem_of_nil in Hin.
Qed.

Lemma assemble_grouped authorID posts :
  assemble authorID posts = grouped authorID posts.
Proof.
  unfold assemble, grouped.
  pose proof (scalars_loop_queue authorID posts [] ∅) as Hq.
  pose proof (scalars_loop_detail authorID posts [] ∅) as Hd.
  destruct (foldl (scalars_step authorID) ([], ∅) posts) as [q d]. simpl in *.
  rewrite Hq; clear Hq.
  2:{ intros i. rewrite lookup_empty. split; [by intros ?%not_elem_of_nil|by intros []]. }
  rewrite snoc_loop. simpl.
  rewrite filter_all by (intros i; apply not_elem_of_nil).
  apply list_fmap_ext. intros _ i Hi%list_elem_of_lookup_2.
  apply first_seen_elem_of, rows_of_nonempty in Hi.
  unfold grouped_entry. rewrite Hd, lookup_empty.
  rewrite images_loop, lookup_empty by (intros j; by rewrite lookup_empty).
  by destruct (rows_of i posts).
Qed.

Lemma grouped_ids authorID posts :
  (PostResponse.ID ∘ DetailPostResponse.Post) <$> grouped authorID posts
  = first_seen (PostDetail.ID <$> posts).
Proof.
  unfold grouped. rewrite <- list_fmap_compose.
  rewrite <- (list_fmap_id (first_seen _)) at 2.
  apply list_fmap_ext. intros _ i Hi%list_elem_of_lookup_2. simpl.
  apply first_seen_elem_of, rows_of_nonempty in Hi.
  destruct (rows_of i posts) as [|p l] eqn:Hr; [done|]. simpl.
  assert (p ∈ rows_of i posts) as Hp by (rewrite Hr; left).
  by apply list_elem_of_filter in Hp as [? _].
Qed.


End FeedAssemblerFacts.

(** ** The post repository *)

Section RepositoryFacts.

Lemma elem_of_List_filter {A} (f : A → bool) (l : list A) x :
  x ∈ List.filter f l ↔ x ∈ l ∧ f x = true.
Proof. rewrite !list_elem_of_In. apply filter_In. Qed.

(** When the INSERT fails after a successful [Begin], nothing is stored and
    the caller is told nothing. *)
Lemma InsertPostImage_exec_failure postID path d e rest n :
  InsertPostImage postID path (mkStore d (None :: Some e :: rest) n)
  = (None, mkStore d rest n).
Proof. reflexivity. Qed.

(** The same when the commit fails. *)
Lemma InsertPostImage_commit_failure postID path d e rest n :
  InsertPostImage postID path (mkStore d (None :: None :: Some e :: rest) n)
  = (None, mkStore d rest n).
Proof. reflexivity. Qed.

(** Only a failed [Begin] is reported. *)
Lemma InsertPostImage_begin_failure postID path d e rest n :
  InsertPostImage postID path (mkStore d (Some e :: rest) n)
  = (Some e, mkStore d rest n).
Proof. reflexivity. Qed.

(** C10.  If beginning the transaction succeeds, [InsertPostImage] returns
    a nil error, whatever the outcome of the INSERT statement and of the
    commit: its failure branches return the (nil) error of [Begin]. *)
Theorem InsertPostImage_nil_once_begun postID path s :
  (attempt s).1 = None →
  (InsertPostImage postID path s).1 = None.
Proof.
  destruct s as [d fl n]. unfold attempt. simpl.
  destruct fl as [|[e|] fl]; simpl; [|done|]; intros _.
  - reflexivity.
  - destruct fl as [|[e1|] [|[e2|] fl]]; reflexivity.
Qed.

Lemma InsertPostImage_nil_once_begun_witness :
  (InsertPostImage 1 "media/post/1-5-cat.png"
     (sample_store [None; Some (ErrOther "database is locked")])).1 = None
  ∧ post_images (tables (InsertPostImage 1 "media/post/1-5-cat.png"
       (sample_store [None; Some (ErrOther "database is locked")])).2)
    = post_images sample_db.
Proof.
  split; [|reflexivity].
  apply (InsertPostImage_nil_once_begun 1 "media/post/1-5-cat.png"
           (sample_store [None; Some (ErrOther "database is locked")])).
  reflexivity.
Defined.

(** [DeletePostByID] ends in one of two ways: nil with both statements
    applied, or an error with the tables untouched. *)
Lemma DeletePostByID_cases postID s :
  (∃ fl', DeletePostByID postID s
          = (None,
             mkStore (set_post_images
                        (List.filter (λ i, negb (bool_decide (PostImage.post_id i = postID))))
                        (set_posts
                           (List.filter (λ p, negb (bool_decide (Post.id p = postID))))
                           (tables s)))
                     fl' (now s)))
  ∨ (∃ e fl', DeletePostByID postID s = (Some e, mkStore (tables s) fl' (now s))).
Proof.
  destruct s as [d fl n].
  destruct fl as [|[e0|] [|[e1|] [|[e2|] [|[e3|] fl]]]]; cbn; eauto.
Qed.

Lemma DeletePostByID_no_failure postID s :
  failures s = [] → (DeletePostByID postID s).1 = None.
Proof. destruct s as [d fl n]. simpl. by intros ->. Qed.

(** C8.  [DeletePostByID] removes the post row and every image row of the
    post in one transaction: when it returns nil, no post with the id and
    no image of the post remain and all other rows are kept; when it
    returns an error, the tables are as before.  Either way an image still
    references an existing post if that held before.  Without injected
    failures it returns nil. *)
Theorem DeletePostByID_all_or_nothing postID s :
  let r := DeletePostByID postID s in
  (r.1 = None →
     posts (tables r.2)
     = List.filter (λ p, negb (bool_decide (Post.id p = postID))) (posts (tables s))
     ∧ post_images (tables r.2)
       = List.filter (λ i, negb (bool_decide (PostImage.post_id i = postID)))
                     (post_images (tables s))
     ∧ images_of_post postID (tables r.2) = []
     ∧ (∀ p, p ∈ posts (tables r.2) → Post.id p ≠ postID))
  ∧ (r.1 ≠ None → tables r.2 = tables s)
  ∧ (images_reference_posts (tables s) → images_reference_posts (tables r.2))
  ∧ (failures s = [] → r.1 = None).
Proof.
  pose (d' := set_post_images
                (List.filter (λ i, negb (bool_decide (PostImage.post_id i = postID))))
                (set_posts (List.filter (λ p, negb (bool_decide (Post.id p = postID))))
                           (tables s))).
  destruct (DeletePostByID_cases postID s) as [[fl' Hr]|(e & fl' & Hr)];
    fold d' in Hr; rewrite Hr; simpl.
  - assert (∀ i, i ∈ post_images d' → PostImage.post_id i ≠ postID) as Himg.
    { intros i [_ Hi]%elem_of_List_filter.
      by apply negb_true_iff, bool_decide_eq_false in Hi. }
    split_and!; try done.
    + intros _. split_and!; try done.
      * unfold images_of_post.
        destruct (filter _ _) as [|i l] eqn:Hf; [done|].
        assert (i ∈ i :: l) as Hi by left. rewrite <- Hf in Hi.
        apply list_elem_of_filter in Hi as [Heq Hi]. by apply Himg in Hi.
      * intros p [_ Hp]%elem_of_List_filter.
        by apply negb_true_iff, bool_decide_eq_false in Hp.
    + intros Hd i Hi. pose proof (Himg i Hi) as Hne.
      apply elem_of_List_filter in Hi as [Hi _].
      destruct (Hd i Hi) as (p & Hp & Hpi). exists p. split; [|done].
      apply elem_of_List_filter. split; [done|].
      apply negb_true_iff, bool_decide_eq_false. congruence.
  - split_and!; try done.
    intros Hfl. pose proof (DeletePostByID_no_failure postID s Hfl) as Hn.
    rewrite Hr in Hn. by inversion Hn.
Qed.

End RepositoryFacts.

(** ** The post handlers and the acting identity *)

Section IdentityFacts.
Context `{Environment}.

(** C3 (the code departs from it).  On a request whose token lookup
    returns an error, the three post handlers write the 400 response and,
    since that branch does not return, go on.  [createPost], for a body
    that binds and passes moderation, inserts the post under the id that
    came with the error and writes the success response.  [updatePost] and
    [deletePost] carry on exactly as for a caller resolved to that id:
    ownership check, then the mutation. *)
Theorem unresolved_identity_does_not_stop_post_handlers :
  (∀ (ctx : Request CreatePostRequest.t) (c : Ctx Store) req id err,
     Bound ctx = inr req →
     Validate (CreatePostRequest.Title req) = true →
     Validate (CreatePostRequest.Description req) = true →
     Token ctx = Rejected id err →
     failures (store c) = [] →
     let postID := next_id (Post.id <$> posts (tables (store c))) in
     createPost ctx c
     = (Next tt,
        mkCtx (mkStore
                 (set_posts
                    (λ ps, ps ++ [Post.mk postID id (CreatePostRequest.CategoryID req)
                                          (CreatePostRequest.Title req)
                                          (CreatePostRequest.Description req)
                                          (now (store c))])
                    (tables (store c)))
                 [] (now (store c)))
              (written c
               ++ [mkResponse http.StatusBadRequest (ErrorPostResponse "Your ID cann't read");
                   mkResponse http.StatusOK (CreatePostResponse postID "Post Created")])))
  ∧ (∀ (ctx : Request UpdatePostRequest.t) (c : Ctx Store) req id err,
       Bound ctx = inr req →
       Token ctx = Rejected id err →
       updatePost ctx c
       = updatePost (with_token ctx (Resolved id))
           (mkCtx (store c)
                  (written c
                   ++ [mkResponse http.StatusBadRequest
                         (ErrorPostResponse "Your ID cann't read")])))
  ∧ (∀ (ctx : Request unit) (c : Ctx Store) postID id err,
       strconv.Atoi (Param ctx "id") = Some postID →
       Token ctx = Rejected id err →
       deletePost ctx c
       = deletePost (with_token ctx (Resolved id))
           (mkCtx (store c)
                  (written c
                   ++ [mkResponse http.StatusBadRequest
                         (ErrorPostResponse "Your ID cann't read")]))).
Proof.
  split_and!.
  - intros ctx c req id err Hb Ht Hd Htok Hfl. destruct c as [[d fl n] w].
    simpl in *. subst fl.
    unfold createPost. rewrite Hb, Ht, Hd. simpl.
    unfold handler_bind, getUserIdFromToken. rewrite Htok. simpl.
    unfold JSON. simpl. by rewrite <- app_assoc.
  - intros ctx c req id err Hb Htok. unfold updatePost. simpl. rewrite Hb.
    unfold handler_bind at 1 3. unfold getUserIdFromToken. simpl. by rewrite Htok.
  - intros ctx c postID id err Hid Htok. unfold deletePost.
    change (Param (with_token ctx (Resolved id)) "id") with (Param ctx "id").
    rewrite Hid.
    unfold handler_bind at 1 3. unfold getUserIdFromToken. simpl. by rewrite Htok.
Qed.

End IdentityFacts.

Lemma unresolved_identity_does_not_stop_post_handlers_witness :
  let ctx := mkRequest ∅ ∅ "" (inr (CreatePostRequest.mk 1 "hello" "first post"))
                       (Rejected 0 (ErrOther "token is malformed")) in
  (createPost (H := sample_env) ctx (sample_ctx [])).1 = Next tt
  ∧ Status <$> written (createPost (H := sample_env) ctx (sample_ctx [])).2 = [400; 200]
  ∧ posts (tables (store (createPost (H := sample_env) ctx (sample_ctx [])).2))
    = posts sample_db ++ [Post.mk 4 0 1 "hello" "first post" 1000].
Proof.
  intros ctx.
  rewrite (proj1 (unresolved_identity_does_not_stop_post_handlers (H := sample_env))
             ctx (sample_ctx []) (CreatePostRequest.mk 1 "hello" "first post") 0
             (ErrOther "token is malformed") eq_refl eq_refl eq_refl eq_refl eq_refl).
  split_and!; reflexivity.
Defined.

(** The same slip in [updatePost] and [deletePost]: the ownership check runs
    with the id that came with the error.  A post inserted as above by an
    unidentified caller is deleted by another unidentified caller. *)
Example deletePost_unresolved_identity_checks_owner :
  let anonymous := Rejected 0 (ErrOther "token is malformed") in
  let created :=
    (createPost (H := sample_env)
       (mkRequest ∅ ∅ "" (inr (CreatePostRequest.mk 1 "hello" "first post")) anonymous)
       (sample_ctx [])).2 in
  let deleted :=
    (deletePost (get_request [("id", "4")] [] anonymous) (mkCtx (store created) [])).2 in
  Post.id <$> posts (tables (store created)) = [1; 2; 3; 4]
  ∧ Post.id <$> posts (tables (store deleted)) = [1; 2; 3]
  ∧ written deleted
    = [mkResponse 400 (ErrorPostResponse "Your ID cann't read");
       mkResponse 200 (SuccessPostResponse "Post Deleted")].
Proof. vm_compute. done. Qed.

(** The questionnaire handlers do return when the token lookup fails: no
    repository call is made and a single 400 response is written. *)
Lemma required_user_rejects {S B} (c : Request B) (x : Ctx S) id err :
  Token c = Rejected id err →
  required_user c x
  = (Returned,
     mkCtx (store x)
           (written x ++ [mkResponse http.StatusBadRequest (ErrorPostResponse (Error err))])).
Proof.
  intros Htok. unfold required_user, handler_bind, getUserIdFromToken.
  by rewrite Htok.
Qed.

Lemma DeleteQuestionnaire_unresolved_identity
    `{Environment} {S} `{questionnaireRepo.t S} (c : Request unit) (x : Ctx S) postID id err :
  strconv.Atoi (Param c "id") = Some postID →
  Token c = Rejected id err →
  DeleteQuestionnaire c x
  = (Returned,
     mkCtx (store x)
           (written x ++ [mkResponse http.StatusBadRequest (ErrorPostResponse (Error err))])).
Proof.
  intros Hid Htok. unfold DeleteQuestionnaire. rewrite Hid.
  unfold handler_bind at 1. by rewrite (required_user_rejects _ _ _ _ Htok).
Qed.

Section ListIdentityFacts.
Context `{Environment}.

Lemma getUserIDAvoidPanic_value {S B} (ctx : Request B) (c : Ctx S) :
  getUserIDAvoidPanic ctx c
  = (Next (match Token ctx with Resolved id | Rejected id _ => id | Panics => 0 end), c).
Proof. unfold getUserIDAvoidPanic, getUserIdFromToken. by destruct (Token ctx). Qed.

(** [list_posts] writes exactly one response, 200 or 500. *)
Lemma list_posts_status limit offset authorID sortBy filterQuery c :
  ∃ r, written (list_posts limit offset authorID sortBy filterQuery c).2 = written c ++ [r]
       ∧ (Status r = http.StatusOK ∨ Status r = http.StatusInternalServerError).
Proof.
  unfold list_posts, handler_bind, call.
  destruct (FetchAllPost _ _ _ _ _ _) as [[e|posts] s]; simpl; [eauto|].
  destruct (decide _); simpl; eauto.
Qed.

(** C2 (the code departs from it).  [readPosts] with [me=true] on a request
    whose identity is not resolved (the token lookup returns an error or
    panics) is not rejected: it lists the posts whose author is the id left
    by the failed lookup, and answers 200 (or 500 when the store fails),
    never 400. *)
Theorem readPosts_me_without_identity (ctx : Request unit) (c : Ctx Store)
    offset limit sortBy category_id :
  (∀ id, Token ctx ≠ Resolved id) →
  strconv.Atoi (DefaultQuery ctx "offset" "0") = Some offset →
  strconv.Atoi (DefaultQuery ctx "limit" "20") = Some limit →
  post_sort_by (DefaultQuery ctx "sort_by" "newest") = Some sortBy →
  strconv.Atoi (DefaultQuery ctx "category_id" "0") = Some category_id →
  strconv.ParseBool (DefaultQuery ctx "me" "false") = Some true →
  let authorID := match Token ctx with Resolved id | Rejected id _ => id | Panics => 0 end in
  readPosts ctx c
  = list_posts limit offset authorID sortBy
      (post_filter (DefaultQuery ctx "search_title" "") category_id true authorID) c
  ∧ AuthorIs authorID
    ∈ post_filter (DefaultQuery ctx "search_title" "") category_id true authorID
  ∧ ∃ r, written (readPosts ctx c).2 = written c ++ [r]
         ∧ Status r ≠ http.StatusBadRequest.
Proof.
  intros _ Ho Hl Hs Hc Hm authorID.
  assert (readPosts ctx c
          = list_posts limit offset authorID sortBy
              (post_filter (DefaultQuery ctx "search_title" "") category_id true authorID) c)
    as Heq.
  { unfold readPosts, handler_bind. rewrite getUserIDAvoidPanic_value.
    by rewrite Ho, Hl, Hs, Hc, Hm. }
  split_and!; [done| |].
  - unfold post_filter. apply elem_of_app. right. left.
  - rewrite Heq. destruct (list_posts_status limit offset authorID sortBy
      (post_filter (DefaultQuery ctx "search_title" "") category_id true authorID) c)
      as (r & -> & Hr).
    exists r. split; [done|]. by destruct Hr as [-> | ->].
Qed.

End ListIdentityFacts.

Lemma readPosts_me_without_identity_witness :
  let ctx := get_request [] [("me", "true")] Panics in
  written (readPosts (H := sample_env) ctx (sample_ctx [])).2
  = [mkResponse http.StatusOK EmptyStrings].
Proof.
  intros ctx.
  destruct (readPosts_me_without_identity (H := sample_env) ctx (sample_ctx [])
              0 20 "created_at DESC" 0) as (Heq & _ & _);
    [discriminate|reflexivity|reflexivity|reflexivity|reflexivity|reflexivity|].
  rewrite Heq. reflexivity.
Defined.

(** The sibling handler rejects the same request: [ReadAllQuestionnaires]
    with [me=true] and no [Authorization] header, or with a token lookup
    that returns an error, writes a single 400 response and calls no
    repository method. *)
Lemma ReadAllQuestionnaires_me_requires_identity
    `{Environment} {S} `{questionnaireRepo.t S} (c : Request unit) (x : Ctx S)
    sortBy categoryId :
  questionnaire_sort_by (DefaultQuery c "sort_by" "newest") = Some sortBy →
  strconv.Atoi (DefaultQuery c "category_id" "0") = Some categoryId →
  strconv.ParseBool (DefaultQuery c "me" "false") = Some true →
  Authorization c = "" ∨ (∃ id err, Token c = Rejected id err) →
  ∃ message,
    ReadAllQuestionnaires c x
    = (Returned,
       mkCtx (store x)
             (written x ++ [mkResponse http.StatusBadRequest (ErrorPostResponse message)])).
Proof.
  intros Hs Hc Hm Hid. unfold ReadAllQuestionnaires. rewrite Hs, Hc, Hm.
  unfold handler_bind at 1. unfold optional_user.
  destruct (decide (Authorization c ≠ "")) as [Hauth|Hauth].
  - destruct Hid as [Hid|(id & err & Htok)]; [done|].
    unfold handler_bind, getUserIdFromToken. rewrite Htok. simpl. eauto.
  - simpl. unfold handler_bind. simpl. eauto.
Qed.

(** ** Ordering *)

Section SortFacts.
Context {A : Type} (le : A → A → bool).

Lemma insert_by_Permutation x l : insert_by le x l ≡ₚ x :: l.
Proof.
  induction l as [|y l IH]; simpl; [done|].
  destruct (le x y); [done|]. rewrite IH. apply Permutation_swap.
Qed.

Lemma sort_by_Permutation l : sort_by le l ≡ₚ l.
Proof.
  induction l as [|x l IH]; simpl; [done|].
  unfold sort_by in *. simpl. by rewrite insert_by_Permutation, IH.
Qed.

Hypothesis le_total : ∀ a b, le a b = true ∨ le b a = true.
Hypothesis le_trans : ∀ a b c, le a b = true → le b c = true → le a c = true.

Lemma insert_by_sorted x l :
  StronglySorted (λ a b, le a b = true) l →
  StronglySorted (λ a b, le a b = true) (insert_by le x l).
Proof.
  induction 1 as [|y l Hs IH Hy]; simpl.
  { repeat constructor. }
  destruct (le x y) eqn:Hxy.
  - constructor; [by constructor|]. constructor; [done|].
    eapply Forall_impl; [exact Hy|]. intros z Hz. by eapply le_trans.
  - constructor; [done|]. rewrite insert_by_Permutation. constructor; [|done].
    destruct (le_total x y); congruence.
Qed.

Lemma sort_by_sorted l : StronglySorted (λ a b, le a b = true) (sort_by le l).
Proof.
  induction l as [|x l IH]; [constructor|].
  unfold sort_by in *. simpl. by apply insert_by_sorted.
Qed.

End SortFacts.

Lemma StronglySorted_weaken {A} (R R' : A → A → Prop) l :
  (∀ a b, R a b → R' a b) → StronglySorted R l → StronglySorted R' l.
Proof.
  intros HR. induction 1 as [|x l Hs IH Hx]; constructor; [done|].
  eapply Forall_impl; [exact Hx|]. intros y. apply HR.
Qed.

Section SortByFacts.
Context `{Environment}.

(** Sorting on an integer column, ascending or descending. *)
Lemma sorted_posts_on (key : UserPost.t → Z) (descending : bool) filter d :
  StronglySorted (λ a b, if descending then key b ≤ key a else key a ≤ key b)
    (sorted_posts (λ a b, if descending then key b <=? key a else key a <=? key b) filter d).
Proof.
  unfold sorted_posts.
  eapply StronglySorted_weaken; [|apply sort_by_sorted].
  - intros a b. simpl. destruct descending; lia.
  - intros a b. destruct descending; lia.
  - intros a b c. destruct descending; lia.
Qed.



End SortByFacts.

(** ** The list query *)

Lemma repo_try_inr {A B} (c : Repo (error + A)) (k : A → Repo (error + B)) s b s' :
  repo_try c k s = (inr b, s') → ∃ a s1, c s = (inr a, s1) ∧ k a s1 = (inr b, s').
Proof.
  unfold repo_try, repo_bind. destruct (c s) as [[e|a] s1]; [done|]. eauto.
Qed.

Lemma Begin_inr s tx s1 :
  Begin s = (inr tx, s1) → tx = tables s ∧ tables s1 = tables s.
Proof.
  unfold Begin, repo_bind, attempt.
  destruct (failures s) as [|[e|] fl]; simpl; [|done|]; by intros [= <- <-].
Qed.

Lemma Query_inr {A} (stmt : Database → error + A) tx s a s1 :
  Query stmt tx s = (inr a, s1) → stmt tx = inr a ∧ tables s1 = tables s.
Proof.
  unfold Query, repo_bind, attempt, repo_ret.
  destruct (failures s) as [|[e|] fl]; simpl; [|done|]; by intros [= -> <-].
Qed.

(** The posts a row loop returns are scanned from the first rows of the
    result set: from all of them, or from those before a failed step. *)
Lemma scan_rows_inr {A} (rows : list (error + A)) : ∀ acc s posts s',
  scan_rows rows acc s = (inr posts, s') →
  ∃ got, posts = acc ++ got ∧ (inr <$> got) `prefix_of` rows.
Proof.
  induction rows as [|r rows IH]; intros acc s posts s'; simpl.
  { unfold repo_bind. destruct (attempt s) as [e s1]. intros [= <- _].
    exists []. split; [by rewrite app_nil_r|done]. }
  unfold repo_bind. destruct (attempt s) as [[e|] s1]; simpl.
  { intros [= <- _]. exists []. split; [by rewrite app_nil_r|apply prefix_nil]. }
  destruct r as [err|post]; [done|].
  intros (got & -> & Hgot)%IH. exists (post :: got).
  split; [by rewrite <- app_assoc|]. rewrite fmap_cons. by apply prefix_cons.
Qed.

(** On a store that works the loop reads every row, and returns the error
    of the first [Scan] that fails. *)
Lemma scan_rows_no_failure {A} (rows : list A) : ∀ acc s,
  failures s = [] → scan_rows (inr <$> rows) acc s = (inr (acc ++ rows), s).
Proof.
  induction rows as [|r rows IH]; intros acc s Hfl; simpl.
  { unfold repo_bind, attempt, repo_ret. rewrite Hfl. simpl.
    rewrite app_nil_r. by destruct s. }
  unfold repo_bind, attempt. rewrite Hfl. rewrite IH by done.
  by rewrite <- app_assoc.
Qed.

Lemma scan_rows_scan_error {A} (rows : list A) err rest : ∀ acc s,
  failures s = [] → scan_rows ((inr <$> rows) ++ inl err :: rest) acc s = (inl err, s).
Proof.
  induction rows as [|r rows IH]; intros acc s Hfl; simpl.
  { unfold repo_bind, attempt, repo_ret. by rewrite Hfl. }
  unfold repo_bind, attempt. rewrite Hfl. by rewrite IH.
Qed.

Lemma filter_none {A} (P : A → Prop) `{!∀ x, Decision (P x)} (l : list A) :
  (∀ x, x ∈ l → ¬ P x) → filter P l = [].
Proof.
  induction l as [|x l IH]; intros HP; [done|].
  rewrite filter_cons_False by (apply HP; left).
  apply IH. intros y Hy. apply HP. by right.
Qed.

Lemma filter_every {A} (P : A → Prop) `{!∀ x, Decision (P x)} (l : list A) :
  (∀ x, x ∈ l → P x) → filter P l = l.
Proof.
  induction l as [|x l IH]; intros HP; [done|].
  rewrite filter_cons_True by (apply HP; left).
  f_equal. apply IH. intros y Hy. apply HP. by right.
Qed.

Lemma List_filter_bool_decide {A} (P : A → Prop) `{!∀ x, Decision (P x)} (l : list A) :
  List.filter (λ x, bool_decide (P x)) l = filter P l.
Proof.
  induction l as [|x l IH]; [done|].
  rewrite filter_cons. simpl. rewrite IH.
  destruct (decide (P x)); [by rewrite bool_decide_eq_true_2|by rewrite bool_decide_eq_false_2].
Qed.

Lemma fmap_constant {A B} (f : A → B) (c : B) (l : list A) :
  (∀ x, f x = c) → f <$> l = replicate (length l) c.
Proof.
  intros Hf. induction l as [|x l IH]; [done|].
  by rewrite fmap_cons, Hf, IH.
Qed.

Lemma first_seen_cons i ids :
  first_seen (i :: ids) = i :: filter (λ j, j ≠ i) (first_seen ids).
Proof. reflexivity. Qed.

(** Rows that come in one non-empty block per key, with distinct keys:
    the keys in order of first appearance are the keys of the blocks. *)
Lemma first_seen_blocks {A} (key : A → Z) (block : A → list Z) (l : list A) :
  (∀ a, a ∈ l → block a ≠ [] ∧ ∀ k, k ∈ block a → k = key a) →
  NoDup (key <$> l) →
  first_seen (l ≫= block) = key <$> l.
Proof.
  induction l as [|a l IH]; intros Hb Hnd; [done|].
  rewrite fmap_cons in Hnd. apply NoDup_cons in Hnd as [Ha Hnd].
  destruct (Hb a) as [Hne Hk]; [left|].
  assert (first_seen (l ≫= block) = key <$> l) as IH'.
  { apply IH; [|done]. intros b Hin. apply Hb. by right. }
  rewrite bind_cons, fmap_cons.
  destruct (block a) as [|k blk] eqn:Hblk; [done|].
  rewrite <- app_comm_cons, first_seen_cons.
  rewrite (Hk k) by left. f_equal.
  rewrite <- first_seen_filter, filter_app.
  rewrite (filter_none _ blk).
  2:{ intros j Hj Hne'. apply Hne', Hk. by right. }
  rewrite app_nil_l, first_seen_filter, IH'.
  apply filter_every. intros j Hj ->. done.
Qed.

(** Joins. *)
Lemma elem_of_inner_join {A B} (on : A → B → bool) l r a b :
  (a, b) ∈ inner_join on l r ↔ a ∈ l ∧ b ∈ r ∧ on a b = true.
Proof.
  unfold inner_join. rewrite list_elem_of_bind. split.
  - intros (a' & (b' & [= -> ->] & Hb)%list_elem_of_fmap & Ha).
    apply elem_of_List_filter in Hb. tauto.
  - intros (Ha & Hb & Hon). exists a. split; [|done].
    apply list_elem_of_fmap. exists b. split; [done|]. by apply elem_of_List_filter.
Qed.

Lemma elem_of_left_join {A B} (on : A → B → bool) l r a ob :
  (a, ob) ∈ left_join on l r →
  a ∈ l ∧ match ob with
          | Some b => b ∈ r ∧ on a b = true
          | None => ∀ b, b ∈ r → on a b = false
          end.
Proof.
  unfold left_join. rewrite list_elem_of_bind. intros (a' & Hin & Ha).
  destruct (List.filter (on a') r) as [|b0 bs] eqn:Hf.
  - apply list_elem_of_singleton in Hin as [= -> ->]. split; [done|].
    intros b Hb. destruct (on a' b) eqn:Hon; [|done].
    assert (b ∈ List.filter (on a') r) as Hc by (by apply elem_of_List_filter).
    rewrite Hf in Hc. by apply not_elem_of_nil in Hc.
  - apply list_elem_of_fmap in Hin as (b & [= -> ->] & Hb). split; [done|].
    rewrite <- Hf in Hb. by apply elem_of_List_filter in Hb.
Qed.

Lemma left_join_covers {A B} (on : A → B → bool) l r a :
  a ∈ l → ∃ ob, (a, ob) ∈ left_join on l r.
Proof.
  intros Ha. unfold left_join.
  destruct (List.filter (on a) r) as [|b0 bs] eqn:Hf.
  - exists None. apply list_elem_of_bind. exists a. split; [|done]. rewrite Hf. left.
  - exists (Some b0). apply list_elem_of_bind. exists a. split; [|done]. rewrite Hf. left.
Qed.

Lemma List_filter_nil {A} (f : A → bool) (l : list A) :
  (∀ x, x ∈ l → f x = false) → List.filter f l = [].
Proof.
  intros Hf. destruct (List.filter f l) as [|x l'] eqn:Hl; [done|].
  assert (x ∈ List.filter f l) as [Hx Hfx]%elem_of_List_filter by (rewrite Hl; left).
  rewrite Hf in Hfx; done.
Qed.

(** Grouping: the bare columns of a group come from one of its rows. *)
Lemma bare_row_elem {A} (pick : list A → nat) g r : bare_row pick g = Some r → r ∈ g.
Proof.
  unfold bare_row. destruct (g !! pick g) as [r'|] eqn:Hr.
  - intros [= <-]. by eapply list_elem_of_lookup_2.
  - destruct g; [done|]. intros [= <-]. left.
Qed.

Lemma bare_row_is_Some {A} (pick : list A → nat) g : g ≠ [] → is_Some (bare_row pick g).
Proof.
  unfold bare_row. destruct (g !! pick g); [by eexists|]. destruct g; [done|]. by eexists.
Qed.

Lemma filter_key_nonempty {A} (key : A → Z) (l : list A) a :
  a ∈ l → filter (λ b, key b = key a) l ≠ [].
Proof.
  intros Ha Hnil.
  assert (a ∈ filter (λ b, key b = key a) l) as Hc by (by apply list_elem_of_filter).
  rewrite Hnil in Hc. by apply not_elem_of_nil in Hc.
Qed.

Lemma elem_of_select_group_by {A B} (key : A → Z) pick (select : list A → A → B) l x :
  x ∈ select_group_by key pick select l →
  ∃ r, r ∈ l ∧ x = select (filter (λ a, key a = key r) l) r.
Proof.
  unfold select_group_by, group_by.
  intros (g & Hx & (k & -> & Hk)%list_elem_of_fmap)%list_elem_of_bind.
  destruct (bare_row pick _) as [r|] eqn:Hr; [|by apply not_elem_of_nil in Hx].
  apply list_elem_of_singleton in Hx as ->.
  apply bare_row_elem in Hr as Hin. apply list_elem_of_filter in Hin as [<- Hin].
  by exists r.
Qed.

Lemma select_group_by_covers {A B} (key : A → Z) pick (select : list A → A → B) l a :
  a ∈ l →
  ∃ r, r ∈ l ∧ key r = key a
       ∧ select (filter (λ b, key b = key a) l) r ∈ select_group_by key pick select l.
Proof.
  intros Ha. unfold select_group_by, group_by.
  destruct (bare_row_is_Some pick _ (filter_key_nonempty key l a Ha)) as [r Hr].
  apply bare_row_elem in Hr as Hin. apply list_elem_of_filter in Hin as [Hk Hin].
  exists r. split_and!; try done.
  apply list_elem_of_bind. eexists. split.
  2:{ apply list_elem_of_fmap. exists (key a). split; [reflexivity|].
      apply first_seen_elem_of, list_elem_of_fmap. by exists a. }
  simpl. rewrite Hr. left.
Qed.

Lemma select_group_by_keys {A B} (key : A → Z) pick (select : list A → A → B)
    (key' : B → Z) l :
  (∀ g r, key' (select g r) = key r) →
  key' <$> select_group_by key pick select l = first_seen (key <$> l).
Proof.
  intros Hkey. unfold select_group_by, group_by.
  assert (∀ ks, (∀ k, k ∈ ks → k ∈ key <$> l) →
    key' <$> (((λ k, filter (λ a, key a = k) l) <$> ks) ≫=
                (λ g, match bare_row pick g with
                      | None => []
                      | Some r => [select g r]
                      end)) = ks) as Hks.
  { induction ks as [|k ks IH]; intros Hin; [done|].
    rewrite fmap_cons, bind_cons, fmap_app.
    rewrite IH by (intros j Hj; apply Hin; by right).
    destruct (bare_row pick _) as [r|] eqn:Hr.
    - apply bare_row_elem, list_elem_of_filter in Hr as [Hk _]. simpl.
      by rewrite Hkey, Hk.
    - exfalso. pose proof (Hin k) as Hk.
      apply list_elem_of_fmap in Hk as (a & -> & Ha); [|left].
      destruct (bare_row_is_Some pick _ (filter_key_nonempty key l a Ha)) as [r Hr'].
      congruence. }
  apply Hks. intros k. apply first_seen_elem_of.
Qed.

(** The keys of the first rows, in order of first appearance, are the
    first of the keys of all rows. *)
Lemma prefix_filter {A} (P : A → Prop) `{!∀ x, Decision (P x)} (l1 l2 : list A) :
  l1 `prefix_of` l2 → filter P l1 `prefix_of` filter P l2.
Proof. intros [k ->]. rewrite filter_app. by eexists. Qed.

Lemma prefix_elem_of {A} (l1 l2 : list A) x : l1 `prefix_of` l2 → x ∈ l1 → x ∈ l2.
Proof. intros [k ->] Hx. apply elem_of_app. by left. Qed.

Lemma first_seen_prefix ids1 ids2 :
  ids1 `prefix_of` ids2 → first_seen ids1 `prefix_of` first_seen ids2.
Proof.
  intros [k ->]. induction ids1 as [|i ids1 IH]; [apply prefix_nil|].
  rewrite <- app_comm_cons, !first_seen_cons.
  by apply prefix_cons, prefix_filter.
Qed.

Lemma scan_detail_inr r r' : scan_detail r = inr r' → r' = r.
Proof. unfold scan_detail. destruct (_ && _); [by intros [= <-]|done]. Qed.

(** Rows that [Scan] accepted are the rows of the statement. *)
Lemma scanned_prefix (got l : list PostDetail.t) :
  (inr <$> got) `prefix_of` (scan_detail <$> l) → got `prefix_of` l.
Proof.
  revert l. induction got as [|b got IH]; intros l Hpre; [apply prefix_nil|].
  destruct l as [|a l].
  { destruct Hpre as [k Hk]. done. }
  rewrite !fmap_cons in Hpre.
  apply prefix_cons_inv_1 in Hpre as Hhd. apply prefix_cons_inv_2 in Hpre as Htl.
  symmetry in Hhd. apply scan_detail_inr in Hhd as ->.
  by apply prefix_cons, IH.
Qed.

Lemma scanned_all (got l : list PostDetail.t) :
  scan_detail <$> l = inr <$> got → got = l.
Proof.
  revert got. induction l as [|a l IH]; intros [|b got]; try done.
  rewrite !fmap_cons. intros [= Hhd Htl].
  apply scan_detail_inr in Hhd as ->. f_equal. by apply IH.
Qed.

(** On a store that works a row loop that returns posts has read every
    row. *)
Lemma scan_rows_inr_no_failure {A} (rows : list (error + A)) : ∀ acc s posts s',
  failures s = [] →
  scan_rows rows acc s = (inr posts, s') →
  ∃ got, rows = inr <$> got ∧ posts = acc ++ got ∧ s' = s.
Proof.
  induction rows as [|r rows IH]; intros acc s posts s' Hfl; simpl.
  { unfold repo_bind, attempt, repo_ret. rewrite Hfl. intros [= <- <-].
    exists []. by rewrite app_nil_r. }
  unfold repo_bind, attempt. rewrite Hfl.
  destruct r as [err|post]; [done|].
  intros (got & -> & -> & ->)%IH; [|done]. exists (post :: got).
  by rewrite <- app_assoc.
Qed.

(** A driver failure at the step to row [k] ends the loop: the function
    goes on with the [k] posts read so far. *)
Lemma scan_rows_failed_step {A} (rows : list A) e fl d n : ∀ (k : nat) acc,
  (k ≤ length rows)%nat →
  scan_rows (inr <$> rows) acc (mkStore d (replicate k None ++ Some e :: fl) n)
  = (inr (acc ++ take k rows), mkStore d fl n).
Proof.
  induction rows as [|r rows IH]; intros k acc Hk.
  { assert (k = 0%nat) as -> by (simpl in Hk; lia).
    simpl. unfold repo_bind, attempt, repo_ret. simpl. by rewrite app_nil_r. }
  destruct k as [|k].
  { simpl. unfold repo_bind, attempt, repo_ret. simpl. by rewrite app_nil_r. }
  rewrite fmap_cons. simpl. unfold repo_bind at 1. unfold attempt at 1. simpl.
  rewrite IH by (simpl in Hk; lia). by rewrite <- app_assoc.
Qed.

Section ListQueryFacts.
Context `{Environment}.

(** The subquery [up] has one row per post id that survives the [WHERE]. *)
Lemma user_posts_ids clauses d :
  UserPost.id <$> user_posts clauses d
  = first_seen ((λ r : JoinedRow, Post.id r.1.1.1.1.1)
                  <$> List.filter (where_feed clauses) (joined d)).
Proof.
  unfold user_posts. apply select_group_by_keys.
  by intros g [[[[[p cc] u] ud] pl] q].
Qed.

(** [ORDER BY] rearranges the rows of the subquery, whatever the order of
    those with equal keys. *)
Lemma sorted_posts_Permutation le clauses d :
  sorted_posts le clauses d ≡ₚ user_posts clauses d.
Proof. unfold sorted_posts, order_by. by rewrite !sort_by_Permutation. Qed.

Lemma sorted_posts_NoDup le clauses d :
  NoDup (UserPost.id <$> sorted_posts le clauses d).
Proof.
  rewrite sorted_posts_Permutation, user_posts_ids.
  apply first_seen_NoDup.
Qed.

Lemma limit_offset_sublist {A} limit offset (l : list A) :
  limit_offset limit offset l `sublist_of` l.
Proof.
  unfold limit_offset. destruct (limit <? 0).
  - apply sublist_drop.
  - etrans; [apply sublist_take|apply sublist_drop].
Qed.

Lemma page_NoDup limit offset le clauses d :
  NoDup (UserPost.id <$> page limit offset le clauses d).
Proof.
  eapply sublist_NoDup; [apply (sorted_posts_NoDup le clauses d)|].
  unfold page, limit_offset. destruct (limit <? 0).
  - rewrite fmap_drop. apply sublist_drop.
  - rewrite fmap_take, fmap_drop. etrans; [apply sublist_take|apply sublist_drop].
Qed.

(** The rows of the outer join: one block per row of the page. *)
Lemma feed_rows_ids authorID d ups :
  PostDetail.ID <$> feed_rows authorID d ups
  = ups ≫= (λ up, replicate
                    (Nat.max 1 (length (images_of_post (UserPost.id up) d)))
                    (UserPost.id up)).
Proof.
  unfold feed_rows, left_join.
  induction ups as [|up ups IH]; [done|].
  rewrite !bind_cons, !fmap_app, IH. f_equal. clear IH.
  unfold images_of_post. rewrite List_filter_bool_decide.
  rewrite (list_filter_iff _ (λ i, PostImage.post_id i = UserPost.id up)) by done.
  destruct (filter _ (post_images d)) as [|b bs]; [done|].
  rewrite <- !list_fmap_compose.
  change (Nat.max 1 (length (b :: bs))) with (length (b :: bs)).
  by apply fmap_constant.
Qed.

Lemma feed_rows_distinct_ids authorID d ups :
  NoDup (UserPost.id <$> ups) →
  first_seen (PostDetail.ID <$> feed_rows authorID d ups) = UserPost.id <$> ups.
Proof.
  intros Hnd. rewrite feed_rows_ids.
  apply (first_seen_blocks UserPost.id); [|done].
  intros up _. split.
  - by destruct (length _).
  - by intros k [-> _]%elem_of_replicate.
Qed.

(** The first rows of the outer join show the first posts of the page. *)
Lemma feed_rows_prefix_ids authorID d ups rows :
  NoDup (UserPost.id <$> ups) →
  rows `prefix_of` feed_rows authorID d ups →
  first_seen (PostDetail.ID <$> rows) `prefix_of` UserPost.id <$> ups.
Proof.
  intros Hnd [k Hk]. rewrite <- (feed_rows_distinct_ids authorID d ups Hnd).
  apply first_seen_prefix. rewrite Hk, fmap_app. by eexists.
Qed.

(** What [FetchAllPost] returns when it returns rows, for search text that
    stays a literal: the rows of the statement, or the first of them when
    a step failed. *)
Lemma FetchAllPost_inr limit offset authorID orderBy clauses s rows :
  forallb literal_clause clauses = true →
  (FetchAllPost limit offset authorID orderBy clauses s).1 = inr rows →
  ∃ le, order_term orderBy = Some le
        ∧ rows `prefix_of`
            feed_rows authorID (tables s) (page limit offset le clauses (tables s)).
Proof.
  intros Hlit. destruct (FetchAllPost _ _ _ _ _ s) as [r s'] eqn:Hf. simpl. intros ->.
  unfold FetchAllPost in Hf.
  apply repo_try_inr in Hf as (tx & s1 & [-> _]%Begin_inr & Hf).
  apply repo_try_inr in Hf as (found & s2 & [Hq _]%Query_inr & Hf).
  apply repo_try_inr in Hf as (posts & s3 & (got & -> & Hgot)%scan_rows_inr & Hf).
  unfold repo_bind in Hf. destruct (Commit _ s3) as [[e|] s4]; [done|].
  injection Hf as <- _.
  unfold feed_query in Hq. rewrite Hlit in Hq.
  destruct (order_term orderBy) as [le|]; [|done].
  injection Hq as <-. simpl in Hgot. exists le. split; [done|].
  by apply scanned_prefix.
Qed.

(** On a store that works it returns every row of the statement. *)
Lemma FetchAllPost_inr_no_failure limit offset authorID orderBy clauses s rows :
  forallb literal_clause clauses = true →
  failures s = [] →
  (FetchAllPost limit offset authorID orderBy clauses s).1 = inr rows →
  ∃ le, order_term orderBy = Some le
        ∧ rows = feed_rows authorID (tables s) (page limit offset le clauses (tables s)).
Proof.
  intros Hlit Hfl. destruct s as [d fl n]. simpl in *. subst fl.
  unfold FetchAllPost, repo_try, repo_bind, Begin, Query, Commit, attempt, repo_ret,
    feed_query.
  simpl. rewrite Hlit. destruct (order_term orderBy) as [le|]; [|done]. simpl.
  destruct (scan_rows _ [] _) as [[e|posts] s'] eqn:Hs; [done|].
  apply scan_rows_inr_no_failure in Hs as (got & Hgot & -> & ->); [|done].
  simpl. intros [= <-]. exists le. split; [done|]. by apply scanned_all in Hgot.
Qed.

(** Stored values that fit pass [Scan]. *)
Lemma user_posts_batch_fits clauses d up :
  int32_columns d → up ∈ user_posts clauses d →
  NullInt32.fits (NullInt32.of_option (UserPost.author_batch up)) = true.
Proof.
  intros [Hb _] (r & Hr & ->)%elem_of_select_group_by.
  apply elem_of_List_filter in Hr as [Hr _].
  destruct r as [[[[[p cc] u] [ud|]] pl] q]; [|done]. simpl.
  apply elem_of_left_join in Hr as [Hr _].
  apply elem_of_left_join in Hr as [Hr _].
  apply elem_of_left_join in Hr as [_ [Hud _]].
  rewrite Forall_forall in Hb. by apply Hb.
Qed.

Lemma page_origin limit offset le clauses d up :
  up ∈ page limit offset le clauses d → up ∈ user_posts clauses d.
Proof.
  intros Hup. rewrite <- (sorted_posts_Permutation le).
  eapply (sublist_subseteq _ _ (limit_offset_sublist limit offset _)). exact Hup.
Qed.

Lemma feed_rows_fit authorID limit offset le clauses d :
  int32_columns d →
  scan_detail <$> feed_rows authorID d (page limit offset le clauses d)
  = inr <$> feed_rows authorID d (page limit offset le clauses d).
Proof.
  intros Hfit. apply list_fmap_ext. intros i r Hr%list_elem_of_lookup_2.
  unfold feed_rows in Hr.
  apply list_elem_of_fmap in Hr as ([up pi] & -> & Hup).
  apply elem_of_left_join in Hup as [Hup Hpi].
  apply page_origin in Hup. unfold scan_detail. simpl.
  rewrite (user_posts_batch_fits clauses d up) by done.
  destruct pi as [i'|]; [|done]. destruct Hpi as [Hi _].
  destruct Hfit as [_ Hi']. rewrite Forall_forall in Hi'.
  change (PostImage.id <$> Some i') with (Some (PostImage.id i')).
  by rewrite (Hi' i' Hi).
Qed.

Lemma FetchAllPost_no_failure limit offset authorID orderBy clauses le s :
  forallb literal_clause clauses = true →
  failures s = [] →
  order_term orderBy = Some le →
  int32_columns (tables s) →
  FetchAllPost limit offset authorID orderBy clauses s
  = (inr (feed_rows authorID (tables s) (page limit offset le clauses (tables s))), s).
Proof.
  intros Hlit Hfl Hle Hfit.
  unfold FetchAllPost, repo_try, repo_bind, Begin, Query, Commit, attempt, repo_ret, feed_query.
  destruct s as [d fl n]. simpl in *. subst fl. simpl. rewrite Hlit, Hle. simpl.
  rewrite feed_rows_fit by done. by rewrite scan_rows_no_failure.
Qed.

(** A step that fails while the rows are read: the first [k] rows come
    back with a nil error. *)
Lemma FetchAllPost_failed_step limit offset authorID orderBy clauses le d n e (k : nat) :
  forallb literal_clause clauses = true →
  order_term orderBy = Some le →
  int32_columns d →
  (k ≤ length (feed_rows authorID d (page limit offset le clauses d)))%nat →
  FetchAllPost limit offset authorID orderBy clauses
    (mkStore d (None :: None :: replicate k None ++ [Some e]) n)
  = (inr (take k (feed_rows authorID d (page limit offset le clauses d))),
     mkStore d [] n).
Proof.
  intros Hlit Hle Hfit Hk.
  unfold FetchAllPost, repo_try. unfold repo_bind at 1. unfold Begin, repo_bind at 1.
  unfold attempt at 1. simpl.
  unfold repo_bind at 1. unfold Query, repo_bind at 1, attempt at 1, repo_ret at 1. simpl.
  unfold feed_query. rewrite Hlit, Hle. simpl. rewrite feed_rows_fit by done.
  unfold repo_bind at 1. by rewrite scan_rows_failed_step.
Qed.

(** The filtered, sorted post set is computed without reading the images. *)
Lemma sorted_posts_ignores_images le clauses d f :
  sorted_posts le clauses (set_post_images f d) = sorted_posts le clauses d.
Proof. reflexivity. Qed.

End ListQueryFacts.

(** C4 (the code departs from it).  For search text that stays a literal.
    On a store that works, the rows [FetchAllPost] returns show exactly the
    posts of the page cut by [LIMIT limit OFFSET offset] out of the
    filtered, sorted post set, in which every post occurs once, whatever
    order SQLite gives to equal keys: for non-negative [limit] and
    [offset], the first [limit] posts after skipping [offset].  Each post
    of the page is shown by one row per image, or by one row when it has
    none, and the same query on tables that differ only in the images
    shows the same posts; it returns rows when every stored batch and
    image id fits int32.  But the row loop never asks [rows.Err]: when the
    driver fails at the step to row [k], [FetchAllPost] returns the first
    [k] rows with a nil error.  The posts shown are then only the first of
    the page, and how many of them depends on the image rows: on the
    sample tables, whose page holds posts 1 and 2, a failure at the third
    step leaves post 1 alone, and posts 1 and 2 once the images are
    removed. *)
Theorem FetchAllPost_failed_step_truncates_page :
  (∀ `{Environment} limit offset authorID orderBy clauses s rows,
     forallb literal_clause clauses = true →
     failures s = [] →
     (FetchAllPost limit offset authorID orderBy clauses s).1 = inr rows →
     ∃ le, order_term orderBy = Some le ∧
       let d := tables s in
       let candidates := sorted_posts le clauses d in
       NoDup (UserPost.id <$> candidates)
       ∧ first_seen (PostDetail.ID <$> rows)
         = UserPost.id <$> limit_offset limit offset candidates
       ∧ (0 ≤ limit → 0 ≤ offset →
          first_seen (PostDetail.ID <$> rows)
          = UserPost.id <$> take (Z.to_nat limit) (drop (Z.to_nat offset) candidates))
       ∧ PostDetail.ID <$> rows
         = limit_offset limit offset candidates
           ≫= (λ up, replicate (Nat.max 1 (length (images_of_post (UserPost.id up) d)))
                               (UserPost.id up))
       ∧ (∀ images now' rows',
            (FetchAllPost limit offset authorID orderBy clauses
               (mkStore (set_post_images (λ _, images) d) [] now')).1 = inr rows' →
            first_seen (PostDetail.ID <$> rows') = first_seen (PostDetail.ID <$> rows)))
  ∧ (∀ `{Environment} limit offset authorID orderBy clauses s,
       forallb literal_clause clauses = true →
       failures s = [] →
       is_Some (order_term orderBy) →
       int32_columns (tables s) →
       ∃ rows, (FetchAllPost limit offset authorID orderBy clauses s).1 = inr rows)
  ∧ (∀ `{Environment} limit offset authorID orderBy clauses le d n e (k : nat),
       forallb literal_clause clauses = true →
       order_term orderBy = Some le →
       int32_columns d →
       (k ≤ length (feed_rows authorID d (page limit offset le clauses d)))%nat →
       (FetchAllPost limit offset authorID orderBy clauses
          (mkStore d (None :: None :: replicate k None ++ [Some e]) n)).1
       = inr (take k (feed_rows authorID d (page limit offset le clauses d))))
  ∧ (UserPost.id
       <$> page (H := sample_env) 20 0
             (λ a b, UserPost.created_at a <=? UserPost.created_at b) [] sample_db
     = [1; 2]
     ∧ (∃ rows,
          (FetchAllPost (H := sample_env) 20 0 7 "created_at" []
             (mkStore sample_db
                [None; None; None; None; Some (ErrOther "database is locked")] 1000)).1
          = inr rows
          ∧ first_seen (PostDetail.ID <$> rows) = [1])
     ∧ (∃ rows,
          (FetchAllPost (H := sample_env) 20 0 7 "created_at" []
             (mkStore (set_post_images (λ _, []) sample_db)
                [None; None; None; None; Some (ErrOther "database is locked")] 1000)).1
          = inr rows
          ∧ first_seen (PostDetail.ID <$> rows) = [1; 2])).
Proof.
  split_and!.
  - intros H limit offset authorID orderBy clauses s rows Hlit Hfl Hrows.
    apply FetchAllPost_inr_no_failure in Hrows as (le & Hle & ->); [|done..].
    exists le. split; [done|]. simpl.
    assert (first_seen
              (PostDetail.ID <$>
                 feed_rows authorID (tables s) (page limit offset le clauses (tables s)))
            = UserPost.id <$> limit_offset limit offset (sorted_posts le clauses (tables s)))
      as Hids by apply feed_rows_distinct_ids, page_NoDup.
    split_and!.
    + apply sorted_posts_NoDup.
    + done.
    + intros Hl Ho. rewrite Hids. unfold limit_offset.
      by rewrite (proj2 (Z.ltb_ge limit 0)).
    + apply feed_rows_ids.
    + intros images n' rows' Hrows'.
      apply FetchAllPost_inr_no_failure in Hrows' as (le' & Hle' & ->); [|done..].
      assert (le' = le) as -> by congruence. simpl.
      rewrite Hids. apply feed_rows_distinct_ids, page_NoDup.
  - intros H limit offset authorID orderBy clauses s Hlit Hfl [le Hle] Hfit.
    erewrite FetchAllPost_no_failure by done. eauto.
  - intros H limit offset authorID orderBy clauses le d n e k Hlit Hle Hfit Hk.
    by rewrite (FetchAllPost_failed_step _ _ _ _ _ le).
  - reflexivity.
  - eexists. split; reflexivity.
  - eexists. split; reflexivity.
Qed.

Lemma FetchAllPost_failed_step_truncates_page_witness :
  (FetchAllPost (H := sample_env) 20 0 7 "created_at" []
     (mkStore sample_db [None; None; None; None; Some (ErrOther "database is locked")]
        1000)).1
  = inr (take 2 (feed_rows 7 sample_db
                   (page (H := sample_env) 20 0
                      (λ a b, UserPost.created_at a <=? UserPost.created_at b) []
                      sample_db))).
Proof.
  destruct FetchAllPost_failed_step_truncates_page as (_ & _ & Hstep & _).
  apply (Hstep sample_env 20 0 7 "created_at" []
           (λ a b, UserPost.created_at a <=? UserPost.created_at b)
           sample_db 1000 (ErrOther "database is locked") 2%nat);
    [reflexivity|reflexivity| |simpl; lia].
  split; by apply (bool_decide_unpack _).
Defined.

(** ** The detail query *)

Lemma handler_bind_next {S A B} (h : Handler S A) (k : A → Handler S B) c a c' :
  h c = (Next a, c') → handler_bind h k c = k a c'.
Proof. unfold handler_bind. by intros ->. Qed.

Lemma handler_bind_returned {S A B} (h : Handler S A) (k : A → Handler S B) c c' :
  h c = (Returned, c') → handler_bind h k c = (Returned, c').
Proof. unfold handler_bind. by intros ->. Qed.

Section DetailFacts.
Context `{Environment}.

Lemma detail_query_fit postID authorID d :
  int32_columns d →
  scan_detail <$> detail_query postID authorID d = inr <$> detail_query postID authorID d.
Proof.
  intros [Hb Hi]. rewrite Forall_forall in Hb. rewrite Forall_forall in Hi.
  apply list_fmap_ext. intros i r Hr%list_elem_of_lookup_2.
  unfold detail_query in Hr.
  apply list_elem_of_fmap in Hr as ([[[p u] ud] pi] & -> & Hr).
  apply elem_of_List_filter in Hr as [Hr _].
  apply elem_of_left_join in Hr as [Hr Hpi].
  apply elem_of_left_join in Hr as [_ Hud].
  unfold scan_detail. simpl.
  assert (NullInt32.fits (NullInt32.of_option (ud ≫= UserDetail.batch)) = true) as ->.
  { destruct ud as [ud|]; [|done]. destruct Hud as [Hud _]. by apply Hb. }
  destruct pi as [i'|]; [|done]. destruct Hpi as [Hi' _].
  change (PostImage.id <$> Some i') with (Some (PostImage.id i')).
  by rewrite (Hi i' Hi').
Qed.

Lemma FetchPostByID_no_failure postID authorID s :
  failures s = [] →
  int32_columns (tables s) →
  FetchPostByID postID authorID s = (inr (detail_query postID authorID (tables s)), s).
Proof.
  intros Hfl Hfit. destruct s as [d fl n]. simpl in *. subst fl.
  unfold FetchPostByID, repo_try, repo_bind, Begin, Query, Commit, attempt, repo_ret. simpl.
  rewrite detail_query_fit by done. by rewrite scan_rows_no_failure.
Qed.

(** No post row with the id: the result set is empty. *)
Lemma detail_query_absent postID authorID d :
  (∀ p, p ∈ posts d → Post.id p ≠ postID) → detail_query postID authorID d = [].
Proof.
  intros Hno. unfold detail_query. rewrite List_filter_nil; [done|].
  intros [[[p u] ud] pi] [[Hin _]%elem_of_left_join _]%elem_of_left_join.
  apply elem_of_inner_join in Hin as (Hp & _). simpl.
  apply bool_decide_eq_false. by apply Hno.
Qed.

Lemma FetchPostByID_absent postID authorID s :
  failures s = [] →
  (∀ p, p ∈ posts (tables s) → Post.id p ≠ postID) →
  FetchPostByID postID authorID s = (inr [], s).
Proof.
  intros Hfl Hno. destruct s as [d fl n]. simpl in *. subst fl.
  unfold FetchPostByID, repo_try, repo_bind, Begin, Query, Commit, attempt, repo_ret. simpl.
  by rewrite detail_query_absent.
Qed.

(** The driver fails at the first step of the rows: the loop ends at once
    and the function returns no post and a nil error, whatever the tables
    hold. *)
Lemma FetchPostByID_failed_first_step postID authorID d e n :
  FetchPostByID postID authorID (mkStore d [None; None; Some e] n)
  = (inr [], mkStore d [] n).
Proof.
  unfold FetchPostByID, repo_try, repo_bind, Begin, Query, Commit, attempt, repo_ret. simpl.
  by destruct (scan_detail <$> detail_query postID authorID d) as [|[err|post] rest].
Qed.

(** A failure of [Begin] or of [tx.Query] is returned. *)
Lemma FetchPostByID_failed_call postID authorID s e :
  failures s = [Some e] ∨ failures s = [None; Some e] →
  (FetchPostByID postID authorID s).1 = inl e.
Proof.
  destruct s as [d fl n]. simpl. by intros [-> | ->].
Qed.

(** A post row with its author and no image row: the result set is not
    empty and its first row has null image columns. *)
Lemma detail_query_no_images postID authorID d p u :
  p ∈ posts d → Post.id p = postID →
  u ∈ users d → User.id u = Post.author_id p →
  images_of_post postID d = [] →
  ∃ post0 rest,
    detail_query postID authorID d = post0 :: rest
    ∧ PostDetail.ID post0 = postID
    ∧ NullInt32.Valid (PostDetail.ImageID post0) = false.
Proof.
  intros Hp Hid Hu Hau Himg. unfold detail_query.
  assert ((p, u) ∈ inner_join (λ p u, bool_decide (Post.author_id p = User.id u))
                              (posts d) (users d)) as Hpu.
  { apply elem_of_inner_join. split_and!; try done. by apply bool_decide_eq_true. }
  eapply left_join_covers in Hpu as [ud Hud].
  eapply left_join_covers in Hud as [pi Hpi].
  match goal with
  | |- ∃ _ _, _ <$> List.filter ?f ?l = _ ∧ _ =>
      destruct (List.filter f l) as [|r rows] eqn:Hf
  end.
  { assert ((p, u, ud, pi) ∈ @nil (Post.t * User.t * option UserDetail.t * option PostImage.t))
      as Hc; [|by apply not_elem_of_nil in Hc].
    rewrite <- Hf. apply elem_of_List_filter. split; [exact Hpi|].
    by apply bool_decide_eq_true. }
  assert (r ∈ r :: rows) as Hr by left. rewrite <- Hf in Hr.
  apply elem_of_List_filter in Hr as [Hr Hrid].
  apply bool_decide_eq_true in Hrid.
  destruct r as [[[p' u'] ud'] [i|]]; simpl in *.
  - apply elem_of_left_join in Hr as [_ [Hi Hon]]. simpl in Hon.
    apply bool_decide_eq_true in Hon.
    assert (i ∈ images_of_post postID d) as Hc.
    { apply list_elem_of_filter. split; [congruence|done]. }
    rewrite Himg in Hc. by apply not_elem_of_nil in Hc.
  - eexists _, _. split; [reflexivity|]. done.
Qed.

Lemma count_no_failure s :
  failures s = [] →
  (∀ postID, ∃ n, CountComment postID s = (inr n, s))
  ∧ (∀ postID, ∃ n, CountPostLike postID s = (inr n, s)).
Proof.
  intros Hfl. destruct s as [d fl n]. simpl in *. subst fl.
  split; intros postID; eexists; reflexivity.
Qed.

(** What [readPost] makes of the outcome of [FetchPostByID]. *)
Lemma readPost_not_found (ctx : Request unit) (c : Ctx Store) postID :
  strconv.Atoi (Param ctx "id") = Some postID →
  let authorID := match Token ctx with Resolved id | Rejected id _ => id | Panics => 0 end in
  let fetched := FetchPostByID postID authorID (store c) in
  fetched.1 = inr [] →
  readPost ctx c
  = (Returned,
     mkCtx fetched.2
           (written c
            ++ [mkResponse http.StatusNotFound (ErrorPostResponse "Post Not Found")])).
Proof.
  intros Hid authorID fetched He. unfold readPost, handler_bind.
  rewrite getUserIDAvoidPanic_value, Hid.
  unfold call. fold authorID. fold fetched. simpl.
  destruct fetched as [r s]. simpl in He. by rewrite He.
Qed.

Lemma readPost_store_error (ctx : Request unit) (c : Ctx Store) postID e :
  strconv.Atoi (Param ctx "id") = Some postID →
  let authorID := match Token ctx with Resolved id | Rejected id _ => id | Panics => 0 end in
  let fetched := FetchPostByID postID authorID (store c) in
  fetched.1 = inl e →
  readPost ctx c
  = (Returned,
     mkCtx fetched.2
           (written c
            ++ [mkResponse http.StatusInternalServerError
                  (ErrorPostResponse "Internal Server Error")])).
Proof.
  intros Hid authorID fetched He. unfold readPost, handler_bind.
  rewrite getUserIDAvoidPanic_value, Hid.
  unfold call. fold authorID. fold fetched. simpl.
  destruct fetched as [r s]. simpl in He. by rewrite He.
Qed.

End DetailFacts.

(** C5 (the code departs from it).  [readPost] answers an empty result of
    [FetchPostByID] with 404 "Post Not Found" and an error with 500.  On a
    store that works an id that no post row has gives the empty result,
    and a post that exists with its author and has no image row gives 200
    with an allocated empty image list (when the stored batches fit
    int32).  A failure of [Begin] or of [tx.Query] gives the error.  But
    the row loop never asks [rows.Err]: when the driver fails at the first
    step of the rows, [FetchPostByID] returns the empty result with a nil
    error, whatever the tables hold, and [readPost] answers 404 for a post
    that exists: a store error is taken for a missing post.
    [ReadAllQuestionnaireByID] maps what its repository returns likewise:
    the zero questionnaire with a nil error gives 400
    "No data with given id", an error 500, anything else 200. *)
Theorem readPost_failed_step_is_not_found :
  (∀ `{Environment} (ctx : Request unit) (c : Ctx Store) postID,
     strconv.Atoi (Param ctx "id") = Some postID →
     let authorID :=
       match Token ctx with Resolved id | Rejected id _ => id | Panics => 0 end in
     let fetched := FetchPostByID postID authorID (store c) in
     (fetched.1 = inr [] →
      readPost ctx c
      = (Returned,
         mkCtx fetched.2
               (written c
                ++ [mkResponse http.StatusNotFound (ErrorPostResponse "Post Not Found")])))
     ∧ (∀ e, fetched.1 = inl e →
        readPost ctx c
        = (Returned,
           mkCtx fetched.2
                 (written c
                  ++ [mkResponse http.StatusInternalServerError
                        (ErrorPostResponse "Internal Server Error")])))
     ∧ (failures (store c) = [] →
        (∀ p, p ∈ posts (tables (store c)) → Post.id p ≠ postID) →
        fetched.1 = inr [])
     ∧ (failures (store c) = [] →
        int32_columns (tables (store c)) →
        ∀ p u,
          p ∈ posts (tables (store c)) → Post.id p = postID →
          u ∈ users (tables (store c)) → User.id u = Post.author_id p →
          images_of_post postID (tables (store c)) = [] →
          ∃ detail,
            readPost ctx c
            = (Next tt,
               mkCtx (store c)
                     (written c ++ [mkResponse http.StatusOK (PostDetailResponse detail)]))
            ∧ DetailPostResponse.Images detail = Make []
            ∧ PostResponse.ID (DetailPostResponse.Post detail) = postID)
     ∧ (∀ e, failures (store c) = [Some e] ∨ failures (store c) = [None; Some e] →
        fetched.1 = inl e)
     ∧ (∀ e, failures (store c) = [None; None; Some e] →
        fetched.1 = inr []
        ∧ readPost ctx c
          = (Returned,
             mkCtx (mkStore (tables (store c)) [] (now (store c)))
                   (written c
                    ++ [mkResponse http.StatusNotFound
                          (ErrorPostResponse "Post Not Found")]))))
  ∧ (∀ S (R : questionnaireRepo.t S) (ctx : Request unit) (c : Ctx S) postID userID,
       strconv.Atoi (Param ctx "id") = Some postID →
       optional_user ctx c = (Next userID, c) →
       let found := questionnaireRepo.ReadAllQuestionnaireByID userID postID (store c) in
       (found.1.2 = None → found.1.1 = Questionnaire.zero →
        ReadAllQuestionnaireByID ctx c
        = (Returned,
           mkCtx found.2
                 (written c
                  ++ [mkResponse http.StatusBadRequest
                        (ErrorPostResponse "No data with given id")])))
       ∧ (∀ err, found.1.2 = Some err →
          ReadAllQuestionnaireByID ctx c
          = (Returned,
             mkCtx found.2
                   (written c
                    ++ [mkResponse http.StatusInternalServerError
                          (ErrorPostResponse (Error err))])))
       ∧ (found.1.2 = None → found.1.1 ≠ Questionnaire.zero →
          ReadAllQuestionnaireByID ctx c
          = (Next tt,
             mkCtx found.2
                   (written c
                    ++ [mkResponse http.StatusOK (QuestionnaireResponse found.1.1)])))).
Proof.
  split.
  - intros H ctx c postID Hid authorID fetched.
    pose proof (readPost_not_found ctx c postID Hid) as Hnf.
    split_and!.
    + apply Hnf.
    + intros e. by apply readPost_store_error.
    + intros Hfl Hno. subst fetched. by rewrite FetchPostByID_absent.
    + intros Hfl Hfit p u Hp Hpid Hu Hau Himg.
      destruct (detail_query_no_images postID authorID (tables (store c)) p u)
        as (post0 & rest & Hq & Hq0 & Hnull); try done.
      destruct (count_no_failure (store c) Hfl) as [Hcc Hcl].
      destruct (Hcc postID) as [commentCount Hcomment].
      destruct (Hcl postID) as [likeCount Hlike].
      eexists. split.
      * unfold readPost, handler_bind. rewrite getUserIDAvoidPanic_value, Hid.
        unfold call. fold authorID. simpl.
        rewrite FetchPostByID_no_failure by done. simpl. rewrite Hq. simpl.
        rewrite Hcomment. simpl. rewrite Hlike. simpl. rewrite Hnull.
        unfold JSON. simpl. reflexivity.
      * done.
    + intros e. apply FetchPostByID_failed_call.
    + intros e Hfl.
      assert (fetched = (inr [], mkStore (tables (store c)) [] (now (store c)))) as Hf.
      { subst fetched. destruct (store c) as [d fl n]. simpl in *. subst fl.
        apply FetchPostByID_failed_first_step. }
      split; [by rewrite Hf|].
      simpl in Hnf. fold authorID in Hnf. fold fetched in Hnf.
      rewrite Hnf; by rewrite Hf.
  - intros S R ctx c postID userID Hid Huser found.
    unfold ReadAllQuestionnaireByID. rewrite Hid.
    rewrite (handler_bind_next _ _ _ _ _ Huser).
    unfold handler_bind, call. subst found.
    destruct (questionnaireRepo.ReadAllQuestionnaireByID userID postID (store c))
      as [[q err] s].
    simpl. split_and!.
    + intros -> ->. by rewrite decide_True.
    + by intros e ->.
    + intros -> Hq. by rewrite decide_False.
Qed.

Lemma readPost_failed_step_is_not_found_witness :
  written (readPost (H := sample_env) (get_request [("id", "2")] [] Panics)
             (sample_ctx [None; None; Some (ErrOther "database is locked")])).2
  = [mkResponse 404 (ErrorPostResponse "Post Not Found")]
  ∧ written (readPost (H := sample_env) (get_request [("id", "9")] [] Panics)
               (sample_ctx [])).2
    = [mkResponse 404 (ErrorPostResponse "Post Not Found")]
  ∧ Status <$> written (readPost (H := sample_env) (get_request [("id", "2")] [] Panics)
                          (sample_ctx [Some (ErrOther "database is locked")])).2 = [500]
  ∧ (∃ detail,
       written (readPost (H := sample_env) (get_request [("id", "2")] [] Panics)
                  (sample_ctx [])).2
       = [mkResponse 200 (PostDetailResponse detail)]
       ∧ DetailPostResponse.Images detail = Make [])
  ∧ Status <$> written (ReadAllQuestionnaireByID (repo := sample_questionnaireRepo)
                          (get_request [("id", "9")] [] Panics)
                          (mkCtx sample_questionnaires [])).2 = [400].
Proof.
  destruct readPost_failed_step_is_not_found as [Hpost Hq].
  split_and!.
  - destruct (Hpost sample_env (get_request [("id", "2")] [] Panics)
                (sample_ctx [None; None; Some (ErrOther "database is locked")]) 2 eq_refl)
      as (_ & _ & _ & _ & _ & Hstep).
    destruct (Hstep (ErrOther "database is locked") eq_refl) as [_ Hr].
    by rewrite Hr.
  - destruct (Hpost sample_env (get_request [("id", "9")] [] Panics) (sample_ctx []) 9
                eq_refl) as (Hnf & _ & Habsent & _).
    rewrite Hnf; [reflexivity|]. apply Habsent; [reflexivity|].
    intros p Hp. repeat (apply elem_of_cons in Hp as [->|Hp]; [discriminate|]).
    by apply not_elem_of_nil in Hp.
  - destruct (Hpost sample_env (get_request [("id", "2")] [] Panics)
                (sample_ctx [Some (ErrOther "database is locked")]) 2 eq_refl)
      as (_ & Herr & _).
    rewrite (Herr (ErrOther "database is locked")); reflexivity.
  - destruct (Hpost sample_env (get_request [("id", "2")] [] Panics) (sample_ctx []) 2
                eq_refl) as (_ & _ & _ & Hok & _).
    destruct (Hok eq_refl) with (p := Post.mk 2 8 2 "world" "second" 200)
                                (u := User.mk 8 "bob" "student" (Some "bob.png"))
      as (detail & Hd & Himg & _); try reflexivity.
    + split; by apply (bool_decide_unpack _).
    + right. left.
    + right. left.
    + exists detail. rewrite Hd. done.
  - destruct (Hq _ sample_questionnaireRepo (get_request [("id", "9")] [] Panics)
                (mkCtx sample_questionnaires []) 9 (-1) eq_refl eq_refl) as (Hnf & _).
    rewrite Hnf; reflexivity.
Defined.

(** ** Ownership *)

Lemma FetchAuthorIDByPostID_absent postID s :
  failures s = [] →
  (∀ p, p ∈ posts (tables s) → Post.id p ≠ postID) →
  FetchAuthorIDByPostID postID s = (inl ErrPostNotFound, s).
Proof.
  intros Hfl Hno. destruct s as [d fl n]. simpl in *. subst fl.
  unfold FetchAuthorIDByPostID, repo_try, repo_bind, Begin, Query, attempt, repo_ret. simpl.
  rewrite List_filter_nil; [done|].
  intros p Hp. apply bool_decide_eq_false. by apply Hno.
Qed.

Lemma FetchAuthorIDByPostID_present postID s :
  failures s = [] →
  (∃ p, p ∈ posts (tables s) ∧ Post.id p = postID) →
  ∃ p, p ∈ posts (tables s) ∧ Post.id p = postID
       ∧ FetchAuthorIDByPostID postID s = (inr (Post.author_id p), s).
Proof.
  intros Hfl (p & Hp & Hid). destruct s as [d fl n]. simpl in *. subst fl.
  unfold FetchAuthorIDByPostID, repo_try, repo_bind, Begin, Query, Commit, attempt, repo_ret.
  simpl.
  destruct (List.filter _ (posts d)) as [|p0 rest] eqn:Hf.
  - assert (p ∈ List.filter (λ p, bool_decide (Post.id p = postID)) (posts d)) as Hc.
    { apply elem_of_List_filter. split; [done|]. by apply bool_decide_eq_true. }
    rewrite Hf in Hc. by apply not_elem_of_nil in Hc.
  - assert (p0 ∈ List.filter (λ p, bool_decide (Post.id p = postID)) (posts d)) as Hp0
      by (rewrite Hf; left).
    apply elem_of_List_filter in Hp0 as [Hp0 Hid0%bool_decide_eq_true].
    exists p0. done.
Qed.

Lemma check_post_owner_not_found postID reqAuthorID (c : Ctx Store) :
  failures (store c) = [] →
  (∀ p, p ∈ posts (tables (store c)) → Post.id p ≠ postID) →
  check_post_owner postID reqAuthorID c
  = (Returned,
     mkCtx (store c)
           (written c ++ [mkResponse http.StatusNotFound (ErrorPostResponse "Post Not Found")])).
Proof.
  intros Hfl Hno. unfold check_post_owner, handler_bind, call.
  by rewrite FetchAuthorIDByPostID_absent.
Qed.

Lemma check_post_owner_forbidden postID reqAuthorID (c : Ctx Store) :
  failures (store c) = [] →
  (∃ p, p ∈ posts (tables (store c)) ∧ Post.id p = postID) →
  (∀ p, p ∈ posts (tables (store c)) → Post.id p = postID →
        Post.author_id p ≠ reqAuthorID) →
  check_post_owner postID reqAuthorID c
  = (Returned,
     mkCtx (store c)
           (written c ++ [mkResponse http.StatusForbidden (ErrorPostResponse "Forbidden")])).
Proof.
  intros Hfl Hex Hother. unfold check_post_owner, handler_bind, call.
  destruct (FetchAuthorIDByPostID_present postID (store c) Hfl Hex) as (p & Hp & Hid & ->).
  simpl. rewrite decide_True by (by apply Hother). done.
Qed.

Lemma check_questionnaire_owner_cases {S} {repo : questionnaireRepo.t S}
    userID postID (c : Ctx S) :
  let found := questionnaireRepo.ReadAllQuestionnaireByID userID postID (store c) in
  found.1.2 = None →
  (found.1.1 = Questionnaire.zero →
   check_questionnaire_owner userID postID c
   = (Returned,
      mkCtx found.2
            (written c
             ++ [mkResponse http.StatusBadRequest (ErrorPostResponse "No data with given id")])))
  ∧ (found.1.1 ≠ Questionnaire.zero →
     Questionnaire.AuthorId found.1.1 ≠ userID →
     check_questionnaire_owner userID postID c
     = (Returned,
        mkCtx found.2
              (written c
               ++ [mkResponse http.StatusForbidden (ErrorPostResponse "You are not the owner")]))).
Proof.
  intros found. subst found. unfold check_questionnaire_owner, handler_bind, call.
  destruct (questionnaireRepo.ReadAllQuestionnaireByID userID postID (store c))
    as [[q err] s].
  simpl. intros ->. split.
  - intros ->. by rewrite decide_True.
  - intros Hq Ha. by rewrite decide_False, decide_True.
Qed.

Lemma required_user_resolved {S B} (c : Request B) (x : Ctx S) id :
  Token c = Resolved id → required_user c x = (Next id, x).
Proof.
  intros Htok. unfold required_user, handler_bind, getUserIdFromToken. by rewrite Htok.
Qed.

Section OwnershipFacts.
Context `{Environment}.

(** C6.  [updatePost] and [deletePost], for a caller whose identity is
    resolved and a store that works: when no post has the target id the
    answer is the 404 response "Post Not Found", whoever the caller is;
    when the post exists and its author is not the caller the answer is the
    403 response; in both cases the store is left as it was.
    [UpdateQuestionnaire] (for a body that binds and passes moderation) and
    [DeleteQuestionnaire] likewise, with the store's zero questionnaire
    standing for a missing target and the 400 response
    "No data with given id": the test for a missing target comes before
    the owner test, and neither the update nor the delete method is
    called. *)
Theorem not_found_before_forbidden :
  (∀ (ctx : Request UpdatePostRequest.t) (c : Ctx Store) req userID,
     Bound ctx = inr req →
     Token ctx = Resolved userID →
     failures (store c) = [] →
     ((∀ p, p ∈ posts (tables (store c)) → Post.id p ≠ UpdatePostRequest.ID req) →
      updatePost ctx c
      = (Returned,
         mkCtx (store c)
               (written c
                ++ [mkResponse http.StatusNotFound (ErrorPostResponse "Post Not Found")])))
     ∧ ((∃ p, p ∈ posts (tables (store c)) ∧ Post.id p = UpdatePostRequest.ID req) →
        (∀ p, p ∈ posts (tables (store c)) → Post.id p = UpdatePostRequest.ID req →
              Post.author_id p ≠ userID) →
        updatePost ctx c
        = (Returned,
           mkCtx (store c)
                 (written c
                  ++ [mkResponse http.StatusForbidden (ErrorPostResponse "Forbidden")]))))
  ∧ (∀ (ctx : Request unit) (c : Ctx Store) postID userID,
       strconv.Atoi (Param ctx "id") = Some postID →
       Token ctx = Resolved userID →
       failures (store c) = [] →
       ((∀ p, p ∈ posts (tables (store c)) → Post.id p ≠ postID) →
        deletePost ctx c
        = (Returned,
           mkCtx (store c)
                 (written c
                  ++ [mkResponse http.StatusNotFound (ErrorPostResponse "Post Not Found")])))
       ∧ ((∃ p, p ∈ posts (tables (store c)) ∧ Post.id p = postID) →
          (∀ p, p ∈ posts (tables (store c)) → Post.id p = postID →
                Post.author_id p ≠ userID) →
          deletePost ctx c
          = (Returned,
             mkCtx (store c)
                   (written c
                    ++ [mkResponse http.StatusForbidden (ErrorPostResponse "Forbidden")]))))
  ∧ (∀ S (repo : questionnaireRepo.t S) (ctx : Request UpdateQuestionnaireRequest.t)
       (c : Ctx S) req userID,
       Bound ctx = inr req →
       Validate (UpdateQuestionnaireRequest.Title req) = true →
       Validate (UpdateQuestionnaireRequest.Description req) = true →
       Token ctx = Resolved userID →
       let found :=
         questionnaireRepo.ReadAllQuestionnaireByID
           userID (UpdateQuestionnaireRequest.ID req) (store c) in
       found.1.2 = None →
       (found.1.1 = Questionnaire.zero →
        UpdateQuestionnaire ctx c
        = (Returned,
           mkCtx found.2
                 (written c
                  ++ [mkResponse http.StatusBadRequest
                        (ErrorPostResponse "No data with given id")])))
       ∧ (found.1.1 ≠ Questionnaire.zero →
          Questionnaire.AuthorId found.1.1 ≠ userID →
          UpdateQuestionnaire ctx c
          = (Returned,
             mkCtx found.2
                   (written c
                    ++ [mkResponse http.StatusForbidden
                          (ErrorPostResponse "You are not the owner")]))))
  ∧ (∀ S (repo : questionnaireRepo.t S) (ctx : Request unit) (c : Ctx S) postID userID,
       strconv.Atoi (Param ctx "id") = Some postID →
       Token ctx = Resolved userID →
       let found := questionnaireRepo.ReadAllQuestionnaireByID userID postID (store c) in
       found.1.2 = None →
       (found.1.1 = Questionnaire.zero →
        DeleteQuestionnaire ctx c
        = (Returned,
           mkCtx found.2
                 (written c
                  ++ [mkResponse http.StatusBadRequest
                        (ErrorPostResponse "No data with given id")])))
       ∧ (found.1.1 ≠ Questionnaire.zero →
          Questionnaire.AuthorId found.1.1 ≠ userID →
          DeleteQuestionnaire ctx c
          = (Returned,
             mkCtx found.2
                   (written c
                    ++ [mkResponse http.StatusForbidden
                          (ErrorPostResponse "You are not the owner")])))).
Proof.
  split_and!.
  - intros ctx c req userID Hb Htok Hfl.
    assert (∀ r, check_post_owner (UpdatePostRequest.ID req) userID c = (Returned, r) →
                 updatePost ctx c = (Returned, r)) as Hstep.
    { intros r Hr. unfold updatePost. rewrite Hb.
      unfold handler_bind at 1. unfold getUserIdFromToken. rewrite Htok. simpl.
      unfold handler_bind at 1. unfold skip, handler_ret.
      by rewrite (handler_bind_returned _ _ _ _ Hr). }
    split.
    + intros Hno. by apply Hstep, check_post_owner_not_found.
    + intros Hex Hother. by apply Hstep, check_post_owner_forbidden.
  - intros ctx c postID userID Hid Htok Hfl.
    assert (∀ r, check_post_owner postID userID c = (Returned, r) →
                 deletePost ctx c = (Returned, r)) as Hstep.
    { intros r Hr. unfold deletePost. rewrite Hid.
      unfold handler_bind at 1. unfold getUserIdFromToken. rewrite Htok. simpl.
      unfold handler_bind at 1. unfold skip, handler_ret.
      by rewrite (handler_bind_returned _ _ _ _ Hr). }
    split.
    + intros Hno. by apply Hstep, check_post_owner_not_found.
    + intros Hex Hother. by apply Hstep, check_post_owner_forbidden.
  - intros S repo ctx c req userID Hb Ht Hd Htok found Hnil.
    assert (∀ r, check_questionnaire_owner userID (UpdateQuestionnaireRequest.ID req) c
                 = (Returned, r) →
                 UpdateQuestionnaire ctx c = (Returned, r)) as Hstep.
    { intros r Hr. unfold UpdateQuestionnaire. rewrite Hb, Ht, Hd. simpl.
      rewrite (handler_bind_next _ _ _ _ _ (required_user_resolved ctx c userID Htok)).
      by rewrite (handler_bind_returned _ _ _ _ Hr). }
    destruct (check_questionnaire_owner_cases userID (UpdateQuestionnaireRequest.ID req) c Hnil)
      as [Hnf Hfb].
    split.
    + intros Hz. by apply Hstep, Hnf.
    + intros Hz Ha. by apply Hstep, Hfb.
  - intros S repo ctx c postID userID Hid Htok found Hnil.
    assert (∀ r, check_questionnaire_owner userID postID c = (Returned, r) →
                 DeleteQuestionnaire ctx c = (Returned, r)) as Hstep.
    { intros r Hr. unfold DeleteQuestionnaire. rewrite Hid.
      rewrite (handler_bind_next _ _ _ _ _ (required_user_resolved ctx c userID Htok)).
      by rewrite (handler_bind_returned _ _ _ _ Hr). }
    destruct (check_questionnaire_owner_cases userID postID c Hnil) as [Hnf Hfb].
    split.
    + intros Hz. by apply Hstep, Hnf.
    + intros Hz Ha. by apply Hstep, Hfb.
Qed.

End OwnershipFacts.

(** ** The upload *)

Lemma lock_leak_inv_step postID d e i st st' :
  lock_leak_inv d e st → step_at postID i st = Some st' → lock_leak_inv d e st'.
Proof.
  intros [Hd Hcases]. unfold step_at.
  destruct (goroutines st !! i) as [[file pc]|] eqn:Hi; [|done].
  assert (∀ pc' c m,
    outside_lock pc →
    outside_lock pc' →
    tables (store c) = d →
    (m = mu st ∧ failures (store c) = failures (store (shared st))) →
    lock_leak_inv d e (mkUploading c m (<[i:=(file, pc')]> (goroutines st)))) as Hkeep.
  { intros pc' c m Hpc Hpc' Hc [-> Hfl]. split; [done|]. simpl. rewrite Hfl.
    destruct Hcases as [(Hm & Hf & Hall)|[(Hm & Hf & i0 & f0 & Hi0 & Hothers)|(Hm & Hf & Hall)]].
    - left. split_and!; try done. by apply Forall_insert.
    - right. left. split_and!; try done.
      destruct (decide (i = i0)) as [->|Hne].
      + rewrite Hi in Hi0. injection Hi0 as -> ->. by destruct Hpc as [? _].
      + exists i0, f0. split; [by rewrite list_lookup_insert_ne|].
        intros j g Hj. destruct (decide (j = i)) as [->|Hji].
        * rewrite list_lookup_insert_eq by (by eapply lookup_lt_Some).
          by intros [= <-].
        * rewrite list_lookup_insert_ne by done. by apply Hothers.
    - right. right. split_and!; try done. by apply Forall_insert. }
  assert (pc = AtInsert ∨ pc = AtUnlock → ∃ i0 f0,
            mu st = true ∧ failures (store (shared st)) = [Some e]
            ∧ i0 = i ∧ f0 = file ∧ pc = AtInsert
            ∧ ∀ j g, j ≠ i → goroutines st !! j = Some g → outside_lock g.2) as Hholder.
  { intros Hpc.
    destruct Hcases as [(Hm & Hf & Hall)|[(Hm & Hf & i0 & f0 & Hi0 & Hothers)|(Hm & Hf & Hall)]].
    - rewrite Forall_lookup in Hall. destruct (Hall i _ Hi) as [? ?].
      simpl in *. by destruct Hpc.
    - destruct (decide (i = i0)) as [->|Hne].
      + rewrite Hi in Hi0. injection Hi0 as -> ->. eauto 10.
      + destruct (Hothers i _ Hne Hi) as [? ?]. simpl in *. by destruct Hpc.
    - rewrite Forall_lookup in Hall. destruct (Hall i _ Hi) as [? ?].
      simpl in *. by destruct Hpc. }
  destruct pc; simpl.
  - destruct (Upload.open_err file); intros [= <-]; by apply Hkeep.
  - destruct (Upload.create_err file); intros [= <-]; by apply Hkeep.
  - destruct (Upload.copy_err file); intros [= <-]; by apply Hkeep.
  - destruct (mu st) eqn:Hmu; [done|]. intros [= <-].
    destruct Hcases as [(_ & Hf & Hall)|[(Hm & _)|(Hm & _)]]; try congruence.
    split; [done|]. right. left. simpl. split_and!; try done.
    exists i, file. split.
    + apply list_lookup_insert_eq. by eapply lookup_lt_Some.
    + intros j g Hj. rewrite list_lookup_insert_ne by done.
      intros Hg. rewrite Forall_lookup in Hall. by apply (Hall j g).
  - destruct Hholder as (i0 & f0 & Hm & Hf & _ & _ & _ & Hothers); [by left|].
    destruct (shared st) as [[d0 fl n] w] eqn:Hsh. simpl in *. subst fl d0.
    rewrite InsertPostImage_begin_failure. intros [= <-].
    split; [done|]. right. right. simpl. split_and!; try done.
    apply Forall_lookup. intros j g. destruct (decide (j = i)) as [->|Hji].
    + rewrite list_lookup_insert_eq by (by eapply lookup_lt_Some).
      by intros [= <-].
    + rewrite list_lookup_insert_ne by done. by apply Hothers.
  - destruct Hholder as (? & ? & _ & _ & _ & _ & ? & _); [by right|done].
  - done.
Qed.

Lemma lock_leak_inv_steps postID d e st st' :
  rtc (step postID) st st' → lock_leak_inv d e st → lock_leak_inv d e st'.
Proof.
  induction 1 as [st|st st1 st' [i Hstep] _ IH]; [done|].
  intros Hinv. by eapply IH, lock_leak_inv_step.
Qed.

(** A run under a schedule is a sequence of steps. *)
Lemma run_steps postID schedule : ∀ st, rtc (step postID) st (run postID schedule st).
Proof.
  induction schedule as [|i schedule IH]; intros st; [done|]. simpl.
  destruct (step_at postID i st) as [st'|] eqn:Hs; simpl; [|apply IH].
  eapply rtc_l; [by exists i|apply IH].
Qed.

Lemma lock_leak_inv_spawned files (c : Ctx Store) e :
  failures (store c) = [Some e] →
  lock_leak_inv (tables (store c)) e (spawned files c).
Proof.
  intros Hf. split; [done|]. left. split_and!; try done.
  apply Forall_fmap, Forall_forall. by intros f _.
Qed.

(** C9 (the code departs from it).  When the one failure of an upload is
    the [Begin] of an [InsertPostImage], the goroutine returns with the
    mutex locked: in every state the goroutines can reach, for any number
    of files, the tables are as they were, so no image record is stored for
    any sibling.  With two files the goroutines reach a state with one of
    them finished, the other waiting for the mutex and none able to move:
    the sibling is never recorded, and [wg.Wait] never returns, so the
    handler does not answer. *)
Theorem uploadPostImages_failed_insert_blocks_siblings :
  (∀ postID files (c : Ctx Store) e st,
     failures (store c) = [Some e] →
     rtc (step postID) (spawned files c) st →
     tables (store (shared st)) = tables (store c))
  ∧ (∃ st,
       rtc (step 1)
           (spawned two_files (sample_ctx [Some (ErrOther "database is locked")])) st
       ∧ (snd <$> goroutines st) = [Finished; AtLock]
       ∧ mu st = true
       ∧ stuck 1 st
       ∧ uploadPostImages_end st = None
       ∧ images_of_post 1 (tables (store (shared st))) = images_of_post 1 sample_db
       ∧ written (shared st)
         = [mkResponse http.StatusInternalServerError
              (ErrorPostResponse "database is locked")]).
Proof.
  split.
  - intros postID files c e st Hf Hsteps.
    by destruct (lock_leak_inv_steps postID _ e _ _ Hsteps (lock_leak_inv_spawned files c e Hf)).
  - exists (run 1 [0; 0; 0; 0; 0; 1; 1; 1; 1]%nat
              (spawned two_files (sample_ctx [Some (ErrOther "database is locked")]))).
    split; [apply run_steps|].
    split_and!; try reflexivity.
    intros [|[|i]]; reflexivity.
Qed.

Lemma uploadPostImages_failed_insert_blocks_siblings_witness :
  post_images (tables (store (shared
    (run 1 [1; 1; 1; 1; 1; 0; 0; 0; 0; 0; 1; 0]%nat
       (spawned two_files (sample_ctx [Some (ErrOther "database is locked")]))))))
  = post_images sample_db.
Proof.
  rewrite (proj1 uploadPostImages_failed_insert_blocks_siblings 1 two_files
             (sample_ctx [Some (ErrOther "database is locked")])
             (ErrOther "database is locked") _ eq_refl (run_steps 1 _ _)).
  reflexivity.
Defined.

(** Without any failure both files are recorded, and a failure of the INSERT
    itself (which [InsertPostImage] does not report) leaves the sibling
    unaffected. *)
Example uploadPostImages_two_files_recorded :
  let st := run 1 [0; 0; 0; 0; 0; 0; 1; 1; 1; 1; 1; 1]%nat
                (spawned two_files (sample_ctx [])) in
  all_finished st
  ∧ PostImage.path <$> images_of_post 1 (tables (store (shared st)))
    = ["A"; "B"; "media/post/1-1-a.png"; "media/post/1-2-b.png"].
Proof. split; [|reflexivity]. repeat constructor. Qed.

Example uploadPostImages_unreported_failure_spares_sibling :
  let st := run 1 [0; 0; 0; 0; 0; 0; 1; 1; 1; 1; 1; 1]%nat
                (spawned two_files (sample_ctx [None; Some (ErrOther "disk I/O error")])) in
  all_finished st
  ∧ PostImage.path <$> images_of_post 1 (tables (store (shared st)))
    = ["A"; "B"; "media/post/1-2-b.png"]
  ∧ written (shared st) = [].
Proof. split; [|split; reflexivity]. repeat constructor. Qed.

Lemma not_found_before_forbidden_witness :
  written (deletePost (get_request [("id", "9")] [] (Resolved 8)) (sample_ctx [])).2
  = [mkResponse 404 (ErrorPostResponse "Post Not Found")]
  ∧ deletePost (get_request [("id", "1")] [] (Resolved 8)) (sample_ctx [])
    = (Returned, mkCtx (sample_store []) [mkResponse 403 (ErrorPostResponse "Forbidden")])
  ∧ written (DeleteQuestionnaire (repo := sample_questionnaireRepo)
               (get_request [("id", "9")] [] (Resolved 8))
               (mkCtx sample_questionnaires [])).2
    = [mkResponse 400 (ErrorPostResponse "No data with given id")]
  ∧ DeleteQuestionnaire (repo := sample_questionnaireRepo)
      (get_request [("id", "3")] [] (Resolved 8)) (mkCtx sample_questionnaires [])
    = (Returned,
       mkCtx sample_questionnaires [mkResponse 403 (ErrorPostResponse "You are not the owner")]).
Proof.
  destruct (not_found_before_forbidden (H := sample_env)) as (_ & Hdelete & _ & Hq).
  split_and!.
  - destruct (Hdelete (get_request [("id", "9")] [] (Resolved 8)) (sample_ctx []) 9 8
                eq_refl eq_refl eq_refl) as [Hnf _].
    rewrite Hnf; [reflexivity|].
    intros p Hp. repeat (apply elem_of_cons in Hp as [->|Hp]; [discriminate|]).
    by apply not_elem_of_nil in Hp.
  - destruct (Hdelete (get_request [("id", "1")] [] (Resolved 8)) (sample_ctx []) 1 8
                eq_refl eq_refl eq_refl) as [_ Hfb].
    rewrite Hfb; [reflexivity| |].
    + exists (Post.mk 1 7 1 "hello" "first" 100). split; [left|reflexivity].
    + intros p Hp Hid.
      repeat (apply elem_of_cons in Hp as [->|Hp]; [try discriminate|]).
      by apply not_elem_of_nil in Hp.
  - destruct (Hq _ sample_questionnaireRepo (get_request [("id", "9")] [] (Resolved 8))
                (mkCtx sample_questionnaires []) 9 8 eq_refl eq_refl eq_refl) as [Hnf _].
    rewrite Hnf; reflexivity.
  - destruct (Hq _ sample_questionnaireRepo (get_request [("id", "3")] [] (Resolved 8))
                (mkCtx sample_questionnaires []) 3 8 eq_refl eq_refl eq_refl) as [_ Hfb].
    rewrite Hfb; [reflexivity|discriminate|discriminate].
Defined.

(** ** Listing one's own posts *)

Lemma literal_text_empty : literal_text "" = true.
Proof. reflexivity. Qed.

Section OwnPostsFacts.
Context `{Environment}.

(** The filter of [readPosts] stays what it is built from when the search
    text stays a literal. *)
Lemma post_filter_literal searchTitle category_id me authorID :
  literal_text searchTitle = true →
  forallb literal_clause (post_filter searchTitle category_id me authorID) = true.
Proof.
  intros Hlit. unfold post_filter.
  destruct (decide (searchTitle ≠ "")), (decide (category_id ≠ 0)), me; simpl;
    by rewrite ?Hlit.
Qed.

Lemma user_posts_author clauses d id up :
  AuthorIs id ∈ clauses → up ∈ user_posts clauses d → UserPost.author_id up = id.
Proof.
  intros Hcl (r & Hr & ->)%elem_of_select_group_by.
  apply elem_of_List_filter in Hr as [Hr Hwhere].
  destruct r as [[[[[p cc] u] ud] pl] q]. simpl.
  apply elem_of_left_join in Hr as [Hr _].
  apply elem_of_left_join in Hr as [Hr _].
  apply elem_of_left_join in Hr as [Hr _].
  apply elem_of_inner_join in Hr as (_ & _ & Hjoin%bool_decide_eq_true). simpl in Hjoin.
  unfold where_feed in Hwhere. apply andb_true_iff in Hwhere as [_ Hall].
  rewrite forallb_forall in Hall.
  specialize (Hall (AuthorIs id)). rewrite <- list_elem_of_In in Hall.
  specialize (Hall Hcl). simpl in Hall. apply bool_decide_eq_true in Hall. congruence.
Qed.

Lemma feed_rows_author authorID clauses limit offset le d id r :
  AuthorIs id ∈ clauses →
  r ∈ feed_rows authorID d (page limit offset le clauses d) →
  PostDetail.AuthorID r = id.
Proof.
  intros Hcl. unfold feed_rows.
  intros ([up pi] & -> & [Hup _]%elem_of_left_join)%list_elem_of_fmap. simpl.
  apply (user_posts_author clauses d); [done|]. by eapply page_origin.
Qed.

(** The second half of C2 does hold for [readPosts] when the search text
    stays a literal: with a resolved identity and [me=true], every post of
    a 200 response is by the caller. *)
Lemma readPosts_me_lists_own_posts (ctx : Request unit) (c : Ctx Store) id
    offset limit sortBy category_id code l :
  Token ctx = Resolved id →
  strconv.Atoi (DefaultQuery ctx "offset" "0") = Some offset →
  strconv.Atoi (DefaultQuery ctx "limit" "20") = Some limit →
  post_sort_by (DefaultQuery ctx "sort_by" "newest") = Some sortBy →
  literal_text (DefaultQuery ctx "search_title" "") = true →
  strconv.Atoi (DefaultQuery ctx "category_id" "0") = Some category_id →
  strconv.ParseBool (DefaultQuery ctx "me" "false") = Some true →
  written (readPosts ctx c).2 = written c ++ [mkResponse code (PostsResponse l)] →
  Forall (λ e, AuthorPostResponse.ID (PostResponse.Author (DetailPostResponse.Post e)) = id
               ∧ PostResponse.IsAuthor (DetailPostResponse.Post e) = true) l.
Proof.
  intros Htok Ho Hl Hs Hlit Hc Hm.
  unfold readPosts, handler_bind. rewrite getUserIDAvoidPanic_value, Htok.
  rewrite Ho, Hl, Hs, Hc, Hm. unfold list_posts, handler_bind, call.
  destruct (FetchAllPost _ _ _ _ _ _) as [[e|rows] s] eqn:Hf; simpl.
  { by intros [= ?]%app_inv_head. }
  destruct (decide _); simpl; [by intros [= ?]%app_inv_head|].
  intros [= _ <-]%app_inv_head.
  assert ((FetchAllPost limit offset id sortBy
             (post_filter (DefaultQuery ctx "search_title" "") category_id true id)
             (store c)).1 = inr rows) as Hrows by (by rewrite Hf).
  apply FetchAllPost_inr in Hrows as (le & _ & Hrows); [|by apply post_filter_literal].
  rewrite assemble_grouped. unfold grouped. apply Forall_fmap, Forall_forall.
  intros i Hi%first_seen_elem_of%rows_of_nonempty. simpl.
  destruct (rows_of i rows) as [|r rest] eqn:Hr; [done|]. simpl.
  assert (r ∈ rows) as Hin.
  { assert (r ∈ rows_of i rows) as Hr' by (rewrite Hr; left).
    by apply list_elem_of_filter in Hr' as [_ ?]. }
  apply (prefix_elem_of _ _ _ Hrows) in Hin.
  apply feed_rows_author with (id := id) in Hin.
  - rewrite Hin. split; [done|]. by apply bool_decide_eq_true.
  - unfold post_filter. apply elem_of_app. right. left.
Qed.

End OwnPostsFacts.

(** * Further properties of the code *)

(** ** The post repository: writes *)

Lemma next_id_fresh ids x : x ∈ ids → x < next_id ids.
Proof.
  unfold next_id. induction ids as [|y ids IH]; [by intros ?%not_elem_of_nil|].
  intros [->|Hx]%elem_of_cons; simpl; [lia|]. specialize (IH Hx). lia.
Qed.

Lemma attempt_tables s : tables (attempt s).2 = tables s ∧ now (attempt s).2 = now s.
Proof. unfold attempt. by destruct (failures s). Qed.

(** [InsertPost] ends in one of two ways: the id with the row appended, or
    an error with the tables untouched. *)
Lemma InsertPost_cases authorID categoryID title description s :
  (∃ fl', InsertPost authorID categoryID title description s
          = (inr (next_id (Post.id <$> posts (tables s))),
             mkStore (set_posts
                        (λ ps, ps ++ [Post.mk (next_id (Post.id <$> posts (tables s)))
                                              authorID categoryID title description (now s)])
                        (tables s))
                     fl' (now s)))
  ∨ (∃ e fl', InsertPost authorID categoryID title description s
              = (inl e, mkStore (tables s) fl' (now s))).
Proof.
  destruct s as [d fl n].
  destruct fl as [|[e0|] [|[e1|] [|[e2|] [|[e3|] fl]]]]; cbn; eauto.
Qed.

(** X1.  [InsertPost] stores the post or nothing: when it returns an id, the id
    is larger than every id in use and the tables differ from the old ones
    by one row appended to [posts], holding the arguments and the clock
    reading; when it returns an error the tables are as before.  On a store
    that works it returns an id. *)
Theorem InsertPost_appends_or_nothing authorID categoryID title description s :
  let r := InsertPost authorID categoryID title description s in
  (∀ id, r.1 = inr id →
     (∀ p, p ∈ posts (tables s) → Post.id p < id)
     ∧ tables r.2
       = set_posts (λ ps, ps ++ [Post.mk id authorID categoryID title description (now s)])
                   (tables s))
  ∧ (∀ e, r.1 = inl e → tables r.2 = tables s)
  ∧ (failures s = [] → ∃ id, r.1 = inr id).
Proof.
  destruct (InsertPost_cases authorID categoryID title description s)
    as [[fl' Hr]|(e & fl' & Hr)]; rewrite Hr; simpl.
  - split_and!; [|done|eauto].
    intros id [= <-]. split; [|done].
    intros p Hp. apply next_id_fresh, list_elem_of_fmap. eauto.
  - split_and!; [done|done|].
    intros Hfl. destruct s as [d fl n]. simpl in *. subst fl. by cbn in Hr.
Qed.

Lemma List_filter_app {A} (f : A → bool) (l k : list A) :
  List.filter f (l ++ k) = List.filter f l ++ List.filter f k.
Proof. induction l as [|x l IH]; simpl; [done|]. destruct (f x); by rewrite ?IH. Qed.

(** X2.  Insert, then look up: the author of a post that [InsertPost] has just
    stored is the author it was given. *)
Theorem InsertPost_then_FetchAuthorIDByPostID authorID categoryID title description s id s' :
  InsertPost authorID categoryID title description s = (inr id, s') →
  failures s' = [] →
  FetchAuthorIDByPostID id s' = (inr authorID, s').
Proof.
  intros Hins Hfl.
  destruct (InsertPost_cases authorID categoryID title description s)
    as [[fl' Hr]|(e & fl' & Hr)]; rewrite Hr in Hins; [|done].
  injection Hins as <- <-. simpl in Hfl. subst fl'.
  unfold FetchAuthorIDByPostID, repo_try, repo_bind, Begin, Query, Commit, attempt, repo_ret.
  simpl. rewrite List_filter_app. simpl. rewrite bool_decide_eq_true_2 by done.
  rewrite List_filter_nil; [done|].
  intros p Hp. apply bool_decide_eq_false.
  assert (Post.id p < next_id (Post.id <$> posts (tables s))); [|lia].
  apply next_id_fresh, list_elem_of_fmap. eauto.
Qed.

Lemma InsertPost_then_FetchAuthorIDByPostID_witness :
  ∃ id s', InsertPost 8 2 "again" "fourth" (sample_store []) = (inr id, s')
           ∧ FetchAuthorIDByPostID id s' = (inr 8, s').
Proof.
  eexists _, _. split; [reflexivity|].
  apply (InsertPost_then_FetchAuthorIDByPostID 8 2 "again" "fourth" (sample_store []));
    reflexivity.
Defined.

(** [UpdatePost] ends in one of two ways. *)
Lemma UpdatePost_cases postID categoryID title description s :
  (∃ fl', UpdatePost postID categoryID title description s
          = (None,
             mkStore (set_posts
                        (fmap (λ p, if bool_decide (Post.id p = postID)
                                    then Post.mk (Post.id p) (Post.author_id p) categoryID
                                                 title description (Post.created_at p)
                                    else p))
                        (tables s))
                     fl' (now s)))
  ∨ (∃ e fl', UpdatePost postID categoryID title description s
              = (Some e, mkStore (tables s) fl' (now s))).
Proof.
  destruct s as [d fl n].
  destruct fl as [|[e0|] [|[e1|] [|[e2|] fl]]]; cbn; eauto.
Qed.

(** X3.  [UpdatePost] rewrites the category, title and description of the posts
    with the given id and nothing else: whatever it returns, the ids,
    authors and creation times of the posts are as before, in the same
    order, the posts with another id are untouched and so are the other
    tables.  When it returns nil the posts with the id hold the new values;
    when it returns an error the tables are as before.  An id that no post
    has is not an error: on a store that works the call returns nil and
    changes nothing. *)
Theorem UpdatePost_changes_only_content postID categoryID title description s :
  let r := UpdatePost postID categoryID title description s in
  (λ p, (Post.id p, Post.author_id p, Post.created_at p)) <$> posts (tables r.2)
  = (λ p, (Post.id p, Post.author_id p, Post.created_at p)) <$> posts (tables s)
  ∧ filter (λ p, Post.id p ≠ postID) (posts (tables r.2))
    = filter (λ p, Post.id p ≠ postID) (posts (tables s))
  ∧ set_posts (λ _, []) (tables r.2) = set_posts (λ _, []) (tables s)
  ∧ (r.1 = None →
     ∀ p, p ∈ posts (tables r.2) → Post.id p = postID →
          Post.category_id p = categoryID ∧ Post.title p = title
          ∧ Post.desc p = description)
  ∧ (r.1 ≠ None → tables r.2 = tables s)
  ∧ ((∀ p, p ∈ posts (tables s) → Post.id p ≠ postID) → tables r.2 = tables s)
  ∧ (failures s = [] → r.1 = None).
Proof.
  destruct (UpdatePost_cases postID categoryID title description s)
    as [[fl' Hr]|(e & fl' & Hr)]; rewrite Hr; simpl.
  - split_and!; try done.
    + rewrite <- list_fmap_compose. apply list_fmap_ext. intros _ p _. simpl.
      by destruct (bool_decide _).
    + induction (posts (tables s)) as [|p ps IH]; [done|].
      rewrite fmap_cons, !filter_cons, IH.
      destruct (decide (Post.id p = postID)) as [Heq|Hne].
      * rewrite bool_decide_eq_true_2 by done. simpl.
        by rewrite !decide_False by (intros Hc; by apply Hc).
      * by rewrite bool_decide_eq_false_2 by done.
    + intros _ p (q & -> & Hq)%list_elem_of_fmap.
      destruct (decide (Post.id q = postID)) as [Heq|Hne].
      * by rewrite bool_decide_eq_true_2 by done.
      * rewrite bool_decide_eq_false_2 by done. done.
    + intros Hno. destruct (tables s) as [ps us uds cs ls qs ims]. unfold set_posts. simpl in *.
      f_equal. rewrite <- (list_fmap_id ps) at 2. apply list_fmap_ext.
      intros i p Hp%list_elem_of_lookup_2. simpl.
      by rewrite bool_decide_eq_false_2 by (by apply Hno).
  - split_and!; try done.
    intros Hfl. destruct s as [d fl n]. simpl in *. subst fl. by cbn in Hr.
Qed.

(** X4.  Deleting twice is deleting once, and deleting a post that does not
    exist reports success: after [DeletePostByID] has returned nil, a second
    call with the same id leaves the tables as they are, and on a store that
    works it returns nil as well. *)
Theorem DeletePostByID_twice postID s :
  let first := DeletePostByID postID s in
  let second := DeletePostByID postID first.2 in
  first.1 = None →
  tables second.2 = tables first.2
  ∧ (failures first.2 = [] → second.1 = None).
Proof.
  intros first second Hfirst.
  assert (∀ d fl n,
    tables (DeletePostByID postID (mkStore d fl n)).2 = d ∨
    tables (DeletePostByID postID (mkStore d fl n)).2
    = set_post_images
        (List.filter (λ i, negb (bool_decide (PostImage.post_id i = postID))))
        (set_posts (List.filter (λ p, negb (bool_decide (Post.id p = postID)))) d)) as Hcases.
  { intros d fl n.
    destruct (DeletePostByID_cases postID (mkStore d fl n)) as [[fl' ->]|(e & fl' & ->)]; eauto. }
  subst second. split; [|apply DeletePostByID_no_failure].
  destruct (DeletePostByID_cases postID s) as [[fl' Hr]|(e & fl' & Hr)];
    subst first; rewrite Hr in *; [|done]. simpl.
  match goal with |- tables (DeletePostByID _ (mkStore ?d ?fl ?n)).2 = _ =>
    destruct (Hcases d fl n) as [->| ->]; [done|] end.
  unfold set_post_images, set_posts. simpl. f_equal.
  - induction (posts (tables s)) as [|p ps IH]; [done|]. simpl.
    destruct (negb _) eqn:Hp; simpl; [rewrite Hp|]; by rewrite IH.
  - induction (post_images (tables s)) as [|p ps IH]; [done|]. simpl.
    destruct (negb _) eqn:Hp; simpl; [rewrite Hp|]; by rewrite IH.
Qed.

Lemma DeletePostByID_twice_witness :
  tables (DeletePostByID 1 (DeletePostByID 1 (sample_store [])).2).2
  = tables (DeletePostByID 1 (sample_store [])).2.
Proof. apply (DeletePostByID_twice 1 (sample_store [])). reflexivity. Defined.

(** ** The post repository: reads *)

(** X6.  [FetchAuthorIDByPostID] answers from the post table: an author it
    returns is the author of a post with the id, and when no post has the
    id it returns an error, whatever the driver does; on a store that works
    that error is [ErrPostNotFound]. *)
Theorem FetchAuthorIDByPostID_sound postID s :
  (∀ authorID, (FetchAuthorIDByPostID postID s).1 = inr authorID →
     ∃ p, p ∈ posts (tables s) ∧ Post.id p = postID ∧ Post.author_id p = authorID)
  ∧ ((∀ p, p ∈ posts (tables s) → Post.id p ≠ postID) →
     (∃ e, (FetchAuthorIDByPostID postID s).1 = inl e)
     ∧ (failures s = [] → (FetchAuthorIDByPostID postID s).1 = inl ErrPostNotFound)).
Proof.
  assert (∀ authorID, (FetchAuthorIDByPostID postID s).1 = inr authorID →
     ∃ p, p ∈ posts (tables s) ∧ Post.id p = postID ∧ Post.author_id p = authorID) as Hsound.
  { intros authorID. destruct (FetchAuthorIDByPostID postID s) as [r s'] eqn:Hf.
    simpl. intros ->. unfold FetchAuthorIDByPostID in Hf.
    apply repo_try_inr in Hf as (tx & s1 & [-> _]%Begin_inr & Hf).
    unfold repo_bind in Hf.
    destruct (Query _ (tables s) s1) as [[e|a] s2] eqn:Hq.
    { by destruct (decide _). }
    apply Query_inr in Hq as [Hq _].
    destruct (List.filter _ (posts (tables s))) as [|p rest] eqn:Hp; [done|].
    injection Hq as <-.
    destruct (Commit _ s2) as [[e|] s3]; [done|]. injection Hf as <- _.
    assert (p ∈ List.filter (λ p, bool_decide (Post.id p = postID)) (posts (tables s)))
      as [Hin Hid%bool_decide_eq_true]%elem_of_List_filter by (rewrite Hp; left).
    eauto. }
  split; [done|]. intros Hno. split.
  - destruct ((FetchAuthorIDByPostID postID s).1) as [e|a] eqn:Hr; [eauto|].
    destruct (Hsound a eq_refl) as (p & Hp & Hid & _). by destruct (Hno p Hp).
  - intros Hfl. by rewrite FetchAuthorIDByPostID_absent.
Qed.

(** X7.  On a store that works [InsertPostImage] appends one record with the
    given post id and path under an unused id, without looking at the post
    table: images keep referencing existing posts exactly when a post has
    the given id. *)
Theorem InsertPostImage_appends_unchecked postID path s :
  failures s = [] →
  let r := InsertPostImage postID path s in
  let image := PostImage.mk (next_id (PostImage.id <$> post_images (tables s))) postID path in
  r.1 = None
  ∧ tables r.2 = set_post_images (λ imgs, imgs ++ [image]) (tables s)
  ∧ (∀ i, i ∈ post_images (tables s) → PostImage.id i ≠ PostImage.id image)
  ∧ (images_reference_posts (tables s) →
     (images_reference_posts (tables r.2)
      ↔ ∃ p, p ∈ posts (tables s) ∧ Post.id p = postID)).
Proof.
  intros Hfl. destruct s as [d fl n]. simpl in *. subst fl. cbn.
  split_and!; try done.
  - intros i Hi Heq.
    assert (PostImage.id i < next_id (PostImage.id <$> post_images d)); [|lia].
    apply next_id_fresh, list_elem_of_fmap. eauto.
  - intros Hinv. split.
    + intros Hnew. destruct (Hnew (PostImage.mk (next_id (PostImage.id <$> post_images d))
                                                postID path)) as (p & Hp & Hid).
      { simpl. apply elem_of_app. right. left. }
      eauto.
    + intros (p & Hp & Hid) i. simpl. intros [Hi|Hi%list_elem_of_singleton]%elem_of_app.
      * by apply Hinv.
      * subst i. eauto.
Qed.

Lemma InsertPostImage_appends_unchecked_witness :
  (InsertPostImage 9 "media/post/9-1-x.png" (sample_store [])).1 = None
  ∧ images_reference_posts sample_db
  ∧ ¬ images_reference_posts
        (tables (InsertPostImage 9 "media/post/9-1-x.png" (sample_store [])).2).
Proof.
  destruct (InsertPostImage_appends_unchecked 9 "media/post/9-1-x.png" (sample_store [])
              eq_refl) as (Hnil & _ & _ & Hinv).
  assert (images_reference_posts sample_db) as Hsample.
  { intros i Hi. exists (Post.mk 1 7 1 "hello" "first" 100). split; [left|].
    repeat (apply elem_of_cons in Hi as [->|Hi]; [reflexivity|]).
    by apply not_elem_of_nil in Hi. }
  split_and!; [done|done|].
  intros Hc. apply (Hinv Hsample) in Hc as (p & Hp & Hid).
  repeat (apply elem_of_cons in Hp as [->|Hp]; [discriminate|]).
  by apply not_elem_of_nil in Hp.
Defined.

(** ** The list response, end to end *)

Lemma filter_key_singleton {A} (f : A → Z) (l : list A) x :
  NoDup (f <$> l) → x ∈ l → filter (λ y, f y = f x) l = [x].
Proof.
  induction l as [|y l IH]; [by intros _ ?%not_elem_of_nil|].
  rewrite fmap_cons. intros [Hy Hnd]%NoDup_cons [->|Hx]%elem_of_cons.
  - rewrite filter_cons_True by done. f_equal.
    apply filter_none. intros z Hz Heq. apply Hy. rewrite <- Heq.
    apply list_elem_of_fmap. eauto.
  - rewrite filter_cons_False; [by apply IH|].
    intros Heq. apply Hy. rewrite Heq. apply list_elem_of_fmap. eauto.
Qed.

Lemma list_bind_nil {A B} (f : A → list B) : [] ≫= f = [].
Proof. reflexivity. Qed.

Lemma StronglySorted_sublist {A} (R : A → A → Prop) (l k : list A) :
  k `sublist_of` l → StronglySorted R l → StronglySorted R k.
Proof.
  induction 1 as [|x k l Hsub IH|x k l Hsub IH]; [done| |].
  - intros [Hl Hx]%StronglySorted_inv. constructor; [by apply IH|].
    rewrite Forall_forall in Hx. apply Forall_forall. intros y Hy. apply Hx.
    by eapply sublist_subseteq.
  - intros [Hl _]%StronglySorted_inv. by apply IH.
Qed.

Lemma StronglySorted_fmap_2 {A B} (f : A → B) (R : B → B → Prop) (l : list A) :
  StronglySorted (λ a b, R (f a) (f b)) l → StronglySorted R (f <$> l).
Proof.
  induction 1 as [|x l Hs IH Hx]; [constructor|].
  rewrite fmap_cons. constructor; [done|]. by apply Forall_fmap.
Qed.

Lemma StronglySorted_fmap_1 {A B} (f : A → B) (R : B → B → Prop) (l : list A) :
  StronglySorted R (f <$> l) → StronglySorted (λ a b, R (f a) (f b)) l.
Proof.
  induction l as [|x l IH]; [constructor|].
  rewrite fmap_cons. intros [Hl Hx]%StronglySorted_inv.
  constructor; [by apply IH|]. rewrite Forall_forall in Hx. apply Forall_forall.
  intros y Hy. apply Hx, list_elem_of_fmap. eauto.
Qed.

Lemma prefix_sublist {A} (l1 l2 : list A) : l1 `prefix_of` l2 → l1 `sublist_of` l2.
Proof. intros [k ->]. by apply sublist_inserts_r. Qed.

Section ListResponseFacts.
Context `{Environment}.

Lemma feed_rows_cons authorID d up ups :
  feed_rows authorID d (up :: ups) = feed_rows authorID d [up] ++ feed_rows authorID d ups.
Proof.
  unfold feed_rows, left_join. by rewrite !bind_cons, list_bind_nil, app_nil_r, fmap_app.
Qed.

Lemma feed_rows_block_ids authorID d up r :
  r ∈ feed_rows authorID d [up] → PostDetail.ID r = UserPost.id up.
Proof.
  unfold feed_rows.
  intros ([up' pi] & -> & [Hup _]%elem_of_left_join)%list_elem_of_fmap.
  by apply list_elem_of_singleton in Hup as ->.
Qed.

Lemma rows_of_feed_rows authorID d i ups :
  rows_of i (feed_rows authorID d ups)
  = feed_rows authorID d (filter (λ up, UserPost.id up = i) ups).
Proof.
  induction ups as [|up ups IH]; [done|].
  rewrite feed_rows_cons. unfold rows_of in *. rewrite filter_app, IH, filter_cons.
  destruct (decide (UserPost.id up = i)) as [Heq|Hne].
  - rewrite (feed_rows_cons _ _ up (filter _ ups)). f_equal.
    apply filter_every. intros r Hr%feed_rows_block_ids. congruence.
  - rewrite filter_none; [done|]. intros r Hr%feed_rows_block_ids. congruence.
Qed.

(** The rows of one page row fold into its entry. *)
Lemma grouped_entry_block authorID d up :
  grouped_entry authorID (feed_rows authorID d [up]) (UserPost.id up)
  = page_entry authorID d up.
Proof.
  unfold grouped_entry, images_of, rows_of.
  rewrite (filter_every _ (feed_rows authorID d [up]))
    by (intros r Hr; by apply feed_rows_block_ids in Hr).
  unfold feed_rows, left_join, page_entry, images_of_post.
  rewrite bind_cons, list_bind_nil, app_nil_r, List_filter_bool_decide.
  rewrite (list_filter_iff _ (λ i, PostImage.post_id i = UserPost.id up)) by done.
  destruct (filter _ (post_images d)) as [|b bs] eqn:Hf.
  - simpl. unfold post_response, string_or_zero, int_or_zero. simpl.
    destruct (UserPost.author_institution up), (UserPost.author_major up),
      (UserPost.author_batch up), (UserPost.author_avatar up); reflexivity.
  - f_equal.
    + simpl. unfold post_response, string_or_zero, int_or_zero. simpl.
      destruct (UserPost.author_institution up), (UserPost.author_major up),
        (UserPost.author_batch up), (UserPost.author_avatar up); reflexivity.
    + f_equal. rewrite <- list_fmap_compose.
      rewrite filter_every by (intros r (x & -> & _)%list_elem_of_fmap; done).
      rewrite <- list_fmap_compose. by apply list_fmap_ext.
Qed.

Lemma grouped_entry_feed_rows authorID d ups up :
  NoDup (UserPost.id <$> ups) → up ∈ ups →
  grouped_entry authorID (feed_rows authorID d ups) (UserPost.id up)
  = page_entry authorID d up.
Proof.
  intros Hnd Hup. rewrite <- grouped_entry_block. unfold grouped_entry, images_of.
  rewrite !rows_of_feed_rows.
  rewrite (filter_key_singleton UserPost.id ups up) by done.
  rewrite (filter_key_singleton UserPost.id [up] up); [done|apply NoDup_singleton|left].
Qed.

(** Folding the rows of a page gives the page, entry by entry. *)
Lemma assemble_feed_rows authorID d ups :
  NoDup (UserPost.id <$> ups) →
  assemble authorID (feed_rows authorID d ups) = page_entry authorID d <$> ups.
Proof.
  intros Hnd. rewrite assemble_grouped. unfold grouped.
  rewrite feed_rows_distinct_ids by done. rewrite <- list_fmap_compose.
  apply list_fmap_ext. intros _ up Hup%list_elem_of_lookup_2. simpl.
  by apply grouped_entry_feed_rows.
Qed.

(** The scalar fields of an entry come from the first row of its post, so
    the first rows of a result give them as the whole result does. *)
Lemma grouped_entry_prefix authorID rows full i :
  rows `prefix_of` full → i ∈ PostDetail.ID <$> rows →
  DetailPostResponse.Post (grouped_entry authorID rows i)
  = DetailPostResponse.Post (grouped_entry authorID full i).
Proof.
  intros [k ->] Hi. unfold grouped_entry, rows_of. simpl. rewrite filter_app.
  destruct (filter _ rows) as [|r rs] eqn:Hf; [|done].
  exfalso. apply list_elem_of_fmap in Hi as (r & -> & Hr).
  assert (r ∈ filter (λ p, PostDetail.ID p = PostDetail.ID r) rows) as Hc
    by (by apply list_elem_of_filter).
  rewrite Hf in Hc. by apply not_elem_of_nil in Hc.
Qed.

(** Folding the first rows of a page gives the first posts of the page:
    their scalar fields are those of the page. *)
Lemma assemble_prefix authorID d ups rows :
  NoDup (UserPost.id <$> ups) →
  rows `prefix_of` feed_rows authorID d ups →
  (DetailPostResponse.Post <$> assemble authorID rows)
    `prefix_of` ((DetailPostResponse.Post ∘ page_entry authorID d) <$> ups).
Proof.
  intros Hnd Hpre. rewrite assemble_grouped. unfold grouped.
  pose proof (feed_rows_prefix_ids _ _ _ _ Hnd Hpre) as [k Hk].
  assert (first_seen (PostDetail.ID <$> rows)
          = UserPost.id <$> take (length (first_seen (PostDetail.ID <$> rows))) ups) as Hids.
  { by rewrite fmap_take, Hk, take_app_length. }
  set (n := length (first_seen (PostDetail.ID <$> rows))) in *.
  exists ((DetailPostResponse.Post ∘ page_entry authorID d) <$> drop n ups).
  rewrite <- (take_drop n ups) at 1. rewrite fmap_app. f_equal.
  rewrite Hids at 1. rewrite <- !list_fmap_compose. symmetry.
  apply list_fmap_ext. intros j up Hup. unfold compose.
  assert (up ∈ ups) as Hin.
  { apply lookup_take_Some in Hup as [Hup _]. by eapply list_elem_of_lookup_2. }
  rewrite (grouped_entry_prefix _ rows (feed_rows authorID d ups)); [|done|].
  - by rewrite grouped_entry_feed_rows.
  - apply first_seen_elem_of. rewrite Hids. apply list_elem_of_fmap. exists up.
    split; [done|]. by eapply list_elem_of_lookup_2.
Qed.

(** A list response, for search text that stays a literal: the scalar
    fields of its posts are those of the first posts of the page, whichever
    driver call failed. *)
Lemma list_posts_listing limit offset authorID sortBy clauses (c : Ctx Store) code l :
  forallb literal_clause clauses = true →
  written (list_posts limit offset authorID sortBy clauses c).2
  = written c ++ [mkResponse code (PostsResponse l)] →
  ∃ le, order_term sortBy = Some le
        ∧ (DetailPostResponse.Post <$> l)
            `prefix_of` ((DetailPostResponse.Post ∘ page_entry authorID (tables (store c)))
                           <$> page limit offset le clauses (tables (store c))).
Proof.
  intros Hlit. unfold list_posts, handler_bind, call.
  destruct (FetchAllPost _ _ _ _ _ _) as [[e|rows] s] eqn:Hf; simpl.
  { by intros [= ?]%app_inv_head. }
  destruct (decide _); simpl; [by intros [= ?]%app_inv_head|].
  intros [= _ <-]%app_inv_head.
  assert ((FetchAllPost limit offset authorID sortBy clauses (store c)).1 = inr rows)
    as Hrows by (by rewrite Hf).
  apply FetchAllPost_inr in Hrows as (le & Hle & Hrows); [|done].
  exists le. split; [done|].
  by apply assemble_prefix; [apply page_NoDup|].
Qed.

(** A list response never holds an empty list, and holds every post once. *)
Lemma list_posts_NoDup limit offset authorID sortBy clauses (c : Ctx Store) code l :
  written (list_posts limit offset authorID sortBy clauses c).2
  = written c ++ [mkResponse code (PostsResponse l)] →
  l ≠ [] ∧ NoDup ((PostResponse.ID ∘ DetailPostResponse.Post) <$> l).
Proof.
  unfold list_posts, handler_bind, call.
  destruct (FetchAllPost _ _ _ _ _ _) as [[e|rows] s] eqn:Hf; simpl.
  { by intros [= ?]%app_inv_head. }
  destruct (decide _) as [Hz|Hz]; simpl; [by intros [= ?]%app_inv_head|].
  intros [= _ <-]%app_inv_head. rewrite assemble_grouped. split.
  - unfold grouped. intros Hnil%fmap_nil_inv. by destruct rows.
  - rewrite grouped_ids. apply first_seen_NoDup.
Qed.

(** What [readPosts] hands to [list_posts] when its parameters parse. *)
Lemma readPosts_parsed (ctx : Request unit) (c : Ctx Store)
    offset limit sortBy category_id me :
  strconv.Atoi (DefaultQuery ctx "offset" "0") = Some offset →
  strconv.Atoi (DefaultQuery ctx "limit" "20") = Some limit →
  post_sort_by (DefaultQuery ctx "sort_by" "newest") = Some sortBy →
  strconv.Atoi (DefaultQuery ctx "category_id" "0") = Some category_id →
  strconv.ParseBool (DefaultQuery ctx "me" "false") = Some me →
  readPosts ctx c
  = list_posts limit offset (viewer_of (Token ctx)) sortBy
      (post_filter (DefaultQuery ctx "search_title" "") category_id me
                   (viewer_of (Token ctx))) c.
Proof.
  intros Ho Hl Hs Hc Hm. unfold readPosts, handler_bind.
  rewrite getUserIDAvoidPanic_value. by rewrite Ho, Hl, Hs, Hc, Hm.
Qed.

End ListResponseFacts.

(** ** Which posts a list query returns *)

Lemma NoDup_fmap_eq {A} (f : A → Z) (l : list A) x y :
  NoDup (f <$> l) → x ∈ l → y ∈ l → f y = f x → y = x.
Proof.
  intros Hnd Hx Hy Heq.
  assert (y ∈ filter (λ z, f z = f x) l) as Hin by (by apply list_elem_of_filter).
  rewrite (filter_key_singleton f l x) in Hin by done.
  by apply list_elem_of_singleton in Hin.
Qed.

Section ListQueryContents.
Context `{Environment}.

Lemma posts_with_comment_count_posts d p cc :
  (p, cc) ∈ posts_with_comment_count d → p ∈ posts d.
Proof.
  unfold posts_with_comment_count.
  intros ([p' oc] & Hr & [= -> _])%elem_of_select_group_by.
  by apply elem_of_left_join in Hr as [? _].
Qed.

Lemma posts_with_comment_count_covers d p :
  NoDup (Post.id <$> posts d) → p ∈ posts d →
  ∃ cc, (p, cc) ∈ posts_with_comment_count d.
Proof.
  intros Hnd Hp. unfold posts_with_comment_count.
  destruct (left_join_covers (λ p c, bool_decide (Comment.post_id c = Post.id p))
              (posts d) (comments d) p Hp) as [oc Hoc].
  eapply (select_group_by_covers (λ r : Post.t * option Comment.t, Post.id r.1)
            bare_row_of_post) in Hoc as ([p' oc'] & Hr & Hid & Hin).
  apply elem_of_left_join in Hr as [Hp' _]. simpl in Hid.
  assert (p' = p) as -> by (by apply (NoDup_fmap_eq Post.id (posts d))).
  eexists. exact Hin.
Qed.

(** Where a row of the subquery [up] comes from. *)
Lemma user_posts_origin clauses d up :
  up ∈ user_posts clauses d →
  ∃ p u,
    p ∈ posts d ∧ u ∈ users d ∧ Post.author_id p = User.id u
    ∧ forallb (λ c, clause_holds c p) clauses = true
    ∧ ((∃ q, q ∈ questionnaires d ∧ QuestionnaireRow.post_id q = Post.id p
             ∧ QuestionnaireRow.link q = None)
       ∨ (∀ q, q ∈ questionnaires d → QuestionnaireRow.post_id q ≠ Post.id p))
    ∧ UserPost.id up = Post.id p
    ∧ UserPost.author_id up = User.id u
    ∧ UserPost.author_name up = User.name u
    ∧ UserPost.category_id up = Post.category_id p
    ∧ UserPost.title up = Post.title p
    ∧ UserPost.desc up = Post.desc p
    ∧ UserPost.created_at up = Post.created_at p.
Proof.
  unfold user_posts.
  intros (r & Hr & ->)%elem_of_select_group_by.
  apply elem_of_List_filter in Hr as [Hr Hwhere].
  destruct r as [[[[[p cc] u] ud] pl] q]. simpl.
  apply elem_of_left_join in Hr as [Hr Hq].
  apply elem_of_left_join in Hr as [Hr _].
  apply elem_of_left_join in Hr as [Hr _].
  apply elem_of_inner_join in Hr as (Hp%posts_with_comment_count_posts & Hu
                                     & Hjoin%bool_decide_eq_true).
  simpl in *. unfold where_feed in Hwhere.
  apply andb_true_iff in Hwhere as [Hlink%bool_decide_eq_true Hall]. simpl in *.
  exists p, u. split_and!; try done.
  destruct q as [q|]; simpl in *.
  - left. destruct Hq as [Hq Hon%bool_decide_eq_true]. eauto.
  - right. intros q Hq' Heq. specialize (Hq q Hq').
    apply bool_decide_eq_false in Hq. done.
Qed.

(** X8.  For search text that stays a literal, every row that [FetchAllPost]
    returns shows a stored post by a stored user, whichever driver call
    fails: the post satisfies every conjunct of the filter, and either has a
    questionnaire row without link or has no questionnaire row at all. *)
Theorem FetchAllPost_rows_match_filter limit offset authorID orderBy clauses s rows r :
  forallb literal_clause clauses = true →
  (FetchAllPost limit offset authorID orderBy clauses s).1 = inr rows →
  r ∈ rows →
  forallb (λ c, clause_holds_row c r) clauses = true
  ∧ ∃ p u,
      p ∈ posts (tables s) ∧ u ∈ users (tables s)
      ∧ Post.id p = PostDetail.ID r ∧ User.id u = PostDetail.AuthorID r
      ∧ Post.author_id p = PostDetail.AuthorID r
      ∧ Post.title p = PostDetail.Title r ∧ Post.desc p = PostDetail.Description r
      ∧ Post.category_id p = PostDetail.CategoryID r
      ∧ User.name u = PostDetail.AuthorName r
      ∧ ((∃ q, q ∈ questionnaires (tables s) ∧ QuestionnaireRow.post_id q = Post.id p
               ∧ QuestionnaireRow.link q = None)
         ∨ (∀ q, q ∈ questionnaires (tables s) → QuestionnaireRow.post_id q ≠ Post.id p)).
Proof.
  intros Hlit Hrows Hr.
  apply FetchAllPost_inr in Hrows as (le & _ & Hrows); [|done].
  apply (prefix_elem_of _ _ _ Hrows) in Hr. unfold feed_rows in Hr.
  apply list_elem_of_fmap in Hr as ([up pi] & Hr & Hup). subst r.
  apply elem_of_left_join in Hup as [Hup _].
  apply page_origin, user_posts_origin in Hup.
  destruct Hup as (p & u & Hp & Hu & Hau & Hall & Hq & Hid & Haid & Hname & Hcat & Ht & Hd & _).
  simpl. split.
  - rewrite forallb_forall in Hall. apply forallb_forall. intros c Hc.
    specialize (Hall c Hc). destruct c; simpl in *.
    + by rewrite Ht.
    + by rewrite Hcat.
    + by rewrite Haid, <- Hau.
  - exists p, u. split_and!; try done; try (symmetry; done).
    by rewrite Haid, Hau.
Qed.

(** X9.  For search text that stays a literal, on a store that works and with
    post ids that are a key, the filtered, sorted post set misses no post:
    a post whose author is stored, which satisfies every conjunct of the
    filter and has no questionnaire row with a link is in it, and a query
    with a negative limit and no offset that returns rows returns a row
    for it. *)
Theorem FetchAllPost_lists_every_match limit offset authorID orderBy clauses s rows p u :
  forallb literal_clause clauses = true →
  failures s = [] →
  (FetchAllPost limit offset authorID orderBy clauses s).1 = inr rows →
  limit < 0 → offset ≤ 0 →
  NoDup (Post.id <$> posts (tables s)) →
  p ∈ posts (tables s) → u ∈ users (tables s) → Post.author_id p = User.id u →
  forallb (λ c, clause_holds c p) clauses = true →
  (∀ q, q ∈ questionnaires (tables s) → QuestionnaireRow.post_id q = Post.id p →
        QuestionnaireRow.link q = None) →
  Post.id p ∈ PostDetail.ID <$> rows.
Proof.
  intros Hlit Hfl Hrows Hl Ho Hnd Hp Hu Hau Hall Hq.
  apply FetchAllPost_inr_no_failure in Hrows as (le & _ & ->); [|done..].
  apply first_seen_elem_of. rewrite feed_rows_distinct_ids by apply page_NoDup.
  unfold page, limit_offset. rewrite (proj2 (Z.ltb_lt limit 0)) by done.
  replace (Z.to_nat offset) with 0%nat by lia. rewrite drop_0.
  rewrite sorted_posts_Permutation, user_posts_ids.
  apply first_seen_elem_of.
  destruct (posts_with_comment_count_covers (tables s) p Hnd Hp) as [cc Hcc].
  assert ((p, cc, u) ∈ inner_join (λ r u, bool_decide (Post.author_id r.1 = User.id u))
                          (posts_with_comment_count (tables s)) (users (tables s))) as Hj.
  { apply elem_of_inner_join. split_and!; try done. by apply bool_decide_eq_true. }
  eapply left_join_covers in Hj as [ud Hj].
  eapply left_join_covers in Hj as [pl Hj].
  eapply left_join_covers in Hj as [q Hj].
  apply list_elem_of_fmap. exists (p, cc, u, ud, pl, q). split; [done|].
  apply elem_of_List_filter. split; [exact Hj|].
  unfold where_feed. apply andb_true_iff. split; [|done].
  apply bool_decide_eq_true. destruct q as [q|]; [|done]. simpl.
  apply elem_of_left_join in Hj as [_ [Hq' Hon%bool_decide_eq_true]]. by apply Hq.
Qed.

End ListQueryContents.

Lemma FetchAllPost_rows_match_filter_witness :
  ∃ rows,
    (FetchAllPost (H := sample_env) 20 0 7 "created_at" [TitleLike "ell"; CategoryIs 1]
       (sample_store [])).1 = inr rows
    ∧ Forall (λ r, PostDetail.CategoryID r = 1) rows
    ∧ rows ≠ [].
Proof.
  eexists. split; [reflexivity|]. split; [|done].
  apply Forall_forall. intros r Hr.
  destruct (FetchAllPost_rows_match_filter (H := sample_env) 20 0 7 "created_at"
              [TitleLike "ell"; CategoryIs 1] (sample_store []) _ r eq_refl eq_refl Hr)
    as [Hall _].
  simpl in Hall. apply andb_true_iff in Hall as [_ Hall].
  apply andb_true_iff in Hall as [Hcat _]. by apply bool_decide_eq_true in Hcat.
Defined.

Lemma FetchAllPost_lists_every_match_witness :
  ∃ rows,
    (FetchAllPost (H := sample_env) (-1) 0 7 "created_at" [CategoryIs 2] (sample_store [])).1
    = inr rows
    ∧ 2 ∈ PostDetail.ID <$> rows.
Proof.
  eexists. split; [reflexivity|].
  apply (FetchAllPost_lists_every_match (H := sample_env) (-1) 0 7 "created_at" [CategoryIs 2]
           (sample_store []) _ (Post.mk 2 8 2 "world" "second" 200)
           (User.mk 8 "bob" "student" (Some "bob.png")) eq_refl eq_refl eq_refl);
    try reflexivity; try lia.
  - by apply (bool_decide_unpack _).
  - right. left.
  - right. left.
  - intros q Hq. apply list_elem_of_singleton in Hq as ->. discriminate.
Defined.

(** ** [readPosts] and [readPost], end to end *)

Lemma post_sort_by_order_term sortBy term :
  post_sort_by sortBy = Some term → is_Some (order_term term).
Proof.
  unfold post_sort_by. repeat (destruct (decide _); [intros [= <-]; by eexists|]). done.
Qed.

Section ReadHandlersFacts.
Context `{Environment}.

Lemma feed_rows_nil authorID d ups : feed_rows authorID d ups = [] → ups = [].
Proof.
  destruct ups as [|up ups]; [done|]. rewrite feed_rows_cons.
  intros [Hb _]%app_eq_nil. unfold feed_rows, left_join in Hb.
  rewrite bind_cons, list_bind_nil, app_nil_r in Hb.
  by destruct (List.filter _ (post_images d)).
Qed.

(** X10.  [readPosts], for parameters that parse, search text that stays a
    literal, a store that works and stored batches and image ids that fit
    32 bits, answers 200 with the page of the filtered, sorted post set,
    each post with the columns of its row, the flags of the viewer and its
    image records in table order; an empty page is answered with an empty
    array.  The store is left as it was. *)
Theorem readPosts_answers_the_page (ctx : Request unit) (c : Ctx Store)
    offset limit sortBy category_id me :
  strconv.Atoi (DefaultQuery ctx "offset" "0") = Some offset →
  strconv.Atoi (DefaultQuery ctx "limit" "20") = Some limit →
  post_sort_by (DefaultQuery ctx "sort_by" "newest") = Some sortBy →
  strconv.Atoi (DefaultQuery ctx "category_id" "0") = Some category_id →
  strconv.ParseBool (DefaultQuery ctx "me" "false") = Some me →
  literal_text (DefaultQuery ctx "search_title" "") = true →
  failures (store c) = [] →
  int32_columns (tables (store c)) →
  ∃ le, order_term sortBy = Some le ∧
    let viewer := viewer_of (Token ctx) in
    let entries :=
      page_entry viewer (tables (store c))
        <$> page limit offset le
              (post_filter (DefaultQuery ctx "search_title" "") category_id me viewer)
              (tables (store c)) in
    readPosts ctx c
    = match entries with
      | [] => (Returned,
               mkCtx (store c) (written c ++ [mkResponse http.StatusOK EmptyStrings]))
      | _ => (Next tt,
              mkCtx (store c)
                    (written c ++ [mkResponse http.StatusOK (PostsResponse entries)]))
      end.
Proof.
  intros Ho Hl Hs Hc Hm Hlit Hfl Hfit.
  destruct (post_sort_by_order_term _ _ Hs) as [le Hle]. exists le. split; [done|].
  intros viewer entries. rewrite (readPosts_parsed ctx c offset limit sortBy category_id me)
    by done.
  fold viewer. unfold list_posts, handler_bind, call.
  rewrite (FetchAllPost_no_failure _ _ _ _ _ le) by (done || by apply post_filter_literal).
  simpl.
  subst entries.
  destruct (page limit offset le _ (tables (store c))) as [|up ups] eqn:Hpage.
  { reflexivity. }
  rewrite <- Hpage.
  destruct (decide _) as [Hlen|Hlen].
  { apply nil_length_inv, feed_rows_nil in Hlen. congruence. }
  rewrite assemble_feed_rows by (rewrite Hpage, <- Hpage; apply page_NoDup).
  rewrite Hpage. reflexivity.
Qed.

(** X11.  A list response of [readPosts] never holds an empty list and holds
    every post once, whichever driver call failed; for search text that
    stays a literal it holds at most [limit] posts when [limit] is not
    negative. *)
Theorem readPosts_page_size (ctx : Request unit) (c : Ctx Store)
    offset limit sortBy category_id me code l :
  strconv.Atoi (DefaultQuery ctx "offset" "0") = Some offset →
  strconv.Atoi (DefaultQuery ctx "limit" "20") = Some limit →
  post_sort_by (DefaultQuery ctx "sort_by" "newest") = Some sortBy →
  strconv.Atoi (DefaultQuery ctx "category_id" "0") = Some category_id →
  strconv.ParseBool (DefaultQuery ctx "me" "false") = Some me →
  written (readPosts ctx c).2 = written c ++ [mkResponse code (PostsResponse l)] →
  l ≠ []
  ∧ NoDup ((PostResponse.ID ∘ DetailPostResponse.Post) <$> l)
  ∧ (literal_text (DefaultQuery ctx "search_title" "") = true →
     0 ≤ limit → Z.of_nat (length l) ≤ limit).
Proof.
  intros Ho Hl Hs Hc Hm.
  rewrite (readPosts_parsed ctx c offset limit sortBy category_id me) by done.
  intros Hw. pose proof (list_posts_NoDup _ _ _ _ _ _ _ _ Hw) as [Hne Hnd].
  split_and!; [done..|].
  intros Hlit Hlim.
  apply list_posts_listing in Hw as (le & _ & Hpre); [|by apply post_filter_literal].
  apply prefix_length in Hpre. rewrite !length_fmap in Hpre.
  unfold page, limit_offset in Hpre.
  rewrite (proj2 (Z.ltb_ge limit 0)) in Hpre by done. rewrite length_take in Hpre. lia.
Qed.

(** X12.  For search text that stays a literal, with [sort_by=most_liked]
    the posts of a list response come with non-increasing like counts, with
    [sort_by=most_commented] with non-increasing comment counts, whichever
    driver call failed. *)
Theorem readPosts_sorted_by_counts (ctx : Request unit) (c : Ctx Store)
    offset limit category_id me code l :
  strconv.Atoi (DefaultQuery ctx "offset" "0") = Some offset →
  strconv.Atoi (DefaultQuery ctx "limit" "20") = Some limit →
  strconv.Atoi (DefaultQuery ctx "category_id" "0") = Some category_id →
  strconv.ParseBool (DefaultQuery ctx "me" "false") = Some me →
  literal_text (DefaultQuery ctx "search_title" "") = true →
  written (readPosts ctx c).2 = written c ++ [mkResponse code (PostsResponse l)] →
  (DefaultQuery ctx "sort_by" "newest" = "most_liked" →
   StronglySorted (λ a b, PostResponse.LikeCount (DetailPostResponse.Post b)
                          ≤ PostResponse.LikeCount (DetailPostResponse.Post a)) l)
  ∧ (DefaultQuery ctx "sort_by" "newest" = "most_commented" →
     StronglySorted (λ a b, PostResponse.CommentCount (DetailPostResponse.Post b)
                            ≤ PostResponse.CommentCount (DetailPostResponse.Post a)) l).
Proof.
  intros Ho Hl Hc Hm Hlit Hw.
  assert (∀ term key,
    post_sort_by (DefaultQuery ctx "sort_by" "newest") = Some term →
    order_term term = Some (λ a b, key b <=? key a) →
    ∃ ups, (DetailPostResponse.Post <$> l)
             `prefix_of` ((DetailPostResponse.Post
                             ∘ page_entry (viewer_of (Token ctx)) (tables (store c))) <$> ups)
           ∧ StronglySorted (λ a b, key b ≤ key a) ups) as Hsorted.
  { intros term key Hs Hterm.
    rewrite (readPosts_parsed ctx c offset limit term category_id me) in Hw by done.
    apply list_posts_listing in Hw as (le & Hle & Hpre); [|by apply post_filter_literal].
    rewrite Hterm in Hle. injection Hle as <-. eexists. split; [exact Hpre|].
    eapply StronglySorted_sublist; [apply limit_offset_sublist|].
    apply (sorted_posts_on key true). }
  split; intros Hsort.
  - destruct (Hsorted "like_count DESC" UserPost.like_count) as (ups & Hpre & Hs);
      [by rewrite Hsort|done|].
    apply (StronglySorted_fmap_1 DetailPostResponse.Post
             (λ a b, PostResponse.LikeCount b ≤ PostResponse.LikeCount a)).
    eapply StronglySorted_sublist; [by apply prefix_sublist|].
    apply StronglySorted_fmap_2. exact Hs.
  - destruct (Hsorted "comment_count DESC" UserPost.comment_count) as (ups & Hpre & Hs);
      [by rewrite Hsort|done|].
    apply (StronglySorted_fmap_1 DetailPostResponse.Post
             (λ a b, PostResponse.CommentCount b ≤ PostResponse.CommentCount a)).
    eapply StronglySorted_sublist; [by apply prefix_sublist|].
    apply StronglySorted_fmap_2. exact Hs.
Qed.

(** X13.  The filters of [readPosts], read on a list response, for search
    text that stays a literal and whichever driver call failed: with a
    non-zero [category_id] every post is of that category, with a non-empty
    [search_title] every title matches it, with [me=true] every post is by
    the viewer. *)
Theorem readPosts_filters (ctx : Request unit) (c : Ctx Store)
    offset limit sortBy category_id me code l :
  strconv.Atoi (DefaultQuery ctx "offset" "0") = Some offset →
  strconv.Atoi (DefaultQuery ctx "limit" "20") = Some limit →
  post_sort_by (DefaultQuery ctx "sort_by" "newest") = Some sortBy →
  strconv.Atoi (DefaultQuery ctx "category_id" "0") = Some category_id →
  strconv.ParseBool (DefaultQuery ctx "me" "false") = Some me →
  literal_text (DefaultQuery ctx "search_title" "") = true →
  written (readPosts ctx c).2 = written c ++ [mkResponse code (PostsResponse l)] →
  Forall (λ e,
    let post := DetailPostResponse.Post e in
    (category_id ≠ 0 → PostResponse.CategoryID post = category_id)
    ∧ (DefaultQuery ctx "search_title" "" ≠ "" →
       title_like (DefaultQuery ctx "search_title" "") (PostResponse.Title post) = true)
    ∧ (me = true →
       AuthorPostResponse.ID (PostResponse.Author post) = viewer_of (Token ctx))) l.
Proof.
  intros Ho Hl Hs Hc Hm Hlit.
  rewrite (readPosts_parsed ctx c offset limit sortBy category_id me) by done.
  intros Hw.
  apply list_posts_listing in Hw as (le & _ & Hpre); [|by apply post_filter_literal].
  apply Forall_forall. intros e He. cbv zeta.
  assert (DetailPostResponse.Post e ∈ DetailPostResponse.Post <$> l) as Hin
    by (apply list_elem_of_fmap; eauto).
  apply (prefix_elem_of _ _ _ Hpre) in Hin.
  apply list_elem_of_fmap in Hin as (up & -> & Hup%page_origin%user_posts_origin).
  destruct Hup as (p & u & _ & _ & Hau & Hall & _ & _ & Haid & _ & Hcat & Ht & _).
  rewrite forallb_forall in Hall. simpl. rewrite Hcat, Ht, Haid, <- Hau.
  unfold post_filter in Hall. split_and!.
  - intros Hne. rewrite decide_True in Hall by done.
    specialize (Hall (CategoryIs category_id)). rewrite <- list_elem_of_In in Hall.
    eapply bool_decide_eq_true_1, Hall. destruct me; set_solver.
  - intros Hne. rewrite (decide_True _ _ Hne) in Hall.
    specialize (Hall (TitleLike (DefaultQuery ctx "search_title" ""))).
    rewrite <- list_elem_of_In in Hall.
    apply Hall. destruct me, (decide (category_id ≠ 0)); set_solver.
  - intros ->. specialize (Hall (AuthorIs (viewer_of (Token ctx)))).
    rewrite <- list_elem_of_In in Hall.
    eapply bool_decide_eq_true_1, Hall. set_solver.
Qed.

(** X14.  The two reading handlers write exactly one response, whatever the
    request, the identity, the statement the search text makes and the
    failures of the store. *)
Theorem read_handlers_answer_once (ctx : Request unit) (c : Ctx Store) :
  (∃ r, written (readPosts ctx c).2 = written c ++ [r])
  ∧ (∃ r, written (readPost ctx c).2 = written c ++ [r]).
Proof.
  split.
  - unfold readPosts, handler_bind. rewrite getUserIDAvoidPanic_value.
    repeat (match goal with
            | |- context [match ?x with Some _ => _ | None => _ end] =>
                destruct x; simpl; eauto
            end).
    unfold list_posts, handler_bind, call.
    destruct (FetchAllPost _ _ _ _ _ _) as [[e'|rows] s']; simpl; eauto.
    destruct (decide _); simpl; eauto.
  - unfold readPost, handler_bind. rewrite getUserIDAvoidPanic_value.
    destruct (strconv.Atoi _) as [postID|]; simpl; eauto.
    unfold call.
    destruct (FetchPostByID _ _ _) as [[e'|[|post0 rows]] s']; simpl; eauto.
    destruct (CountComment postID s') as [[e1|n1] s1]; simpl; eauto.
    destruct (CountPostLike postID s1) as [[e2|n2] s2]; simpl; eauto.
Qed.

End ReadHandlersFacts.

Lemma readPosts_answers_the_page_witness :
  ∃ entries,
    readPosts (H := sample_env)
      (get_request [] [("limit", "1"); ("sort_by", "most_liked")] (Resolved 7)) (sample_ctx [])
    = (Next tt, mkCtx (sample_store []) [mkResponse 200 (PostsResponse entries)])
    ∧ (PostResponse.ID ∘ DetailPostResponse.Post) <$> entries = [2].
Proof.
  destruct (readPosts_answers_the_page (H := sample_env)
              (get_request [] [("limit", "1"); ("sort_by", "most_liked")] (Resolved 7))
              (sample_ctx []) 0 1 "like_count DESC" 0 false
              eq_refl eq_refl eq_refl eq_refl eq_refl eq_refl eq_refl sample_db_int32)
    as (le & Hle & Hr).
  injection Hle as <-. eexists. split; [exact Hr|reflexivity].
Defined.

Lemma readPosts_page_size_witness :
  ∃ l,
    written (readPosts (H := sample_env)
               (get_request [] [("limit", "1"); ("sort_by", "oldest")] (Resolved 7))
               (sample_ctx [])).2
    = [mkResponse 200 (PostsResponse l)]
    ∧ Z.of_nat (length l) ≤ 1.
Proof.
  eexists. split; [reflexivity|].
  destruct (readPosts_page_size (H := sample_env)
              (get_request [] [("limit", "1"); ("sort_by", "oldest")] (Resolved 7))
              (sample_ctx []) 0 1 "created_at" 0 false 200 _
              eq_refl eq_refl eq_refl eq_refl eq_refl eq_refl) as (_ & _ & Hsize).
  apply Hsize; [reflexivity|lia].
Defined.

Lemma readPosts_sorted_by_counts_witness :
  ∃ l,
    written (readPosts (H := sample_env)
               (get_request [] [("sort_by", "most_commented")] (Resolved 7))
               (sample_ctx [])).2
    = [mkResponse 200 (PostsResponse l)]
    ∧ (PostResponse.ID ∘ DetailPostResponse.Post) <$> l = [1; 2]
    ∧ StronglySorted (λ a b, PostResponse.CommentCount (DetailPostResponse.Post b)
                             ≤ PostResponse.CommentCount (DetailPostResponse.Post a)) l.
Proof.
  eexists. split; [reflexivity|]. split; [reflexivity|].
  eapply (readPosts_sorted_by_counts (H := sample_env)
            (get_request [] [("sort_by", "most_commented")] (Resolved 7))
            (sample_ctx []) 0 20 0 false 200 _ eq_refl eq_refl eq_refl eq_refl eq_refl eq_refl);
    reflexivity.
Defined.

Lemma readPosts_filters_witness :
  ∃ l,
    written (readPosts (H := sample_env)
               (get_request [] [("category_id", "2"); ("search_title", "or"); ("me", "true")]
                            (Resolved 8))
               (sample_ctx [])).2
    = [mkResponse 200 (PostsResponse l)]
    ∧ Forall (λ e, PostResponse.CategoryID (DetailPostResponse.Post e) = 2
                   ∧ AuthorPostResponse.ID (PostResponse.Author (DetailPostResponse.Post e)) = 8)
             l.
Proof.
  eexists. split; [reflexivity|].
  eapply Forall_impl.
  - eapply (readPosts_filters (H := sample_env)
              (get_request [] [("category_id", "2"); ("search_title", "or"); ("me", "true")]
                           (Resolved 8))
              (sample_ctx []) 0 20 "created_at DESC" 2 true 200 _
              eq_refl eq_refl eq_refl eq_refl eq_refl eq_refl eq_refl).
  - intros e (Hc & _ & Hm). split; [by apply Hc|by apply Hm].
Defined.

(** ** The detail response, end to end *)

Lemma List_filter_fst_const {A B C} (f : A → bool) (a : A) (g : C → B) (bs : list C) :
  List.filter (λ x : A * B, f x.1) ((λ b, (a, g b)) <$> bs)
  = if f a then (λ b, (a, g b)) <$> bs else [].
Proof.
  induction bs as [|b bs IH]; [by destruct (f a)|].
  rewrite fmap_cons. simpl. rewrite IH. by destruct (f a).
Qed.

Lemma left_join_filter_l {A B} (f : A → bool) (on : A → B → bool) l r :
  List.filter (λ x, f x.1) (left_join on l r) = left_join on (List.filter f l) r.
Proof.
  unfold left_join. induction l as [|a l IH]; [done|].
  rewrite bind_cons, List_filter_app, IH.
  change (List.filter f (a :: l)) with (if f a then a :: List.filter f l else List.filter f l).
  assert (List.filter (λ x : A * option B, f x.1)
            match List.filter (on a) r with
            | [] => [(a, None)]
            | bs => (λ b0, (a, Some b0)) <$> bs
            end
          = if f a
            then match List.filter (on a) r with
                 | [] => [(a, None)]
                 | bs => (λ b0, (a, Some b0)) <$> bs
                 end
            else []) as ->.
  { destruct (List.filter (on a) r) as [|b bs].
    - simpl. by destruct (f a).
    - apply (List_filter_fst_const f a Some). }
  destruct (f a); [by rewrite bind_cons|done].
Qed.

Lemma inner_join_filter_l {A B} (f : A → bool) (on : A → B → bool) l r :
  List.filter (λ x, f x.1) (inner_join on l r) = inner_join on (List.filter f l) r.
Proof.
  unfold inner_join. induction l as [|a l IH]; [done|].
  rewrite bind_cons, List_filter_app, IH.
  change (List.filter f (a :: l)) with (if f a then a :: List.filter f l else List.filter f l).
  rewrite (List_filter_fst_const f a id).
  destruct (f a); [by rewrite bind_cons|done].
Qed.

Lemma append_loop {A B} (f : A → B) (l : list A) : ∀ s x,
  foldl (λ out x, append out (f x)) (append s x) l
  = Make (elems_of s ++ x :: (f <$> l)).
Proof.
  induction l as [|y l IH]; intros s x; simpl; [done|].
  rewrite IH. simpl. by rewrite <- app_assoc.
Qed.

Section DetailResponseFacts.
Context `{Environment}.

(** The rows of the detail query for a post that is stored once, whose
    author is stored once and has at most one profile. *)
Lemma detail_query_rows postID d p u ud :
  filter (λ p, Post.id p = postID) (posts d) = [p] →
  filter (λ u, User.id u = Post.author_id p) (users d) = [u] →
  filter (λ ud, UserDetail.user_id ud = User.id u) (user_details d) = option_list ud →
  List.filter (λ r, bool_decide (Post.id r.1.1.1 = postID))
    (left_join (λ r pi, bool_decide (Post.id r.1.1 = PostImage.post_id pi))
       (left_join (λ r ud, bool_decide (User.id r.2 = UserDetail.user_id ud))
          (inner_join (λ p u, bool_decide (Post.author_id p = User.id u))
             (posts d) (users d))
          (user_details d))
       (post_images d))
  = match images_of_post postID d with
    | [] => [(p, u, ud, None)]
    | imgs => (λ i, (p, u, ud, Some i)) <$> imgs
    end.
Proof.
  intros Hp Hu Hud.
  assert (Post.id p = postID) as Hid.
  { assert (p ∈ filter (λ p, Post.id p = postID) (posts d)) as Hin by (rewrite Hp; left).
    by apply list_elem_of_filter in Hin as [? _]. }
  pose proof (left_join_filter_l (B := PostImage.t)
                (λ x : Post.t * User.t * option UserDetail.t,
                   bool_decide (Post.id x.1.1 = postID))) as H1.
  cbv beta in H1. rewrite H1. clear H1.
  pose proof (left_join_filter_l (B := UserDetail.t)
                (λ x : Post.t * User.t, bool_decide (Post.id x.1 = postID))) as H1.
  cbv beta in H1. rewrite H1. clear H1.
  pose proof (inner_join_filter_l (B := User.t)
                (λ x : Post.t, bool_decide (Post.id x = postID))) as H1.
  cbv beta in H1. rewrite H1. clear H1.
  rewrite List_filter_bool_decide, Hp.
  unfold inner_join. rewrite bind_cons, list_bind_nil, app_nil_r.
  rewrite List_filter_bool_decide.
  rewrite (list_filter_iff _ (λ u, User.id u = Post.author_id p)) by done.
  rewrite Hu. simpl. rewrite app_nil_r, List_filter_bool_decide.
  rewrite (list_filter_iff _ (λ ud, UserDetail.user_id ud = User.id u)) by done.
  rewrite Hud. unfold left_join, images_of_post.
  assert (filter (λ pi, Post.id p = PostImage.post_id pi) (post_images d)
          = filter (λ i, PostImage.post_id i = postID) (post_images d)) as Himgs.
  { apply list_filter_iff. intros i. by rewrite Hid. }
  destruct ud as [ud|]; simpl;
    by rewrite app_nil_r, List_filter_bool_decide, Himgs.
Qed.

(** The detail response read off the tables; the theorem below states it. *)
Lemma readPost_detail (ctx : Request unit) (c : Ctx Store) postID p u ud :
  strconv.Atoi (Param ctx "id") = Some postID →
  failures (store c) = [] →
  int32_columns (tables (store c)) →
  filter (λ p, Post.id p = postID) (posts (tables (store c))) = [p] →
  filter (λ u, User.id u = Post.author_id p) (users (tables (store c))) = [u] →
  filter (λ ud, UserDetail.user_id ud = User.id u) (user_details (tables (store c)))
  = option_list ud →
  readPost ctx c
  = (Next tt,
     mkCtx (store c)
           (written c
            ++ [mkResponse http.StatusOK
                  (PostDetailResponse
                     (detail_entry (viewer_of (Token ctx)) (tables (store c)) p u ud))])).
Proof.
  intros Hid Hfl Hfit Hp Hu Hud.
  assert (Post.id p = postID) as Hpid.
  { assert (p ∈ filter (λ p, Post.id p = postID) (posts (tables (store c)))) as Hin
      by (rewrite Hp; left).
    by apply list_elem_of_filter in Hin as [? _]. }
  unfold readPost, handler_bind. rewrite getUserIDAvoidPanic_value, Hid.
  fold (viewer_of (Token ctx)). unfold call.
  rewrite FetchPostByID_no_failure by done. unfold detail_query.
  rewrite (detail_query_rows postID _ p u ud) by done.
  destruct c as [[d fl n] w]. simpl in *. subst fl.
  assert (∀ o : option string, string_or_zero (NullString.of_option o) = default "" o)
    as Hstr by (by intros [?|]).
  assert (∀ o : option Z, int_or_zero (NullInt32.of_option o) = default 0 o)
    as Hint by (by intros [?|]).
  destruct (images_of_post postID d) as [|i imgs] eqn:Himgs.
  - rewrite fmap_cons, fmap_nil.
    unfold CountComment, CountPostLike, Query, repo_bind, attempt, repo_ret, JSON. simpl.
    rewrite !List_filter_bool_decide. unfold detail_entry. rewrite Hpid, Himgs.
    by rewrite !Hstr, !Hint.
  - rewrite fmap_cons.
    unfold CountComment, CountPostLike, Query, repo_bind, attempt, repo_ret, JSON. simpl.
    rewrite !List_filter_bool_decide. unfold detail_entry. rewrite Hpid, Himgs.
    rewrite !Hstr, !Hint, (append_loop image_response). simpl.
    by rewrite <- !list_fmap_compose.
Qed.

(** X15.  [readPost] on a store that works and whose batches and image ids
    fit 32 bits, for a post that is stored once, whose author is stored once
    and has at most one profile: the answer is 200 with the columns of the
    post and of its author (absent profile columns as empty strings and
    zero), the flags of the viewer, the two counts ([CountComment] and
    [CountPostLike], taken as the number of comments of the post and the
    number of its distinct likers), and one image per image record of the
    post, in table order.  The store is left as it was. *)
Theorem readPost_answers_the_post (ctx : Request unit) (c : Ctx Store) postID p u ud :
  strconv.Atoi (Param ctx "id") = Some postID →
  failures (store c) = [] →
  int32_columns (tables (store c)) →
  filter (λ p, Post.id p = postID) (posts (tables (store c))) = [p] →
  filter (λ u, User.id u = Post.author_id p) (users (tables (store c))) = [u] →
  filter (λ ud, UserDetail.user_id ud = User.id u) (user_details (tables (store c)))
  = option_list ud →
  readPost ctx c
  = (Next tt,
     mkCtx (store c)
           (written c
            ++ [mkResponse http.StatusOK
                  (PostDetailResponse
                     (detail_entry (viewer_of (Token ctx)) (tables (store c)) p u ud))])).
Proof. apply readPost_detail. Qed.

End DetailResponseFacts.

Lemma readPost_answers_the_post_witness :
  readPost (H := sample_env) (get_request [("id", "1")] [] (Resolved 8)) (sample_ctx [])
  = (Next tt,
     mkCtx (sample_store [])
       [mkResponse 200
          (PostDetailResponse
             (detail_entry (H := sample_env) 8 sample_db
                (Post.mk 1 7 1 "hello" "first" 100) (User.mk 7 "ann" "student" None) None))]).
Proof.
  apply (readPost_answers_the_post (H := sample_env)
           (get_request [("id", "1")] [] (Resolved 8)) (sample_ctx []) 1
           (Post.mk 1 7 1 "hello" "first" 100) (User.mk 7 "ann" "student" None) None
           eq_refl eq_refl sample_db_int32);
    reflexivity.
Defined.

(** ** Who may write, and what *)

(** [FetchAuthorIDByPostID] leaves the tables alone, and an author it
    returns is read from a post with the id. *)
Lemma FetchAuthorIDByPostID_outcome postID s :
  tables (FetchAuthorIDByPostID postID s).2 = tables s
  ∧ ∀ authorID, (FetchAuthorIDByPostID postID s).1 = inr authorID →
      ∃ p, p ∈ posts (tables s) ∧ Post.id p = postID ∧ Post.author_id p = authorID.
Proof.
  destruct (FetchAuthorIDByPostID postID s) as [r s'] eqn:Hf. simpl. split.
  - destruct s as [d fl n]. revert Hf. unfold FetchAuthorIDByPostID.
    destruct fl as [|[e0|] [|[e1|] [|[e2|] fl]]]; cbn;
      repeat (destruct (List.filter _ _) as [|? ?]; cbn);
      repeat (destruct (decide _); cbn); by intros [= <- <-].
  - intros authorID ->. unfold FetchAuthorIDByPostID in Hf.
    apply repo_try_inr in Hf as (tx & s1 & [-> _]%Begin_inr & Hf).
    unfold repo_bind in Hf.
    destruct (Query _ (tables s) s1) as [[e|a] s2] eqn:Hq.
    { by destruct (decide _). }
    apply Query_inr in Hq as [Hq _].
    destruct (List.filter _ (posts (tables s))) as [|p rest] eqn:Hp; [done|].
    injection Hq as <-.
    destruct (Commit _ s2) as [[e|] s3]; [done|]. injection Hf as <- _.
    assert (p ∈ List.filter (λ p, bool_decide (Post.id p = postID)) (posts (tables s)))
      as [Hin Hid%bool_decide_eq_true]%elem_of_List_filter by (rewrite Hp; left).
    eauto.
Qed.

(** The ownership check goes on only for the author of a post with the id;
    otherwise it returns.  It never changes a table. *)
Lemma check_post_owner_outcome postID reqAuthorID (c : Ctx Store) :
  tables (store (check_post_owner postID reqAuthorID c).2) = tables (store c)
  ∧ ((check_post_owner postID reqAuthorID c).1 = Returned
     ∨ ((check_post_owner postID reqAuthorID c).1 = Next tt
        ∧ written (check_post_owner postID reqAuthorID c).2 = written c
        ∧ ∃ p, p ∈ posts (tables (store c)) ∧ Post.id p = postID
               ∧ Post.author_id p = reqAuthorID)).
Proof.
  destruct (FetchAuthorIDByPostID_outcome postID (store c)) as [Ht Ha].
  unfold check_post_owner, handler_bind, call.
  destruct (FetchAuthorIDByPostID postID (store c)) as [[e|a] s1]; simpl in *.
  - destruct (decide (e = ErrPostNotFound)); simpl; eauto.
  - destruct (decide (a ≠ reqAuthorID)) as [Hne|Heq%dec_stable]; simpl; [eauto|].
    split; [done|]. right. split_and!; try done.
    destruct (Ha a eq_refl) as (p & Hp & Hid & Hau). exists p. by rewrite <- Heq.
Qed.

Section WriteFacts.
Context `{Environment}.

(** X16.  [updatePost] and [deletePost] change a table only for the author: if the
    tables after the handler differ from the tables before, whatever the
    request and whichever driver call fails, then the token lookup did not
    panic and some stored post has the target id and, as its author, the id
    the lookup returned. *)
Theorem post_writes_need_ownership (cu : Request UpdatePostRequest.t) (cd : Request unit)
    (c : Ctx Store) :
  (tables (store (updatePost cu c).2) ≠ tables (store c) →
   ∃ req p, Bound cu = inr req ∧ Token cu ≠ Panics
            ∧ p ∈ posts (tables (store c))
            ∧ Post.id p = UpdatePostRequest.ID req
            ∧ Post.author_id p = viewer_of (Token cu))
  ∧ (tables (store (deletePost cd c).2) ≠ tables (store c) →
     ∃ postID p, strconv.Atoi (Param cd "id") = Some postID ∧ Token cd ≠ Panics
                 ∧ p ∈ posts (tables (store c))
                 ∧ Post.id p = postID
                 ∧ Post.author_id p = viewer_of (Token cd)).
Proof.
  split.
  - unfold updatePost. destruct (Bound cu) as [e|req]; [done|].
    unfold handler_bind at 1. unfold getUserIdFromToken.
    destruct (Token cu) as [id|id err|] eqn:Htok; [| |done]; simpl.
    + unfold handler_bind at 1. simpl. unfold handler_bind at 1.
      destruct (check_post_owner_outcome (UpdatePostRequest.ID req) id c)
        as [Ht [Hr|(Hr & Hw & p & Hp & Hid & Hau)]];
        destruct (check_post_owner _ id c) as [[[]| |] c1]; simpl in *; try done.
      destruct (negb _ || negb _); simpl.
      { intros Hne. by rewrite Ht in Hne. }
      unfold handler_bind, call.
      destruct (UpdatePost_cases (UpdatePostRequest.ID req) (UpdatePostRequest.CategoryID req)
                  (UpdatePostRequest.Title req) (UpdatePostRequest.Description req) (store c1))
        as [[fl' ->]|(e & fl' & ->)]; simpl; intros Hne.
      * exists req, p. done.
      * by rewrite Ht in Hne.
    + unfold handler_bind at 1. simpl. unfold handler_bind at 1.
      destruct (check_post_owner_outcome (UpdatePostRequest.ID req) id
                  (mkCtx (store c)
                     (written c ++ [mkResponse http.StatusBadRequest
                                      (ErrorPostResponse "Your ID cann't read")])))
        as [Ht [Hr|(Hr & Hw & p & Hp & Hid & Hau)]];
        destruct (check_post_owner _ id _) as [[[]| |] c1]; simpl in *; try done.
      destruct (negb _ || negb _); simpl.
      { intros Hne. by rewrite Ht in Hne. }
      unfold handler_bind, call.
      destruct (UpdatePost_cases (UpdatePostRequest.ID req) (UpdatePostRequest.CategoryID req)
                  (UpdatePostRequest.Title req) (UpdatePostRequest.Description req) (store c1))
        as [[fl' ->]|(e & fl' & ->)]; simpl; intros Hne.
      * exists req, p. done.
      * by rewrite Ht in Hne.
  - unfold deletePost. destruct (strconv.Atoi (Param cd "id")) as [postID|]; [|done].
    unfold handler_bind at 1. unfold getUserIdFromToken.
    destruct (Token cd) as [id|id err|] eqn:Htok; [| |done]; simpl.
    + unfold handler_bind at 1. simpl. unfold handler_bind at 1.
      destruct (check_post_owner_outcome postID id c)
        as [Ht [Hr|(Hr & Hw & p & Hp & Hid & Hau)]];
        destruct (check_post_owner _ id c) as [[[]| |] c1]; simpl in *; try done.
      unfold handler_bind, call.
      destruct (DeletePostByID_cases postID (store c1))
        as [[fl' ->]|(e & fl' & ->)]; simpl; intros Hne.
      * exists postID, p. done.
      * by rewrite Ht in Hne.
    + unfold handler_bind at 1. simpl. unfold handler_bind at 1.
      destruct (check_post_owner_outcome postID id
                  (mkCtx (store c)
                     (written c ++ [mkResponse http.StatusBadRequest
                                      (ErrorPostResponse "Your ID cann't read")])))
        as [Ht [Hr|(Hr & Hw & p & Hp & Hid & Hau)]];
        destruct (check_post_owner _ id _) as [[[]| |] c1]; simpl in *; try done.
      unfold handler_bind, call.
      destruct (DeletePostByID_cases postID (store c1))
        as [[fl' ->]|(e & fl' & ->)]; simpl; intros Hne.
      * exists postID, p. done.
      * by rewrite Ht in Hne.
Qed.

End WriteFacts.

Lemma post_writes_need_ownership_witness :
  (∃ req p,
     Bound (mkRequest ∅ ∅ "" (inr (UpdatePostRequest.mk 1 2 "hi" "again")) (Resolved 7))
     = inr req
     ∧ p ∈ posts sample_db ∧ Post.id p = UpdatePostRequest.ID req ∧ Post.author_id p = 7)
  ∧ (∃ p, p ∈ posts sample_db ∧ Post.id p = 1 ∧ Post.author_id p = 7).
Proof.
  destruct (post_writes_need_ownership (H := sample_env)
              (mkRequest ∅ ∅ "" (inr (UpdatePostRequest.mk 1 2 "hi" "again")) (Resolved 7))
              (get_request [("id", "1")] [] (Rejected 7 (ErrOther "token is expired")))
              (sample_ctx [])) as [Hu Hd].
  split.
  - destruct Hu as (req & p & Hb & _ & Hp & Hid & Hau); [vm_compute; discriminate|].
    by exists req, p.
  - destruct Hd as (postID & p & Hpid & _ & Hp & Hid & Hau); [vm_compute; discriminate|].
    exists p. split_and!; [done| |done].
    rewrite Hid. vm_compute in Hpid. by injection Hpid as <-.
Defined.

Lemma check_post_owner_author postID reqAuthorID (c : Ctx Store) :
  failures (store c) = [] →
  (∃ p, p ∈ posts (tables (store c)) ∧ Post.id p = postID) →
  (∀ p, p ∈ posts (tables (store c)) → Post.id p = postID →
        Post.author_id p = reqAuthorID) →
  check_post_owner postID reqAuthorID c = (Next tt, c).
Proof.
  intros Hfl Hex Hown. unfold check_post_owner, handler_bind, call.
  destruct (FetchAuthorIDByPostID_present postID (store c) Hfl Hex) as (p & Hp & Hid & ->).
  simpl. rewrite decide_False by (intros Hne; by apply Hne, Hown).
  by destruct c.
Qed.

Section AuthorFacts.
Context `{Environment}.

(** X17.  What the author gets.  On a store that works, for a caller whose
    identity is resolved and who is the author of the post with the target
    id: [updatePost], for a body that binds and passes the word filter,
    answers 200 "Post Updated" and the posts with that id hold the new
    category, title and description, keeping id, author and creation time;
    [deletePost] answers 200 "Post Deleted" and neither a post with that id
    nor an image of it remains.  All other rows are as before, and nothing
    else is written to the response. *)
Theorem author_writes_succeed :
  (∀ (ctx : Request UpdatePostRequest.t) (c : Ctx Store) req userID,
     Bound ctx = inr req →
     Token ctx = Resolved userID →
     failures (store c) = [] →
     Validate (UpdatePostRequest.Title req) = true →
     Validate (UpdatePostRequest.Description req) = true →
     (∃ p, p ∈ posts (tables (store c)) ∧ Post.id p = UpdatePostRequest.ID req) →
     (∀ p, p ∈ posts (tables (store c)) → Post.id p = UpdatePostRequest.ID req →
           Post.author_id p = userID) →
     updatePost ctx c
     = (Next tt,
        mkCtx (mkStore
                 (set_posts
                    (fmap (λ p, if bool_decide (Post.id p = UpdatePostRequest.ID req)
                                then Post.mk (Post.id p) (Post.author_id p)
                                       (UpdatePostRequest.CategoryID req)
                                       (UpdatePostRequest.Title req)
                                       (UpdatePostRequest.Description req)
                                       (Post.created_at p)
                                else p))
                    (tables (store c)))
                 [] (now (store c)))
              (written c
               ++ [mkResponse http.StatusOK (SuccessPostResponse "Post Updated")])))
  ∧ (∀ (ctx : Request unit) (c : Ctx Store) postID userID,
       strconv.Atoi (Param ctx "id") = Some postID →
       Token ctx = Resolved userID →
       failures (store c) = [] →
       (∃ p, p ∈ posts (tables (store c)) ∧ Post.id p = postID) →
       (∀ p, p ∈ posts (tables (store c)) → Post.id p = postID →
             Post.author_id p = userID) →
       deletePost ctx c
       = (Next tt,
          mkCtx (mkStore
                   (set_post_images
                      (filter (λ i, PostImage.post_id i ≠ postID))
                      (set_posts (filter (λ p, Post.id p ≠ postID)) (tables (store c))))
                   [] (now (store c)))
                (written c
                 ++ [mkResponse http.StatusOK (SuccessPostResponse "Post Deleted")]))).
Proof.
  split.
  - intros ctx c req userID Hb Htok Hfl Ht Hd Hex Hown.
    unfold updatePost. rewrite Hb. unfold handler_bind at 1. unfold getUserIdFromToken.
    rewrite Htok. simpl. unfold handler_bind at 1. simpl. unfold handler_bind at 1.
    rewrite check_post_owner_author by done. rewrite Ht, Hd. simpl.
    destruct c as [[d fl n] w]. simpl in *. by subst fl.
  - intros ctx c postID userID Hid Htok Hfl Hex Hown.
    unfold deletePost. rewrite Hid. unfold handler_bind at 1. unfold getUserIdFromToken.
    rewrite Htok. simpl. unfold handler_bind at 1. simpl. unfold handler_bind at 1.
    rewrite check_post_owner_author by done.
    assert (∀ {A} (f : A → Z) (l : list A),
              filter (λ x, f x ≠ postID) l
              = List.filter (λ x, negb (bool_decide (f x = postID))) l) as Hflt.
    { intros A f l. rewrite <- List_filter_bool_decide. apply List.filter_ext.
      intros x. by rewrite bool_decide_not. }
    destruct c as [[d fl n] w]. simpl in *. subst fl.
    unfold set_post_images, set_posts. cbn -[filter].
    by rewrite (Hflt _ PostImage.post_id), (Hflt _ Post.id).
Qed.

End AuthorFacts.

Lemma author_writes_succeed_witness :
  Post.title
    <$> posts (tables (store
          (updatePost (H := sample_env)
             (mkRequest ∅ ∅ "" (inr (UpdatePostRequest.mk 1 2 "hi" "again")) (Resolved 7))
             (sample_ctx [])).2))
  = ["hi"; "world"; "survey"]
  ∧ Post.id
      <$> posts (tables (store
            (deletePost (get_request [("id", "1")] [] (Resolved 7)) (sample_ctx [])).2))
    = [2; 3].
Proof.
  destruct (author_writes_succeed (H := sample_env)) as [Hu Hd]. split.
  - rewrite (Hu (mkRequest ∅ ∅ "" (inr (UpdatePostRequest.mk 1 2 "hi" "again")) (Resolved 7))
               (sample_ctx []) (UpdatePostRequest.mk 1 2 "hi" "again") 7);
      try reflexivity.
    + exists (Post.mk 1 7 1 "hello" "first" 100). split; [left|reflexivity].
    + intros p Hp Hid.
      repeat (apply elem_of_cons in Hp as [->|Hp]; [by vm_compute in Hid || done|]).
      by apply not_elem_of_nil in Hp.
  - rewrite (Hd (get_request [("id", "1")] [] (Resolved 7)) (sample_ctx []) 1 7);
      try reflexivity.
    + exists (Post.mk 1 7 1 "hello" "first" 100). split; [left|reflexivity].
    + intros p Hp Hid.
      repeat (apply elem_of_cons in Hp as [->|Hp]; [by vm_compute in Hid || done|]).
      by apply not_elem_of_nil in Hp.
Defined.

(** ** The word filter *)

Section ModerationFacts.
Context `{Environment}.

(** X18.  [createPost] and [updatePost] never store text that the word filter
    rejects: if every stored post has an accepted title and description,
    that still holds after either handler, whatever the request, whatever
    the token lookup does and whichever driver call fails. *)
Theorem post_handlers_keep_moderated (cc : Request CreatePostRequest.t)
    (cu : Request UpdatePostRequest.t) (c : Ctx Store) :
  moderated (tables (store c)) →
  moderated (tables (store (createPost cc c).2))
  ∧ moderated (tables (store (updatePost cu c).2)).
Proof.
  intros Hm. split.
  - unfold createPost. destruct (Bound cc) as [e|req]; [done|].
    destruct (Validate (CreatePostRequest.Title req)) eqn:Ht; [|done].
    destruct (Validate (CreatePostRequest.Description req)) eqn:Hd; [|done].
    simpl. unfold handler_bind at 1. unfold getUserIdFromToken.
    assert (∀ id w,
      moderated (tables (store
        (handler_bind
           (call (InsertPost id (CreatePostRequest.CategoryID req)
                    (CreatePostRequest.Title req) (CreatePostRequest.Description req)))
           (λ r, match r with
                 | inl _ =>
                     (JSON http.StatusInternalServerError
                        (ErrorPostResponse "Internal Server Error") ;ₕ Return)%handler
                 | inr postID => JSON http.StatusOK (CreatePostResponse postID "Post Created")
                 end)
           (mkCtx (store c) w)).2))) as Hins.
    { intros id w. unfold handler_bind, call. simpl.
      destruct (InsertPost_cases id (CreatePostRequest.CategoryID req)
                  (CreatePostRequest.Title req) (CreatePostRequest.Description req) (store c))
        as [[fl' ->]|(e & fl' & ->)]; simpl; [|done].
      apply Forall_app. split; [done|]. by apply Forall_singleton. }
    destruct (Token cc) as [id|id err|]; simpl; [| |done].
    + unfold handler_bind at 1. simpl. destruct c as [s w]. apply Hins.
    + unfold handler_bind at 1. simpl. apply Hins.
  - unfold updatePost. destruct (Bound cu) as [e|req]; [done|].
    unfold handler_bind at 1. unfold getUserIdFromToken.
    assert (∀ id c0, tables (store c0) = tables (store c) →
      moderated (tables (store
        (handler_bind (check_post_owner (UpdatePostRequest.ID req) id)
           (λ _,
              if negb (Validate (UpdatePostRequest.Title req))
                 || negb (Validate (UpdatePostRequest.Description req))
              then (JSON http.StatusBadRequest
                      (ErrorPostResponse "Your post contains bad words") ;ₕ Return)%handler
              else
                (e ←ₕ call (UpdatePost (UpdatePostRequest.ID req)
                              (UpdatePostRequest.CategoryID req)
                              (UpdatePostRequest.Title req)
                              (UpdatePostRequest.Description req));
                 match e with
                 | Some _ =>
                     JSON http.StatusInternalServerError
                       (ErrorPostResponse "Internal Server Error") ;ₕ Return
                 | None => JSON http.StatusOK (SuccessPostResponse "Post Updated")
                 end)%handler)
           c0).2))) as Hupd.
    { intros id c0 Hc0. unfold handler_bind at 1.
      destruct (check_post_owner_outcome (UpdatePostRequest.ID req) id c0) as [Ht _].
      destruct (check_post_owner _ id c0) as [[[]| |] c1]; simpl in *;
        try (unfold moderated; by rewrite Ht, Hc0).
      destruct (Validate (UpdatePostRequest.Title req)) eqn:Hvt; simpl;
        [|unfold moderated; by rewrite Ht, Hc0].
      destruct (Validate (UpdatePostRequest.Description req)) eqn:Hvd; simpl;
        [|unfold moderated; by rewrite Ht, Hc0].
      unfold handler_bind, call.
      destruct (UpdatePost_cases (UpdatePostRequest.ID req) (UpdatePostRequest.CategoryID req)
                  (UpdatePostRequest.Title req) (UpdatePostRequest.Description req) (store c1))
        as [[fl' ->]|(e & fl' & ->)]; simpl;
        [|unfold moderated; by rewrite Ht, Hc0].
      unfold moderated. simpl. rewrite Ht, Hc0. apply Forall_fmap.
      eapply Forall_impl; [exact Hm|]. intros p Hp. simpl.
      by destruct (bool_decide _). }
    destruct (Token cu) as [id|id err|]; simpl; [| |done].
    + unfold handler_bind at 1. simpl. by apply Hupd.
    + unfold handler_bind at 1. simpl. by apply Hupd.
Qed.

End ModerationFacts.

Lemma post_handlers_keep_moderated_witness :
  moderated (H := sample_env)
    (tables (store
       (createPost (H := sample_env)
          (mkRequest ∅ ∅ "" (inr (CreatePostRequest.mk 1 "darn" "it")) (Resolved 7))
          (sample_ctx [])).2))
  ∧ moderated (H := sample_env)
      (tables (store
         (updatePost (H := sample_env)
            (mkRequest ∅ ∅ "" (inr (UpdatePostRequest.mk 1 2 "hi" "darn")) (Resolved 7))
            (sample_ctx [])).2)).
Proof.
  apply (post_handlers_keep_moderated (H := sample_env)).
  repeat constructor.
Defined.

(** ** The questionnaire handlers *)

Ltac answered := by (unfold one_answer; simpl; eauto).

Section QuestionnaireFacts.
Context `{Environment} {S : Type} {repo : questionnaireRepo.t S}.

Lemma optional_user_outcome {B} (c : Request B) (x : Ctx S) :
  Authorization c = "" ∨ Token c ≠ Panics →
  (∃ userID, optional_user c x = (Next userID, x))
  ∨ (∃ r, optional_user c x = (Returned, mkCtx (store x) (written x ++ [r]))).
Proof.
  intros Hid. unfold optional_user.
  destruct (decide (Authorization c ≠ "")) as [Hauth|Hauth]; [|left; by eexists].
  destruct Hid as [Hid|Hid]; [done|].
  unfold handler_bind, getUserIdFromToken.
  destruct (Token c) as [id|id err|]; [| |done]; simpl; eauto.
Qed.

Lemma required_user_outcome {B} (c : Request B) (x : Ctx S) :
  Token c ≠ Panics →
  (∃ userID, required_user c x = (Next userID, x))
  ∨ (∃ r, required_user c x = (Returned, mkCtx (store x) (written x ++ [r]))).
Proof.
  intros Hid. unfold required_user, handler_bind, getUserIdFromToken.
  destruct (Token c) as [id|id err|]; [| |done]; simpl; eauto.
Qed.

Lemma check_questionnaire_owner_outcome userID postID (x : Ctx S) :
  (∃ s, check_questionnaire_owner userID postID x = (Next tt, mkCtx s (written x)))
  ∨ (∃ s r, check_questionnaire_owner userID postID x
            = (Returned, mkCtx s (written x ++ [r]))).
Proof.
  unfold check_questionnaire_owner, handler_bind, call.
  destruct (questionnaireRepo.ReadAllQuestionnaireByID userID postID (store x))
    as [[q [err|]] s]; simpl; [eauto|].
  destruct (decide (q = Questionnaire.zero)); simpl; [eauto|].
  destruct (decide (Questionnaire.AuthorId q ≠ userID)); simpl; eauto.
Qed.

(** X19.  Each of the five questionnaire handlers answers a request exactly once
    and then ends, whatever the request holds and whatever the repository
    returns, as long as the token lookup it makes does not panic (the two
    read handlers make none for a request without an [Authorization]
    header). *)
Theorem questionnaire_handlers_answer_once (x : Ctx S) :
  (∀ c : Request unit, Authorization c = "" ∨ Token c ≠ Panics →
     one_answer x (ReadAllQuestionnaires c x))
  ∧ (∀ c : Request unit, Authorization c = "" ∨ Token c ≠ Panics →
       one_answer x (ReadAllQuestionnaireByID c x))
  ∧ (∀ c : Request CreateQuestionnaireRequest.t, Token c ≠ Panics →
       one_answer x (CreateQuestionnaire c x))
  ∧ (∀ c : Request UpdateQuestionnaireRequest.t, Token c ≠ Panics →
       one_answer x (UpdateQuestionnaire c x))
  ∧ (∀ c : Request unit, Token c ≠ Panics →
       one_answer x (DeleteQuestionnaire c x)).
Proof.
  split_and!.
  - intros c Hid. unfold ReadAllQuestionnaires.
    destruct (questionnaire_sort_by _) as [sortBy|]; [|answered].
    destruct (strconv.Atoi _) as [categoryId|]; [|answered].
    destruct (strconv.ParseBool _) as [me|]; [|answered].
    unfold handler_bind at 1.
    destruct (optional_user_outcome c x Hid) as [[userID ->]|[r ->]]; [|answered].
    unfold handler_bind at 1.
    destruct me; [destruct (decide (userID ≠ -1)); [|answered]|];
      simpl; unfold handler_bind, call;
      destruct (questionnaireRepo.ReadAllQuestionnaires _ _ _ _) as [[l [err|]] s];
      answered.
  - intros c Hid. unfold ReadAllQuestionnaireByID.
    destruct (strconv.Atoi _) as [postID|]; [|answered].
    unfold handler_bind at 1.
    destruct (optional_user_outcome c x Hid) as [[userID ->]|[r ->]]; [|answered].
    unfold handler_bind, call.
    destruct (questionnaireRepo.ReadAllQuestionnaireByID _ _ _) as [[q [err|]] s];
      simpl; [answered|].
    destruct (decide _); answered.
  - intros c Hid. unfold CreateQuestionnaire.
    destruct (Bound c) as [[?|? ?|?]|req]; [answered..|].
    destruct (negb _ || negb _); [answered|].
    unfold handler_bind at 1.
    destruct (required_user_outcome c x Hid) as [[userID ->]|[r ->]]; [|answered].
    unfold handler_bind, call.
    destruct (questionnaireRepo.InsertQuestionnaire _ _) as [[err|] s]; answered.
  - intros c Hid. unfold UpdateQuestionnaire.
    destruct (Bound c) as [[?|? ?|?]|req]; [answered..|].
    destruct (negb _ || negb _); [answered|].
    unfold handler_bind at 1.
    destruct (required_user_outcome c x Hid) as [[userID ->]|[r ->]]; [|answered].
    unfold handler_bind at 1.
    destruct (check_questionnaire_owner_outcome userID (UpdateQuestionnaireRequest.ID req) x)
      as [[s ->]|(s & r & ->)]; [|answered].
    unfold handler_bind, call.
    destruct (questionnaireRepo.UpdateQuestionnaire _ _) as [[err|] s']; answered.
  - intros c Hid. unfold DeleteQuestionnaire.
    destruct (strconv.Atoi _) as [postID|]; [|answered].
    unfold handler_bind at 1.
    destruct (required_user_outcome c x Hid) as [[userID ->]|[r ->]]; [|answered].
    unfold handler_bind at 1.
    destruct (check_questionnaire_owner_outcome userID postID x)
      as [[s ->]|(s & r & ->)]; [|answered].
    unfold handler_bind, call.
    destruct (questionnaireRepo.DeleteQuestionnaire _ _) as [[err|] s']; answered.
Qed.

End QuestionnaireFacts.

Lemma questionnaire_handlers_answer_once_witness :
  one_answer (mkCtx sample_questionnaires [])
    (ReadAllQuestionnaires (repo := sample_questionnaireRepo)
       (get_request [] [("me", "true")] Panics) (mkCtx sample_questionnaires []))
  ∧ one_answer (mkCtx sample_questionnaires [])
      (DeleteQuestionnaire (repo := sample_questionnaireRepo)
         (get_request [("id", "3")] [] (Resolved 8)) (mkCtx sample_questionnaires [])).
Proof.
  destruct (questionnaire_handlers_answer_once (H := sample_env)
              (repo := sample_questionnaireRepo) (mkCtx sample_questionnaires []))
    as (Hall & _ & _ & _ & Hdel).
  split; [apply Hall; by left|apply Hdel; discriminate].
Defined.

Section QuestionnaireWriteFacts.
Context `{Environment} {S : Type} {repo : questionnaireRepo.t S}.

(** X20.  [UpdateQuestionnaire] and [DeleteQuestionnaire] reach the repository's
    update or delete method only for the owner.  Whatever the request and
    whatever the repository returns, the store after the handler is the
    store before it, or the store after the one lookup by id made for the
    resolved caller, or the store after the mutation that follows it;
    and the last only when the lookup returned, without an error, a
    questionnaire other than the zero value whose author is the resolved
    caller (and, for the update, the body bound and passed the word
    filter). *)
Theorem questionnaire_writes_need_ownership (x : Ctx S) :
  (∀ c : Request UpdateQuestionnaireRequest.t,
     store (UpdateQuestionnaire c x).2 = store x
     ∨ ∃ req userID,
         Bound c = inr req ∧ Token c = Resolved userID
         ∧ Validate (UpdateQuestionnaireRequest.Title req) = true
         ∧ Validate (UpdateQuestionnaireRequest.Description req) = true
         ∧ let found :=
             questionnaireRepo.ReadAllQuestionnaireByID
               userID (UpdateQuestionnaireRequest.ID req) (store x) in
           store (UpdateQuestionnaire c x).2 = found.2
           ∨ (found.1.2 = None
              ∧ found.1.1 ≠ Questionnaire.zero
              ∧ Questionnaire.AuthorId found.1.1 = userID
              ∧ ∃ q, Questionnaire.ID q = UpdateQuestionnaireRequest.ID req
                     ∧ store (UpdateQuestionnaire c x).2
                       = (questionnaireRepo.UpdateQuestionnaire q found.2).2))
  ∧ (∀ c : Request unit,
       store (DeleteQuestionnaire c x).2 = store x
       ∨ ∃ postID userID,
           strconv.Atoi (Param c "id") = Some postID ∧ Token c = Resolved userID
           ∧ let found :=
               questionnaireRepo.ReadAllQuestionnaireByID userID postID (store x) in
             store (DeleteQuestionnaire c x).2 = found.2
             ∨ (found.1.2 = None
                ∧ found.1.1 ≠ Questionnaire.zero
                ∧ Questionnaire.AuthorId found.1.1 = userID
                ∧ store (DeleteQuestionnaire c x).2
                  = (questionnaireRepo.DeleteQuestionnaire postID found.2).2)).
Proof.
  split.
  - intros c. unfold UpdateQuestionnaire.
    destruct (Bound c) as [[?|? ?|?]|req] eqn:Hb; [by left..|].
    destruct (Validate (UpdateQuestionnaireRequest.Title req)) eqn:Ht; [|by left].
    destruct (Validate (UpdateQuestionnaireRequest.Description req)) eqn:Hd; [|by left].
    simpl. unfold required_user, check_questionnaire_owner, handler_bind, call,
      getUserIdFromToken.
    destruct (Token c) as [userID|userID err|] eqn:Htok; [|by left..].
    simpl. right. exists req, userID. split_and!; try done.
    destruct (questionnaireRepo.ReadAllQuestionnaireByID userID
                (UpdateQuestionnaireRequest.ID req) (store x)) as [[q [err|]] s];
      simpl; [by left|].
    destruct (decide (q = Questionnaire.zero)); simpl; [by left|].
    destruct (decide (Questionnaire.AuthorId q ≠ userID)) as [|Heq%dec_stable]; simpl;
      [by left|].
    right. split_and!; try done.
    exists (Questionnaire.mk (UpdateQuestionnaireRequest.ID req) 0
              (UpdateQuestionnaireRequest.CategoryID req)
              (UpdateQuestionnaireRequest.Title req)
              (UpdateQuestionnaireRequest.Description req)
              (UpdateQuestionnaireRequest.Link req)
              (UpdateQuestionnaireRequest.Reward req)).
    split; [done|].
    by destruct (questionnaireRepo.UpdateQuestionnaire _ s) as [[err|] s'].
  - intros c. unfold DeleteQuestionnaire.
    destruct (strconv.Atoi (Param c "id")) as [postID|] eqn:Hid; [|by left].
    unfold required_user, check_questionnaire_owner, handler_bind, call,
      getUserIdFromToken.
    destruct (Token c) as [userID|userID err|] eqn:Htok; [|by left..].
    simpl. right. exists postID, userID. split_and!; try done.
    destruct (questionnaireRepo.ReadAllQuestionnaireByID userID postID (store x))
      as [[q [err|]] s]; simpl; [by left|].
    destruct (decide (q = Questionnaire.zero)); simpl; [by left|].
    destruct (decide (Questionnaire.AuthorId q ≠ userID)) as [|Heq%dec_stable]; simpl;
      [by left|].
    right. split_and!; try done.
    by destruct (questionnaireRepo.DeleteQuestionnaire postID s) as [[err|] s'].
Qed.

End QuestionnaireWriteFacts.

(** ** An upload on a store that works *)

Lemma omap_insert_eq {A B} (f : A → option B) (l : list A) i x y :
  l !! i = Some x → f y = f x → omap f (<[i:=y]> l) = omap f l.
Proof.
  intros Hi Hf. rewrite insert_take_drop by (by eapply lookup_lt_Some).
  rewrite <- (take_drop_middle l i x) at 3 by done.
  rewrite !omap_app. simpl. by rewrite Hf.
Qed.

Lemma omap_insert_Some {A B} (f : A → option B) (l : list A) i x y b :
  l !! i = Some x → f x = None → f y = Some b → omap f (<[i:=y]> l) ≡ₚ omap f l ++ [b].
Proof.
  intros Hi Hx Hy. rewrite insert_take_drop by (by eapply lookup_lt_Some).
  rewrite <- (take_drop_middle l i x) at 3 by done.
  rewrite !omap_app. simpl. rewrite Hx, Hy.
  rewrite <- app_assoc. apply Permutation_app_head.
  by rewrite <- Permutation_cons_append.
Qed.

Lemma sum_list_with_insert_lt {A} (f : A → nat) (l : list A) i x y :
  l !! i = Some x → (f y < f x)%nat →
  (sum_list_with f (<[i:=y]> l) < sum_list_with f l)%nat.
Proof.
  intros Hi Hf. rewrite insert_take_drop by (by eapply lookup_lt_Some).
  rewrite <- (take_drop_middle l i x) at 3 by done.
  rewrite !sum_list_with_app. simpl. lia.
Qed.

Lemma run_app postID s1 s2 st :
  run postID (s1 ++ s2) st = run postID s2 (run postID s1 st).
Proof. unfold run. by rewrite foldl_app. Qed.

Lemma upload_inv_spawned postID files (c : Ctx Store) :
  failures (store c) = [] → upload_inv postID files c (spawned files c).
Proof.
  intros Hfl. unfold upload_inv, spawned. simpl. split_and!; try done.
  - rewrite <- list_fmap_compose. by rewrite list_fmap_id.
  - apply Forall_fmap, Forall_forall. by intros f _.
  - left. split; [done|]. apply Forall_fmap, Forall_forall. by intros f _.
  - exists [], []. split_and!; try done.
    + destruct (tables (store c)). unfold set_post_images. simpl. by rewrite app_nil_r.
    + induction files as [|f files IH]; [done|]. by rewrite fmap_cons.
    + by rewrite app_nil_r.
    + induction files as [|f files IH]; [done|]. by rewrite fmap_cons.
Qed.

Lemma upload_inv_step postID files c i st st' :
  upload_inv postID files c st → step_at postID i st = Some st' →
  upload_inv postID files c st'.
Proof.
  destruct st as [[s w] m gs].
  intros (Hfiles & Hfl & Htrack & Hlock & new & more & Htab & Hnew & Hrec & Hw & Hrep).
  simpl in *. unfold step_at. simpl.
  destruct (gs !! i) as [[file pc]|] eqn:Hi; [|done].
  assert (on_track (file, pc)) as Hpc by (by eapply Forall_lookup_1 in Htrack).
  assert (∀ pc', fst <$> <[i:=(file, pc')]> gs = files) as Hfiles'.
  { intros pc'. rewrite list_fmap_insert. simpl. rewrite list_insert_id; [done|].
    by rewrite list_lookup_fmap, Hi. }
  assert (∀ pc', outside_lock pc → outside_lock pc' →
            (m = false ∧ Forall (λ g, outside_lock g.2) (<[i:=(file, pc')]> gs))
            ∨ (m = true
               ∧ ∃ i0 g, <[i:=(file, pc')]> gs !! i0 = Some g
                         ∧ (g.2 = AtInsert ∨ g.2 = AtUnlock)
                         ∧ ∀ j g', j ≠ i0 → <[i:=(file, pc')]> gs !! j = Some g' →
                                   outside_lock g'.2)) as Hlock'.
  { intros pc' Hout Hout'.
    destruct Hlock as [[Hm Hall]|(Hm & i0 & g & Hi0 & Hg & Hothers)].
    - left. split; [done|]. by apply Forall_insert.
    - right. split; [done|]. destruct (decide (i = i0)) as [->|Hne].
      + rewrite Hi in Hi0. injection Hi0 as <-. simpl in Hg.
        destruct Hout as [? ?]. by destruct Hg.
      + exists i0, g. split_and!; [by rewrite list_lookup_insert_ne|done|].
        intros j g' Hj. destruct (decide (j = i)) as [->|Hji].
        * rewrite list_lookup_insert_eq by (by eapply lookup_lt_Some).
          by intros [= <-].
        * rewrite list_lookup_insert_ne by done. by apply Hothers. }
  assert (∀ pc', outside_lock pc → outside_lock pc' → pc ≠ Finished → pc' ≠ Finished →
            on_track (file, pc') →
            upload_inv postID files c
              (mkUploading (mkCtx s w) m (<[i:=(file, pc')]> gs))) as Hnext.
  { intros pc' Hout Hout' Hnf Hnf' Htr. unfold upload_inv. simpl.
    split_and!; try done; [by apply Forall_insert|by apply Hlock'|].
    exists new, more. split_and!; try done.
    - rewrite (omap_insert_eq _ _ _ (file, pc)); [done|done|].
      unfold recorded. simpl. destruct Hout as [? ?], Hout' as [? ?].
      by destruct pc, pc'.
    - rewrite (omap_insert_eq _ _ _ (file, pc)); [done|done|].
      unfold reported. simpl. by destruct pc, pc'. }
  assert (∀ err, outside_lock pc → pc ≠ Finished → file_error file = Some err →
            upload_inv postID files c
              (mkUploading
                 (respond (mkCtx s w) http.StatusInternalServerError
                    (ErrorPostResponse (Error err)))
                 m (<[i:=(file, Finished)]> gs))) as Hstop.
  { intros err Hout Hnf Herr. unfold upload_inv. simpl.
    split_and!; try done; [by apply Forall_insert|by apply Hlock'|].
    exists new, (more ++ [internal_error err]). split_and!; try done.
    - rewrite (omap_insert_eq _ _ _ (file, pc)); [done|done|].
      unfold recorded. simpl. rewrite Herr. destruct Hout as [? ?]. by destruct pc.
    - by rewrite Hw, app_assoc.
    - rewrite (omap_insert_Some _ _ _ (file, pc) _ (internal_error err)); try done.
      + by apply Permutation_app_tail.
      + unfold reported. simpl. by destruct pc.
      + unfold reported. simpl. by rewrite Herr. }
  destruct pc; simpl.
  - destruct (Upload.open_err file) as [err|] eqn:Ho; intros [= <-].
    + apply Hstop; [done..|]. unfold file_error. by rewrite Ho.
    + by apply Hnext.
  - cbn in Hpc. destruct (Upload.create_err file) as [err|] eqn:Hc; intros [= <-].
    + apply Hstop; [done..|]. unfold file_error. by rewrite Hpc, Hc.
    + by apply Hnext.
  - cbn in Hpc. destruct Hpc as [Ho Hc].
    destruct (Upload.copy_err file) as [err|] eqn:Hy; intros [= <-].
    + apply Hstop; [done..|]. unfold file_error. by rewrite Ho, Hc, Hy.
    + apply Hnext; try done. unfold on_track, file_error. simpl. by rewrite Ho, Hc, Hy.
  - destruct m; [done|]. intros [= <-].
    destruct Hlock as [[_ Hall]|[? _]]; [|done].
    unfold upload_inv. simpl. split_and!; try done; [by apply Forall_insert| |].
    + right. split; [done|]. exists i, (file, AtInsert). split_and!.
      * apply list_lookup_insert_eq. by eapply lookup_lt_Some.
      * by left.
      * intros j g' Hj. rewrite list_lookup_insert_ne by done.
        intros Hg. by eapply Forall_lookup_1 in Hall.
    + exists new, more. split_and!; try done.
      * by rewrite (omap_insert_eq _ _ _ (file, AtLock)).
      * by rewrite (omap_insert_eq _ _ _ (file, AtLock)).
  - destruct s as [d fl n]. simpl in *. subst fl. cbn. intros [= <-].
    assert (m = true ∧ ∀ j g', j ≠ i → gs !! j = Some g' → outside_lock g'.2)
      as [-> Hothers].
    { destruct Hlock as [[_ Hall]|(Hm & i0 & g & Hi0 & Hg & Hothers)].
      - eapply Forall_lookup_1 in Hall; [|done]. by destruct Hall.
      - destruct (decide (i = i0)) as [->|Hne]; [done|].
        destruct (Hothers i _ Hne Hi) as [? ?]. done. }
    unfold upload_inv. simpl. split_and!; try done; [by apply Forall_insert| |].
    + right. split; [done|]. exists i, (file, AtUnlock). split_and!.
      * apply list_lookup_insert_eq. by eapply lookup_lt_Some.
      * by right.
      * intros j g' Hj. rewrite list_lookup_insert_ne by done. by apply Hothers.
    + exists (new ++ [PostImage.mk (next_id (PostImage.id <$> post_images d)) postID
                        (fileLocation postID file)]), more.
      split_and!; try done.
      * rewrite Htab. unfold set_post_images. simpl. by rewrite <- app_assoc.
      * apply Forall_app. split; [done|]. by apply Forall_singleton.
      * rewrite fmap_app. simpl.
        rewrite (omap_insert_Some _ _ _ (file, AtInsert) _ (fileLocation postID file));
          try done.
        by apply Permutation_app_tail.
      * by rewrite (omap_insert_eq _ _ _ (file, AtInsert)).
  - intros [= <-].
    assert (∀ j g', j ≠ i → gs !! j = Some g' → outside_lock g'.2) as Hothers.
    { destruct Hlock as [[_ Hall]|(Hm & i0 & g & Hi0 & Hg & Hothers)].
      - eapply Forall_lookup_1 in Hall; [|done]. by destruct Hall.
      - destruct (decide (i = i0)) as [->|Hne]; [done|].
        destruct (Hothers i _ Hne Hi) as [? ?]. done. }
    unfold upload_inv. simpl. split_and!; try done; [by apply Forall_insert| |].
    + left. split; [done|]. apply Forall_lookup. intros j g'.
      destruct (decide (j = i)) as [->|Hji].
      * rewrite list_lookup_insert_eq by (by eapply lookup_lt_Some).
        by intros [= <-].
      * rewrite list_lookup_insert_ne by done. by apply Hothers.
    + exists new, more. split_and!; try done.
      * rewrite (omap_insert_eq _ _ _ (file, AtUnlock)); [done|done|].
        unfold recorded. simpl. cbn in Hpc. by rewrite Hpc.
      * rewrite (omap_insert_eq _ _ _ (file, AtUnlock)); [done|done|].
        unfold reported. simpl. cbn in Hpc. by rewrite Hpc.
  - done.
Qed.

Lemma upload_inv_run postID files c schedule : ∀ st,
  upload_inv postID files c st → upload_inv postID files c (run postID schedule st).
Proof.
  induction schedule as [|i schedule IH]; intros st Hinv; [done|]. simpl.
  destruct (step_at postID i st) as [st'|] eqn:Hs; simpl; [|by apply IH].
  by eapply IH, upload_inv_step.
Qed.

(** While a goroutine has not finished, some goroutine can move. *)
Lemma upload_inv_progress postID files c st :
  upload_inv postID files c st → ¬ all_finished st →
  ∃ i st', step_at postID i st = Some st'.
Proof.
  destruct st as [[s w] m gs].
  intros (_ & Hfl & _ & Hlock & _) Hnot. simpl in *.
  assert (∀ i file pc, gs !! i = Some (file, pc) → pc ≠ Finished → pc ≠ AtLock →
            ∃ st', step_at postID i (mkUploading (mkCtx s w) m gs) = Some st') as Hmove.
  { intros i file pc Hi Hnf Hnl. unfold step_at. simpl. rewrite Hi.
    destruct pc; simpl; try done; by repeat case_match; eauto. }
  unfold all_finished in Hnot. simpl in Hnot.
  apply not_Forall_Exists in Hnot; [|apply _].
  apply Exists_exists in Hnot as ([file pc] & Hin & Hpc). simpl in Hpc.
  apply list_elem_of_lookup in Hin as [i Hi].
  destruct (decide (pc = AtLock)) as [->|Hnl]; [|by exists i; eapply Hmove].
  destruct Hlock as [[-> _]|(_ & i0 & [f0 pc0] & Hi0 & Hg & _)].
  - exists i. unfold step_at. simpl. rewrite Hi. simpl. eauto.
  - exists i0. eapply Hmove; [done|..]; simpl in Hg; by destruct Hg as [-> | ->].
Qed.

Lemma step_at_work_left postID i st st' :
  step_at postID i st = Some st' → (work_left st' < work_left st)%nat.
Proof.
  unfold step_at, work_left.
  destruct (goroutines st !! i) as [[file pc]|] eqn:Hi; [|done].
  destruct (goroutine_step postID file pc (shared st) (mu st)) as [[[pc' c'] m']|] eqn:Hg;
    [|done].
  intros [= <-]. simpl. apply (sum_list_with_insert_lt _ _ _ (file, pc)); [done|]. simpl.
  destruct pc; simpl in Hg; repeat case_match; simplify_eq; simpl; lia.
Qed.

(** From every state of such an upload the goroutines can all finish. *)
Lemma upload_inv_can_finish postID files c : ∀ n st,
  (work_left st ≤ n)%nat → upload_inv postID files c st →
  ∃ rest, all_finished (run postID rest st).
Proof.
  induction n as [|n IH]; intros st Hn Hinv.
  - exists []. simpl. unfold all_finished, work_left in *.
    apply Forall_forall. intros [file pc] Hin.
    apply list_elem_of_lookup in Hin as [i Hi].
    destruct (decide (pc = Finished)) as [->|Hpc]; [done|].
    apply take_drop_middle in Hi. rewrite <- Hi in Hn.
    rewrite sum_list_with_app in Hn. simpl in Hn. destruct pc; simpl in Hn; done || lia.
  - destruct (decide (all_finished st)) as [Hfin|Hnot]; [by exists []|].
    destruct (upload_inv_progress _ _ _ _ Hinv Hnot) as (i & st' & Hs).
    destruct (IH st') as [rest Hrest].
    + apply step_at_work_left in Hs. lia.
    + by eapply upload_inv_step.
    + exists (i :: rest). simpl. by rewrite Hs.
Qed.

(** What the goroutines have recorded and reported once all have finished. *)
Lemma finished_goroutines postID (gs : list (Upload.t * Pc)) :
  Forall (λ g, g.2 = Finished) gs →
  omap (recorded postID) gs
  = fileLocation postID <$> filter (λ file, file_error file = None) (fst <$> gs)
  ∧ omap reported gs = internal_error <$> omap file_error (fst <$> gs).
Proof.
  induction 1 as [|[file pc] gs Hpc _ [IHr IHp]]; [done|]. simpl in Hpc. subst pc.
  rewrite fmap_cons, filter_cons. cbn [fst snd].
  destruct (file_error file) as [e|] eqn:He;
    [rewrite decide_False by done|rewrite decide_True by done];
    cbn; rewrite He; cbn; by rewrite IHr, IHp.
Qed.

(** X21.  [uploadPostImages] on a store that works, for any number of files and
    under every schedule.  At most one goroutine is between [mu.Lock] and
    [mu.Unlock].  From whatever state the schedule has reached, the
    goroutines can all finish, so that no reachable state keeps [wg.Wait]
    from returning.  Once all have finished, the tables are those before
    the upload with image records of the post appended, one per file whose
    three file-system calls succeed,
    holding the paths of these files in some order; and the handler has
    answered with one 500 response per file stopped by a failed call,
    carrying the error of that call, in some order, followed by
    200 "Post Images Uploaded". *)
Theorem uploadPostImages_on_working_store postID files (c : Ctx Store) schedule :
  failures (store c) = [] →
  let st := run postID schedule (spawned files c) in
  (∀ i j gi gj,
     goroutines st !! i = Some gi → goroutines st !! j = Some gj →
     ¬ outside_lock gi.2 → ¬ outside_lock gj.2 → i = j)
  ∧ (∃ rest, all_finished (run postID (schedule ++ rest) (spawned files c)))
  ∧ (all_finished st →
     ∃ new more,
       tables (store (shared st))
       = set_post_images (λ imgs, imgs ++ new) (tables (store c))
       ∧ Forall (λ i, PostImage.post_id i = postID) new
       ∧ PostImage.path <$> new
         ≡ₚ fileLocation postID <$> filter (λ file, file_error file = None) files
       ∧ more ≡ₚ internal_error <$> omap file_error files
       ∧ uploadPostImages_end st
         = Some (mkCtx (store (shared st))
                   (written c ++ more
                    ++ [mkResponse http.StatusOK
                          (SuccessPostResponse "Post Images Uploaded")]))).
Proof.
  intros Hfl st.
  pose proof (upload_inv_run postID files c schedule _ (upload_inv_spawned postID files c Hfl))
    as Hinv.
  fold st in Hinv. split_and!.
  - destruct Hinv as (_ & _ & _ & Hlock & _).
    intros i j gi gj Hi Hj Hgi Hgj.
    destruct Hlock as [[_ Hall]|(_ & i0 & g & _ & _ & Hothers)].
    + eapply Forall_lookup_1 in Hall; [|exact Hi]. done.
    + destruct (decide (i = i0)) as [->|Hne]; [|by destruct Hgi; eapply Hothers].
      destruct (decide (j = i0)) as [->|Hne]; [done|by destruct Hgj; eapply Hothers].
  - destruct (upload_inv_can_finish postID files c (work_left st) st (le_n _) Hinv)
      as [rest Hrest].
    exists rest. by rewrite run_app.
  - intros Hfin.
    destruct Hinv as (Hfiles & _ & _ & _ & new & more & Htab & Hnew & Hrec & Hw & Hrep).
    destruct (finished_goroutines postID (goroutines st) Hfin) as [Hr Hp].
    rewrite Hfiles in Hr, Hp. exists new, more. split_and!; try done.
    + by rewrite Hrec, Hr.
    + by rewrite Hrep, Hp.
    + unfold uploadPostImages_end. rewrite decide_True by done.
      unfold respond, JSON. simpl. by rewrite Hw, app_assoc.
Qed.

Lemma uploadPostImages_on_working_store_witness :
  ∃ new,
    post_images (tables (store (shared
      (run 1 [0; 1; 0; 1; 0; 1; 0; 1; 0; 1; 0; 1]%nat
         (spawned [Upload.mk "a.png" 1 None None None;
                   Upload.mk "b.png" 2 None (Some (ErrOther "disk full")) None]
                  (sample_ctx []))))))
    = post_images sample_db ++ new
    ∧ PostImage.path <$> new ≡ₚ ["media/post/1-1-a.png"].
Proof.
  destruct (uploadPostImages_on_working_store 1
              [Upload.mk "a.png" 1 None None None;
               Upload.mk "b.png" 2 None (Some (ErrOther "disk full")) None]
              (sample_ctx []) [0; 1; 0; 1; 0; 1; 0; 1; 0; 1; 0; 1]%nat eq_refl)
    as (_ & _ & Hend).
  destruct Hend as (new & more & Htab & _ & Hpaths & _); [by apply (bool_decide_unpack _)|].
  exists new. split; [by rewrite Htab|exact Hpaths].
Defined.

(** ** Creating a post and reading it back *)

Section RoundTripFacts.
Context `{Environment}.

(** X22.  A post can be read back as it was created.  On a store that works
    and whose batches and image ids fit 32 bits, for a body that binds and
    passes the word filter and a caller resolved to a user who is stored
    once, with at most one profile: [createPost] answers 200 "Post Created"
    with an id that no post had, and [readPost] for that id, by any viewer,
    then answers 200 with exactly the category, title and description of
    the body, the clock reading of the creation, and the caller as
    author. *)
Theorem createPost_then_readPost (cc : Request CreatePostRequest.t) (cr : Request unit)
    (c : Ctx Store) req userID u ud :
  Bound cc = inr req →
  Validate (CreatePostRequest.Title req) = true →
  Validate (CreatePostRequest.Description req) = true →
  Token cc = Resolved userID →
  failures (store c) = [] →
  int32_columns (tables (store c)) →
  filter (λ u, User.id u = userID) (users (tables (store c))) = [u] →
  filter (λ ud, UserDetail.user_id ud = User.id u) (user_details (tables (store c)))
  = option_list ud →
  let created := (createPost cc c).2 in
  ∃ postID,
    (∀ p, p ∈ posts (tables (store c)) → Post.id p ≠ postID)
    ∧ written created
      = written c ++ [mkResponse http.StatusOK (CreatePostResponse postID "Post Created")]
    ∧ (strconv.Atoi (Param cr "id") = Some postID →
       readPost cr created
       = (Next tt,
          mkCtx (store created)
                (written created
                 ++ [mkResponse http.StatusOK
                       (PostDetailResponse
                          (detail_entry (viewer_of (Token cr)) (tables (store created))
                             (Post.mk postID userID (CreatePostRequest.CategoryID req)
                                (CreatePostRequest.Title req)
                                (CreatePostRequest.Description req) (now (store c)))
                             u ud))]))).
Proof.
  intros Hb Ht Hd Htok Hfl Hfit Hu Hud created.
  set (postID := next_id (Post.id <$> posts (tables (store c)))).
  set (post := Post.mk postID userID (CreatePostRequest.CategoryID req)
                 (CreatePostRequest.Title req) (CreatePostRequest.Description req)
                 (now (store c))).
  assert (∀ p, p ∈ posts (tables (store c)) → Post.id p ≠ postID) as Hfresh.
  { intros p Hp. assert (Post.id p < postID); [|lia].
    apply next_id_fresh, list_elem_of_fmap. eauto. }
  assert (created
          = mkCtx (mkStore (set_posts (λ ps, ps ++ [post]) (tables (store c)))
                     [] (now (store c)))
                  (written c
                   ++ [mkResponse http.StatusOK (CreatePostResponse postID "Post Created")]))
    as Hcreated.
  { subst created. unfold createPost. rewrite Hb, Ht, Hd. simpl.
    unfold handler_bind, getUserIdFromToken. rewrite Htok. simpl.
    destruct c as [[d fl n] w]. simpl in *. by subst fl. }
  exists postID. split_and!; [done|by rewrite Hcreated|].
  intros Hid. rewrite Hcreated. apply (readPost_detail _ _ postID); simpl; try done.
  rewrite filter_app, filter_none by (intros p Hp; by apply Hfresh).
  by rewrite filter_cons_True.
Qed.

End RoundTripFacts.

Lemma createPost_then_readPost_witness :
  (readPost (H := sample_env) (get_request [("id", "4")] [] Panics)
     (createPost (H := sample_env)
        (mkRequest ∅ ∅ "" (inr (CreatePostRequest.mk 1 "hello" "first post")) (Resolved 8))
        (sample_ctx [])).2).1
  = Next tt.
Proof.
  destruct (createPost_then_readPost (H := sample_env)
              (mkRequest ∅ ∅ "" (inr (CreatePostRequest.mk 1 "hello" "first post"))
                 (Resolved 8))
              (get_request [("id", "4")] [] Panics) (sample_ctx [])
              (CreatePostRequest.mk 1 "hello" "first post") 8
              (User.mk 8 "bob" "student" (Some "bob.png"))
              (Some (UserDetail.mk 8 (Some "MIT") None (Some 2020)))
              eq_refl eq_refl eq_refl eq_refl eq_refl sample_db_int32 eq_refl eq_refl)
    as (postID & _ & Hw & Hread).
  injection Hw as <-. by rewrite Hread.
Defined.
